(** * Verification of the document model and layout engine of the
      rich-text editor core (src/engine/src/document.rs, layout.rs,
      text.rs, lib.rs, render.rs).

    Conventions of the embedding:
    - [usize] is [nat]; the few subtractions that could underflow are
      written out where they matter;
    - a Rust [String] is a list of Unicode scalar values ([rstring]); its
      [len()] is the UTF-8 byte length [byte_len], and byte-range slicing
      that does not fall on a character boundary (a Rust panic) yields
      [None];
    - [f64] quantities are modelled as exact rationals [Q], without
      rounding;
    - in-place mutation of a [Vec] or of a struct is modelled as a function
      returning the new value. *)

From Stdlib Require Import List Arith Lia Bool ZArith QArith Qround Permutation.
Import ListNotations.
Open Scope nat_scope.

(* ================================================================== *)
(** ** Strings *)

Module RStr.

(** A Rust [String], as the sequence of its [char]s (code points). *)
Definition rstring := list Z.

(** [char::len_utf8]. *)
Definition len_utf8 (c : Z) : nat :=
  if (c <? 128)%Z then 1
  else if (c <? 2048)%Z then 2
  else if (c <? 65536)%Z then 3
  else 4.

(** [str::len]: the UTF-8 byte length. *)
Fixpoint byte_len (s : rstring) : nat :=
  match s with
  | [] => 0
  | c :: r => len_utf8 c + byte_len r
  end.

Definition rstring_eqb (a b : rstring) : bool :=
  if list_eq_dec Z.eq_dec a b then true else false.

Definition is_empty (s : rstring) : bool :=
  match s with [] => true | _ => false end.

(** [&s[k..]]: drop [k] bytes; [None] when [k] is not a char boundary
    or is beyond the end (the Rust slice panics). *)
Fixpoint drop_bytes (k : nat) (s : rstring) : option rstring :=
  match k with
  | 0 => Some s
  | S _ =>
      match s with
      | [] => None
      | c :: r => if len_utf8 c <=? k then drop_bytes (k - len_utf8 c) r else None
      end
  end.

(** [&s[..k]]. *)
Fixpoint take_bytes (k : nat) (s : rstring) : option rstring :=
  match k with
  | 0 => Some []
  | S _ =>
      match s with
      | [] => None
      | c :: r =>
          if len_utf8 c <=? k then
            match take_bytes (k - len_utf8 c) r with
            | Some t => Some (c :: t)
            | None => None
            end
          else None
      end
  end.

(** [&s[a..b]]. *)
Definition slice (a b : nat) (s : rstring) : option rstring :=
  if b <? a then None
  else match drop_bytes a s with
       | Some r => take_bytes (b - a) r
       | None => None
       end.

(** [s.char_indices()]: each char with its byte offset from [base]. *)
Fixpoint char_indices_from (base : nat) (s : rstring) : list (nat * Z) :=
  match s with
  | [] => []
  | c :: r => (base, c) :: char_indices_from (base + len_utf8 c) r
  end.

Definition char_indices (s : rstring) := char_indices_from 0 s.

End RStr.
Import RStr.

(* ================================================================== *)
(** ** Inline text styles ([TextStyle], [Paragraph::apply_style]) *)

Module Style.

(** The formatting fields of [TextStyle] (everything but the range). *)
Record Attrs := mkAttrs {
  bold : bool;
  italic : bool;
  underline : bool;
  strikethrough : bool;
  color : option rstring;
  background : option rstring
}.

(** [TextStyle]: half-open char range [start, end_) plus formatting. *)
Record TextStyle := mkStyle {
  start : nat;
  end_ : nat;
  attrs : Attrs
}.

(** The formatting of [TextStyle::new]. *)
Definition default_attrs : Attrs := mkAttrs false false false false None None.

Definition TextStyle_new (s e : nat) : TextStyle := mkStyle s e default_attrs.

Definition set_range (st : TextStyle) (s e : nat) : TextStyle :=
  mkStyle s e (attrs st).

Definition is_some {A} (o : option A) : bool :=
  match o with Some _ => true | None => false end.

(** [TextStyle::has_formatting]. *)
Definition has_formatting_attrs (f : Attrs) : bool :=
  bold f || italic f || underline f || strikethrough f
  || is_some (color f) || is_some (background f).

Definition has_formatting (st : TextStyle) : bool := has_formatting_attrs (attrs st).

(** [TextStyle::overlaps]. *)
Definition overlaps (st : TextStyle) (s e : nat) : bool :=
  (start st <? e) && (s <? end_ st).

Definition opt_str_eqb (a b : option rstring) : bool :=
  match a, b with
  | Some x, Some y => rstring_eqb x y
  | None, None => true
  | _, _ => false
  end.

(** The field-by-field comparison of [merge_adjacent_styles]. *)
Definition attrs_eqb (f g : Attrs) : bool :=
  Bool.eqb (bold f) (bold g) && Bool.eqb (italic f) (italic g)
  && Bool.eqb (underline f) (underline g)
  && Bool.eqb (strikethrough f) (strikethrough g)
  && opt_str_eqb (color f) (color g)
  && opt_str_eqb (background f) (background g).

(** The closure [F: Fn(&mut TextStyle)] passed to [apply_style]; every
    caller (lib.rs) writes formatting fields only, so it is modelled as a
    function on the formatting fields. *)
Definition Modifier := Attrs -> Attrs.

Definition modify (m : Modifier) (st : TextStyle) : TextStyle :=
  mkStyle (start st) (end_ st) (m (attrs st)).

(** [slice::sort_by_key] (a stable sort), as a stable insertion sort: the
    result of a stable sort is unique. *)
Fixpoint insert_by {A} (key : A -> nat) (x : A) (l : list A) : list A :=
  match l with
  | [] => [x]
  | y :: r => if key x <? key y then x :: y :: r else y :: insert_by key x r
  end.

Definition sort_by_key {A} (key : A -> nat) (l : list A) : list A :=
  fold_left (fun acc x => insert_by key x acc) l [].

(** Body of the first loop of [apply_style]: what one existing style
    pushes onto [new_styles]. *)
Definition split_style (s e : nat) (m : Modifier) (st : TextStyle) : list TextStyle :=
  if overlaps st s e then
    (if start st <? s then [set_range st (start st) s] else [])
    ++ (if e <? end_ st then [set_range st e (end_ st)] else [])
    ++ (let overlap := modify m (set_range st (Nat.max (start st) s) (Nat.min (end_ st) e)) in
        if has_formatting overlap then [overlap] else [])
  else [st].

(** A fresh style for a gap, kept only when formatted. *)
Definition gap_style (m : Modifier) (s e : nat) : list TextStyle :=
  let ns := modify m (TextStyle_new s e) in
  if has_formatting ns then [ns] else [].

(** The gap loop over the sorted covered ranges: returns the final
    [pos] and the styles pushed. *)
Fixpoint gap_loop (m : Modifier) (pos : nat) (covered : list (nat * nat))
  : nat * list TextStyle :=
  match covered with
  | [] => (pos, [])
  | (s, e) :: rest =>
      let here := if pos <? s then gap_style m pos s else [] in
      let '(p', more) := gap_loop m e rest in
      (p', here ++ more)
  end.

(** [Paragraph::merge_adjacent_styles]: the vector [result] is kept
    reversed, its head being [result.last_mut()]. *)
Definition merge_step (result : list TextStyle) (st : TextStyle) : list TextStyle :=
  match result with
  | last :: rest =>
      if (end_ last =? start st) && attrs_eqb (attrs last) (attrs st)
      then set_range last (start last) (end_ st) :: rest
      else st :: result
  | [] => [st]
  end.

Definition merge_adjacent_styles (styles : list TextStyle) : list TextStyle :=
  rev (fold_left merge_step styles []).

(** [Paragraph::apply_style] on the [styles] field. *)
Definition apply_style (styles : list TextStyle) (s e : nat) (m : Modifier)
  : list TextStyle :=
  if e <=? s then styles
  else
    let new1 := flat_map (split_style s e m) styles in
    let covered :=
      sort_by_key fst
        (map (fun st => (Nat.max (start st) s, Nat.min (end_ st) e))
             (filter (fun st => overlaps st s e) new1)) in
    let '(pos, gaps) := gap_loop m s covered in
    let tail := if pos <? e then gap_style m pos e else [] in
    merge_adjacent_styles (sort_by_key start (new1 ++ gaps ++ tail)).

(** A modifier that sets some fields unconditionally (the shape of every
    caller: [style.bold = !is_bold], [style.color = color_opt.clone()], ...):
    [Some v] sets the field to [v], [None] leaves it. *)
Record FieldSets := mkFieldSets {
  set_bold : option bool;
  set_italic : option bool;
  set_underline : option bool;
  set_strikethrough : option bool;
  set_color : option (option rstring);
  set_background : option (option rstring)
}.

Definition setv {A} (o : option A) (x : A) : A :=
  match o with Some v => v | None => x end.

Definition set_fields (fs : FieldSets) : Modifier := fun f =>
  mkAttrs (setv (set_bold fs) (bold f)) (setv (set_italic fs) (italic f))
          (setv (set_underline fs) (underline f))
          (setv (set_strikethrough fs) (strikethrough f))
          (setv (set_color fs) (color f)) (setv (set_background fs) (background f)).

(** The style-list invariant of the data model. *)
Fixpoint sorted_disjoint (l : list TextStyle) : bool :=
  match l with
  | x :: ((y :: _) as r) => (end_ x <=? start y) && sorted_disjoint r
  | _ => true
  end.

Definition all_nonempty (l : list TextStyle) : bool :=
  forallb (fun st => start st <? end_ st) l.

Definition all_formatted (l : list TextStyle) : bool := forallb has_formatting l.

Fixpoint no_adjacent_dups (l : list TextStyle) : bool :=
  match l with
  | x :: ((y :: _) as r) =>
      negb ((end_ x =? start y) && attrs_eqb (attrs x) (attrs y)) && no_adjacent_dups r
  | _ => true
  end.

Definition styles_invariant (l : list TextStyle) : bool :=
  sorted_disjoint l && all_nonempty l && all_formatted l && no_adjacent_dups l.

(** The predicate of [Paragraph::style_at]: the style covers [pos]. *)
Definition covers_pos (pos : nat) (st : TextStyle) : bool :=
  (start st <=? pos) && (pos <? end_ st).

(** Auxiliary functions for the proofs. *)

(** [l] is ordered by [k] (non-decreasing). *)
Fixpoint sorted_by {A} (k : A -> nat) (l : list A) : bool :=
  match l with
  | x :: ((y :: _) as r) => (k x <=? k y) && sorted_by k r
  | _ => true
  end.

(** Functional form of [merge_adjacent_styles], from its first style on. *)
Fixpoint merge_from (cur : TextStyle) (l : list TextStyle) : list TextStyle :=
  match l with
  | [] => [cur]
  | st :: r =>
      if (end_ cur =? start st) && attrs_eqb (attrs cur) (attrs st)
      then merge_from (set_range cur (start cur) (end_ st)) r
      else cur :: merge_from st r
  end.

(** [pos] lies in one of the [covered] ranges. *)
Definition in_cov (pos : nat) (cov : list (nat * nat)) : bool :=
  existsb (fun '(x, y) => (x <=? pos) && (pos <? y)) cov.

(** [cov] is an ordered chain of non-empty ranges from [pos] on, within
    [.., e]. *)
Fixpoint chain (e pos : nat) (cov : list (nat * nat)) : Prop :=
  match cov with
  | [] => pos <= e
  | (x, y) :: r => pos <= x /\ x < y /\ chain e y r
  end.

(** The formatting, after [apply_style], at a position inside the range
    whose formatting was [here] before. *)
Definition apply_at (m : Modifier) (here : list Attrs) : list Attrs :=
  let fresh := if has_formatting_attrs (m default_attrs) then [m default_attrs] else [] in
  match here with
  | f :: _ => if has_formatting_attrs (m f) then [m f] else fresh
  | [] => fresh
  end.

(** The formatting of the styles covering [pos] (used in proofs). *)
Definition attrs_at (l : list TextStyle) (pos : nat) : list Attrs :=
  map attrs (filter (covers_pos pos) l).

(** The part of a style inside [s, e) (the covered range it yields). *)
Definition clip (s e : nat) (st : TextStyle) : nat * nat :=
  (Nat.max (start st) s, Nat.min (end_ st) e).

End Style.

(* ================================================================== *)
(** ** Tables ([TableCell], [DocumentTable::merge_cells], [split_cell]) *)

Module Table.

Inductive TextAlign := Left | Center | Right | Justify.
Inductive TableWidthMode := Fixed | Percentage | Auto.

Record TableCell := mkCell {
  text : rstring;
  styles : list Style.TextStyle;
  align : TextAlign;
  background : option rstring;
  col_span : nat;
  row_span : nat;
  covered : bool;
  covered_by_row : option nat;
  covered_by_col : option nat
}.

Record TableRow := mkRow {
  cells : list TableCell;
  min_height : option Q
}.

Record DocumentTable := mkTable {
  id : rstring;
  rows : list TableRow;
  column_widths : list Q;
  border_width : Q;
  border_color : rstring;
  width_mode : TableWidthMode
}.

(** [TableCell::new]. *)
Definition TableCell_new : TableCell :=
  mkCell [] [] Left None 1 1 false None None.

(** [TableCell::is_merge_origin]. *)
Definition is_merge_origin (c : TableCell) : bool :=
  negb (covered c) && ((1 <? col_span c) || (1 <? row_span c)).

Definition num_cols (t : DocumentTable) : nat := length (column_widths t).
Definition num_rows (t : DocumentTable) : nat := length (rows t).

(** [TableRow::new]. *)
Definition TableRow_new (ncols : nat) : TableRow := mkRow (repeat TableCell_new ncols) None.

(** [DocumentTable::new]: even percentage widths, border 1, colour
    ["#000000"]. *)
Definition DocumentTable_new (tid : rstring) (nrows ncols : nat) : DocumentTable :=
  mkTable tid (repeat (TableRow_new ncols) nrows)
    (repeat (100 / inject_Z (Z.of_nat ncols))%Q ncols) 1%Q
    [35; 48; 48; 48; 48; 48; 48]%Z Percentage.

(** [DocumentTable::get_cell]. *)
Definition get_cell (t : DocumentTable) (r c : nat) : option TableCell :=
  match nth_error (rows t) r with
  | Some row => nth_error (cells row) c
  | None => None
  end.

(** Update of the [n]-th element in place; nothing out of range. *)
Fixpoint update_nth {A} (n : nat) (f : A -> A) (l : list A) : list A :=
  match l, n with
  | [], _ => []
  | x :: r, 0 => f x :: r
  | x :: r, S k => x :: update_nth k f r
  end.

(** [if let Some(cell) = self.get_cell_mut(r, c) { f(cell) }]. *)
Definition update_cell (t : DocumentTable) (r c : nat) (f : TableCell -> TableCell)
  : DocumentTable :=
  mkTable (id t)
    (update_nth r (fun row => mkRow (update_nth c f (cells row)) (min_height row)) (rows t))
    (column_widths t) (border_width t) (border_color t) (width_mode t).

(** The positions of [for row_idx in r..r+rs { for col_idx in c..c+cs }],
    in row-major order. *)
Definition region_positions (r c rs cs : nat) : list (nat * nat) :=
  flat_map (fun ri => map (fun ci => (ri, ci)) (seq c cs)) (seq r rs).

(** [for row_idx in sr..=er { for col_idx in sc..=ec }]. *)
Definition rect_positions (sr sc er ec : nat) : list (nat * nat) :=
  region_positions sr sc (S er - sr) (S ec - sc).

(** One iteration of the validation loop of [merge_cells]: [false] is
    the early [return false].  [row_idx + cell.row_span - 1] underflows
    only for [row_idx = 0] and [row_span = 0]; it then panics (debug) or
    wraps to [usize::MAX] (release), so the merge does not happen: it is
    modelled as a failed check. *)
Definition merge_cell_ok (t : DocumentTable) (sr sc er ec : nat) (pos : nat * nat) : bool :=
  let '(ri, ci) := pos in
  match get_cell t ri ci with
  | None => true
  | Some cell =>
      let covered_ok :=
        if covered cell then
          match covered_by_row cell, covered_by_col cell with
          | Some br, Some bc => negb ((br <? sr) || (bc <? sc))
          | _, _ => true
          end
        else true in
      let origin_ok :=
        if is_merge_origin cell then
          if (ri + row_span cell =? 0) || (ci + col_span cell =? 0) then false
          else negb ((er <? ri + row_span cell - 1) || (ec <? ci + col_span cell - 1))
        else true in
      covered_ok && origin_ok
  end.

(** The text collection loop of [merge_cells]. *)
Definition collect_step (t : DocumentTable) (acc : rstring) (pos : nat * nat) : rstring :=
  let '(ri, ci) := pos in
  match get_cell t ri ci with
  | Some cell =>
      if negb (covered cell) && negb (is_empty (text cell)) then
        (if is_empty acc then acc else acc ++ [10%Z]) ++ text cell
      else acc
  | None => acc
  end.

Definition set_origin (txt : rstring) (rs cs : nat) (o : TableCell) : TableCell :=
  mkCell txt (styles o) (align o) (background o) cs rs false None None.

Definition set_covered (sr sc : nat) (cell : TableCell) : TableCell :=
  mkCell [] (styles cell) (align cell) (background cell) 1 1 true (Some sr) (Some sc).

(** [DocumentTable::merge_cells]: the success flag and the new table. *)
Definition merge_cells (t : DocumentTable) (sr sc er ec : nat) : bool * DocumentTable :=
  if (num_rows t <=? er) || (num_cols t <=? ec) then (false, t)
  else if (er <? sr) || (ec <? sc) then (false, t)
  else if negb (forallb (merge_cell_ok t sr sc er ec) (rect_positions sr sc er ec))
  then (false, t)
  else
    let combined := fold_left (collect_step t) (rect_positions sr sc er ec) [] in
    let row_span := er - sr + 1 in
    let col_span := ec - sc + 1 in
    let t1 := update_cell t sr sc (set_origin combined row_span col_span) in
    let t2 := fold_left
                (fun acc '(ri, ci) =>
                   if (ri =? sr) && (ci =? sc) then acc
                   else update_cell acc ri ci (set_covered sr sc))
                (rect_positions sr sc er ec) t1 in
    (true, t2).

Definition reset_span (o : TableCell) : TableCell :=
  mkCell (text o) (styles o) (align o) (background o) 1 1
         (covered o) (covered_by_row o) (covered_by_col o).

Definition uncover (bg : option rstring) (cell : TableCell) : TableCell :=
  mkCell (text cell) (styles cell) (align cell) bg (col_span cell) (row_span cell)
         false None None.

(** [DocumentTable::split_cell]. *)
Definition split_cell (t : DocumentTable) (r c : nat) : bool * DocumentTable :=
  match get_cell t r c with
  | None => (false, t)
  | Some cell =>
      if negb (is_merge_origin cell) then (false, t)
      else
        let rs := row_span cell in
        let cs := col_span cell in
        let bg := background cell in
        let t1 := update_cell t r c reset_span in
        let t2 := fold_left
                    (fun acc '(ri, ci) =>
                       if (ri =? r) && (ci =? c) then acc
                       else update_cell acc ri ci (uncover bg))
                    (region_positions r c rs cs) t1 in
        (true, t2)
  end.

(** Every row has [num_cols] cells (what [new], [add_row], [add_column]
    and [delete_column] maintain). *)
Definition table_shape_ok (t : DocumentTable) : bool :=
  forallb (fun row => length (cells row) =? num_cols t) (rows t).

(** The cell invariant of the data model: a covered cell has span 1x1 and
    points at a merge origin whose rectangular footprint contains it;
    every cell of an origin's footprint other than the origin is covered
    and points at it. *)
Definition covered_cell_ok (t : DocumentTable) (pos : nat * nat) : bool :=
  let '(r, c) := pos in
  match get_cell t r c with
  | Some cell =>
      if covered cell then
        (col_span cell =? 1) && (row_span cell =? 1) &&
        match covered_by_row cell, covered_by_col cell with
        | Some br, Some bc =>
            match get_cell t br bc with
            | Some o => is_merge_origin o && (br <=? r) && (r <? br + row_span o)
                        && (bc <=? c) && (c <? bc + col_span o)
            | None => false
            end
        | _, _ => false
        end
      else true
  | None => true
  end.

Definition opt_nat_eqb (x : option nat) (y : nat) : bool :=
  match x with Some v => v =? y | None => false end.

Definition origin_cell_ok (t : DocumentTable) (pos : nat * nat) : bool :=
  let '(r, c) := pos in
  match get_cell t r c with
  | Some o =>
      if is_merge_origin o then
        forallb (fun '(ri, ci) =>
                   if (ri =? r) && (ci =? c) then true
                   else match get_cell t ri ci with
                        | Some x => covered x && opt_nat_eqb (covered_by_row x) r
                                    && opt_nat_eqb (covered_by_col x) c
                        | None => false
                        end)
                (region_positions r c (row_span o) (col_span o))
      else true
  | None => true
  end.

(** Every cell of the grid satisfies [covered_cell_ok]. *)
Definition covered_cells_ok (t : DocumentTable) : bool :=
  forallb (covered_cell_ok t) (region_positions 0 0 (num_rows t) (num_cols t)).

(** [(a, b)] lies in the rectangle [sr..=er] x [sc..=ec]. *)
Definition in_rect (sr sc er ec a b : nat) : bool :=
  (sr <=? a) && (a <=? er) && (sc <=? b) && (b <=? ec).

(** What [merge_cells] then [split_cell] on a rectangle should give back:
    the grid dimensions and row lengths, every cell of the rectangle a
    plain uncovered 1x1 cell without covered-by pointers, every other cell
    as in [t]. *)
Definition topology_restored (t t2 : DocumentTable) (sr sc er ec : nat) : Prop :=
  num_rows t2 = num_rows t /\ num_cols t2 = num_cols t /\ table_shape_ok t2 = true /\
  (forall a b, in_rect sr sc er ec a b = true ->
     exists cell, get_cell t2 a b = Some cell /\ covered cell = false /\
       row_span cell = 1 /\ col_span cell = 1 /\
       covered_by_row cell = None /\ covered_by_col cell = None) /\
  (forall a b, in_rect sr sc er ec a b = false -> get_cell t2 a b = get_cell t a b).

Definition table_wf (t : DocumentTable) : bool :=
  table_shape_ok t
  && forallb (covered_cell_ok t) (region_positions 0 0 (num_rows t) (num_cols t))
  && forallb (origin_cell_ok t) (region_positions 0 0 (num_rows t) (num_cols t)).

(** [Vec::insert(index, x)]: panics ([None]) when [index > len]. *)
Definition vec_insert {A} (index : nat) (x : A) (l : list A) : option (list A) :=
  if length l <? index then None else Some (firstn index l ++ x :: skipn index l).

(** [Vec::remove(index)], for [index < len]. *)
Definition vec_remove {A} (index : nat) (l : list A) : list A :=
  firstn index l ++ skipn (S index) l.

(** [iter().sum()] over [f64], in exact rationals (no rounding). *)
Definition sum_f64 (ws : list Q) : Q := fold_left Qplus ws 0%Q.

(** The normalization loop [*w = *w / total * 100.0], in exact
    rationals: neither the rounding of [f64] nor division by a zero total
    (NaN) is modelled, so only the number of widths it returns, one per
    input width, is relied on below. *)
Definition normalize_widths (ws : list Q) : list Q :=
  let total := sum_f64 ws in map (fun w => (w / total * 100)%Q) ws.

(** [DocumentTable::add_row]. *)
Definition add_row (t : DocumentTable) (at_index : nat) : DocumentTable :=
  let index := Nat.min at_index (length (rows t)) in
  mkTable (id t)
    (firstn index (rows t) ++ TableRow_new (num_cols t) :: skipn index (rows t))
    (column_widths t) (border_width t) (border_color t) (width_mode t).

(** The loop [for row in &mut self.rows { row.cells.insert(index, TableCell::new()) }];
    [None] when some row is too short (panic). *)
Fixpoint rows_insert_cell (index : nat) (rs : list TableRow) : option (list TableRow) :=
  match rs with
  | [] => Some []
  | row :: r =>
      match vec_insert index TableCell_new (cells row), rows_insert_cell index r with
      | Some cs, Some r' => Some (mkRow cs (min_height row) :: r')
      | _, _ => None
      end
  end.

(** [DocumentTable::add_column]; [None] is a panic. *)
Definition add_column (t : DocumentTable) (at_index : nat) : option DocumentTable :=
  let index := Nat.min at_index (num_cols t) in
  match rows_insert_cell index (rows t) with
  | None => None
  | Some rs =>
      let new_width := (100 / inject_Z (Z.of_nat (num_cols t + 1)))%Q in
      let ws := firstn index (column_widths t) ++ new_width :: skipn index (column_widths t) in
      Some (mkTable (id t) rs (normalize_widths ws)
                    (border_width t) (border_color t) (width_mode t))
  end.

(** [DocumentTable::delete_row]: the result flag and the new table. *)
Definition delete_row (t : DocumentTable) (row : nat) : bool * DocumentTable :=
  if (row <? length (rows t)) && (1 <? length (rows t)) then
    (true, mkTable (id t) (vec_remove row (rows t)) (column_widths t)
                   (border_width t) (border_color t) (width_mode t))
  else (false, t).


(** [DocumentTable::get_visible_cell]. *)
Definition get_visible_cell (t : DocumentTable) (row col : nat)
  : option (nat * nat * TableCell) :=
  match get_cell t row col with
  | Some cell =>
      if covered cell then
        match covered_by_row cell, covered_by_col cell with
        | Some origin_row, Some origin_col =>
            match get_cell t origin_row origin_col with
            | Some origin => Some (origin_row, origin_col, origin)
            | None => None
            end
        | _, _ => None
        end
      else Some (row, col, cell)
  | None => None
  end.

(** [DocumentTable::should_render_cell]. *)
Definition should_render_cell (t : DocumentTable) (row col : nat) : bool :=
  match get_cell t row col with
  | Some cell => negb (covered cell)
  | None => false
  end.

End Table.

(* ================================================================== *)
(** ** Paragraphs, images and the document (document.rs) *)

Module Doc.

(** [BlockType::Paragraph] is [BParagraph] (the name [Paragraph] is the struct). *)
Inductive BlockType := BParagraph | Heading1 | Heading2 | Heading3 | Heading4 | Blockquote.
Inductive ListType := LNone | Bullet | Numbered.
Inductive ImageWrapStyle := Inline | TopBottom | Square | Tight | Through | Behind | InFront.
Inductive HorizontalAlign := HLeft | HCenter | HRight.
Inductive ImagePositionMode := MoveWithText | FixedPosition.

Definition list_type_eqb (a b : ListType) : bool :=
  match a, b with
  | LNone, LNone | Bullet, Bullet | Numbered, Numbered => true
  | _, _ => false
  end.

(** [BlockType::font_size_multiplier]. *)
Definition font_size_multiplier (b : BlockType) : Q :=
  match b with
  | Heading1 => 2
  | Heading2 => 3 # 2
  | Heading3 => 117 # 100
  | Heading4 => 1
  | BParagraph => 1
  | Blockquote => 1
  end.

(** [ImageWrapStyle::is_float]. *)
Definition is_float (w : ImageWrapStyle) : bool :=
  match w with Square | Tight | Through => true | _ => false end.

Record ParagraphMeta := mkMeta {
  align : Table.TextAlign;
  block_type : BlockType;
  list_type : ListType;
  font_size : option Q;
  text_color : option rstring
}.

Record Paragraph := mkParagraph {
  text : rstring;
  meta : ParagraphMeta;
  styles : list Style.TextStyle
}.

Record DocumentImage := mkImage {
  id : rstring;
  src : rstring;
  width : Q;
  height : Q;
  natural_width : Q;
  natural_height : Q;
  wrap_style : ImageWrapStyle;
  horizontal_align : HorizontalAlign;
  position_mode : ImagePositionMode;
  x : option Q;
  y : option Q;
  page_index : option nat;
  crop_top : Q;
  crop_right : Q;
  crop_bottom : Q;
  crop_left : Q
}.

Record Document := mkDocument {
  version : nat;
  paragraphs : list Paragraph;
  images : list DocumentImage;
  tables : list Table.DocumentTable
}.

(** [DocumentImage::cropped_height]. *)
Definition cropped_height (img : DocumentImage) : Q :=
  height img * ((100 - crop_top img - crop_bottom img) / 100).

(** The sentinels: U+FFFD (page break), U+FFFC (image), U+FFFB (table). *)
Definition PAGE_BREAK : Z := 65533%Z.
Definition IMAGE_MARK : Z := 65532%Z.
Definition TABLE_MARK : Z := 65531%Z.

(** [Paragraph::is_page_break]: [self.text == "\u{FFFD}"]. *)
Definition is_page_break (p : Paragraph) : bool := rstring_eqb (text p) [PAGE_BREAK].

(** [Paragraph::image_id]: [Some(&self.text[3..])] when the text starts with
    U+FFFC (3 bytes in UTF-8, so the slice drops exactly that char). *)
Definition image_id (p : Paragraph) : option rstring :=
  match text p with
  | c :: r => if (c =? IMAGE_MARK)%Z then Some r else None
  | [] => None
  end.

(** [Paragraph::table_id]. *)
Definition table_id (p : Paragraph) : option rstring :=
  match text p with
  | c :: r => if (c =? TABLE_MARK)%Z then Some r else None
  | [] => None
  end.

Definition find_image (d : Document) (iid : rstring) : option DocumentImage :=
  find (fun img => rstring_eqb (id img) iid) (images d).

Definition find_table (d : Document) (tid : rstring) : option Table.DocumentTable :=
  find (fun t => rstring_eqb (Table.id t) tid) (tables d).

End Doc.

(* ================================================================== *)
(** ** Layout engine (layout.rs) *)

Module Layout.

Definition qlt (a b : Q) : bool := negb (Qle_bool b a).
Definition qmin (a b : Q) : Q := if Qle_bool a b then a else b.

Record LayoutConfig := mkConfig {
  page_width : Q;
  page_height : Q;
  margin_top : Q;
  margin_right : Q;
  margin_bottom : Q;
  margin_left : Q;
  columns : nat;  (* u8 *)
  column_gap : Q;
  font_size : Q;
  line_height : Q;
  letter_spacing : Q;
  paragraph_spacing : Q
}.

Definition content_width (c : LayoutConfig) : Q :=
  (page_width c - margin_left c - margin_right c)%Q.
Definition content_height (c : LayoutConfig) : Q :=
  (page_height c - margin_top c - margin_bottom c)%Q.
Definition column_width (c : LayoutConfig) : Q :=
  let total_gap := (column_gap c * (inject_Z (Z.of_nat (columns c)) - 1))%Q in
  ((content_width c - total_gap) / inject_Z (Z.of_nat (columns c)))%Q.
Definition line_height_px (c : LayoutConfig) : Q := (font_size c * line_height c)%Q.

Inductive FloatSide := FLeft | FRight.

Record FloatReduction := mkFloatReduction {
  fr_side : FloatSide;
  fr_width : Q;
  float_x : Q
}.

Record TableLayout := mkTableLayout {
  tl_table_id : rstring;
  row_heights : list Q;
  tl_column_widths : list Q;
  total_height : Q;
  total_width : Q;
  cell_lines : list (list (list rstring))
}.

Record DisplayLine := mkDisplayLine {
  para_index : nat;
  start_offset : nat;
  end_offset : nat;
  text : rstring;
  page_index : nat;
  column_index : nat;
  x_position : Q;
  y_position : Q;
  is_page_break : bool;
  is_image : bool;
  image_id : option rstring;
  image_height : option Q;
  list_number : option nat;
  is_last_line : bool;
  block_type : Doc.BlockType;
  list_type : Doc.ListType;
  float_reduction : option FloatReduction;
  is_table : bool;
  table_id : option rstring;
  table_layout : option TableLayout
}.

Record ActiveFloat := mkActiveFloat {
  af_id : rstring;
  start_line : nat;
  end_line : nat;
  af_width : Q;
  af_side : FloatSide;
  af_page_index : option nat;
  y_start : option Q;
  y_end : option Q;
  af_x_position : option Q
}.

(** [align_to_float_side]. *)
Definition align_to_float_side (a : Doc.HorizontalAlign) : FloatSide :=
  match a with Doc.HRight => FRight | _ => FLeft end.

(** The value a JS call returns, and the [Result] of [Function::call2]. *)
Inductive JsValue := JsNumber (q : Q) | JsOther.
Inductive CallResult := CallOk (v : JsValue) | CallErr.

Section WithMeasure.

(** The injected measurement capability [measure_fn.call2(text, size)]. *)
Variable measure_fn : rstring -> Q -> CallResult.

(** [compute_table_layout] (the table geometry calculator) enters as a
    parameter: the results below hold for every table layout function. *)
Variable compute_table_layout : Table.DocumentTable -> LayoutConfig -> TableLayout.

(** [measure_text]. *)
Definition measure_text (txt : rstring) (fs ls : Q) : Q :=
  match measure_fn txt fs with
  | CallOk result =>
      let width := match result with
                   | JsNumber w => w
                   | JsOther => (inject_Z (Z.of_nat (byte_len txt)) * fs * (1 # 2))%Q
                   end in
      let spacing := if 1 <? byte_len txt
                     then (inject_Z (Z.of_nat (length txt - 1)) * ls)%Q
                     else 0%Q in
      (width + spacing)%Q
  | CallErr => (inject_Z (Z.of_nat (byte_len txt)) * fs * (1 # 2))%Q
  end.

(** [get_float_reduction]. *)
Fixpoint get_float_reduction (floats : list ActiveFloat) (line_index : nat)
    (estimated_y lh cw : Q) : option FloatReduction :=
  match floats with
  | [] => None
  | fl :: rest =>
      match y_start fl, y_end fl with
      | Some ys, Some ye =>
          if qlt estimated_y ye && qlt ys (estimated_y + lh)%Q then
            Some (mkFloatReduction (af_side fl) (af_width fl)
                    (match af_x_position fl with Some v => v | None => 0%Q end))
          else get_float_reduction rest line_index estimated_y lh cw
      | _, _ =>
          if (start_line fl <=? line_index) && (line_index <? end_line fl) then
            Some (mkFloatReduction (af_side fl) (af_width fl)
                    (match af_side fl with FLeft => 0%Q | FRight => (cw - af_width fl)%Q end))
          else get_float_reduction rest line_index estimated_y lh cw
      end
  end.

(** The pre-pass of [compute_layout]: fixed-position floats. *)
Definition fixed_float (config : LayoutConfig) (img : Doc.DocumentImage) : list ActiveFloat :=
  match Doc.y img with
  | Some yv =>
      if Doc.is_float (Doc.wrap_style img)
         && match Doc.position_mode img with Doc.FixedPosition => true | _ => false end
      then
        let xv := match Doc.x img with Some v => v | None => 0%Q end in
        let ih := Doc.cropped_height img in
        let iw := qmin (Doc.width img) (column_width config) in
        let cw := column_width config in
        let center := (xv + iw / 2)%Q in
        let side := if qlt center (cw / 2)%Q then FLeft else FRight in
        [mkActiveFloat (Doc.id img) 0 0 iw side (Doc.page_index img)
                       (Some yv) (Some (yv + ih)%Q) (Some xv)]
      else []
  | None => []
  end.

(** A marker line ([text: String::new()], positions zeroed). *)
Definition marker_line (para_idx e : nat) (pb im : bool) (iid : option rstring)
    (ih : option Q) (bt : Doc.BlockType) (lt : Doc.ListType) (tbl : bool)
    (tid : option rstring) (tlay : option TableLayout) : DisplayLine :=
  {| para_index := para_idx; start_offset := 0; end_offset := e; text := [];
     page_index := 0; column_index := 0; x_position := 0%Q; y_position := 0%Q;
     is_page_break := pb; is_image := im; image_id := iid; image_height := ih;
     list_number := None; is_last_line := true; block_type := bt; list_type := lt;
     float_reduction := None; is_table := tbl; table_id := tid; table_layout := tlay |}.

(** A text line of the wrapping loop. *)
Definition text_line (para_idx s e : nat) (t : rstring) (ln : option nat) (last : bool)
    (bt : Doc.BlockType) (lt : Doc.ListType) (fr : option FloatReduction) : DisplayLine :=
  {| para_index := para_idx; start_offset := s; end_offset := e; text := t;
     page_index := 0; column_index := 0; x_position := 0%Q; y_position := 0%Q;
     is_page_break := false; is_image := false; image_id := None; image_height := None;
     list_number := ln; is_last_line := last; block_type := bt; list_type := lt;
     float_reduction := fr; is_table := false; table_id := None; table_layout := None |}.

Definition set_last_line (dl : DisplayLine) : DisplayLine :=
  {| para_index := para_index dl; start_offset := start_offset dl;
     end_offset := end_offset dl; text := text dl; page_index := page_index dl;
     column_index := column_index dl; x_position := x_position dl;
     y_position := y_position dl; is_page_break := is_page_break dl;
     is_image := is_image dl; image_id := image_id dl; image_height := image_height dl;
     list_number := list_number dl; is_last_line := true; block_type := block_type dl;
     list_type := list_type dl; float_reduction := float_reduction dl;
     is_table := is_table dl; table_id := table_id dl; table_layout := table_layout dl |}.

(** [if let Some(last) = lines.last_mut() { last.is_last_line = true; }]. *)
Fixpoint mark_last (ls : list DisplayLine) : list DisplayLine :=
  match ls with
  | [] => []
  | [dl] => [set_last_line dl]
  | dl :: r => dl :: mark_last r
  end.

(** [list_counters.last().copied()]. *)
Definition last_opt (l : list nat) : option nat :=
  match rev l with n :: _ => Some n | [] => None end.

(** The list-numbering step: the new counters and the number. *)
Definition list_numbering (lt : Doc.ListType) (counters : list nat)
  : list nat * option nat :=
  match lt with
  | Doc.Numbered =>
      let num := match last_opt counters with Some n => n | None => 0 end + 1 in
      (match counters with
       | [] => [num]
       | _ => removelast counters ++ [num]
       end, Some num)
  | Doc.Bullet => (counters, None)
  | Doc.LNone => ([], None)
  end.

(** The break-point search [for (i, c) in text[current_start..].char_indices()]:
    returns [line_end], [None] on a panicking slice. *)
Fixpoint break_loop (txt : rstring) (cur : nat) (fs ls avail : Q)
    (cis : list (nat * Z)) (line_end lwb : nat) : option nat :=
  match cis with
  | [] => Some line_end
  | (i, c) :: r =>
      let pos := cur + i in
      match slice cur (pos + 1) txt with             (* &text[current_start..=pos] *)
      | None => None
      | Some test_text =>
          let w := measure_text test_text fs ls in
          let lwb' := if (c =? 32)%Z then pos + 1 else lwb in
          if qlt avail w then
            Some (if cur <? lwb' then lwb' else Nat.max pos (cur + 1))
          else break_loop txt cur fs ls avail r (pos + len_utf8 c) lwb'
      end
  end.

(** The [while current_start < text.len()] loop; [nlines] is [lines.len()].
    Each iteration advances [current_start], so [byte_len txt] iterations
    suffice; [fuel] counts them. *)
Fixpoint wrap_loop (fuel : nat) (para_idx : nat) (txt : rstring)
    (bt : Doc.BlockType) (lt : Doc.ListType) (ln : option nat)
    (floats : list ActiveFloat) (current_line_count : nat)
    (fs ls base lh cw : Q) (cur nlines : nat) : option (list DisplayLine) :=
  if cur <? byte_len txt then
    match fuel with
    | 0 => None
    | S fuel' =>
        let line_index := current_line_count + nlines in
        let estimated_y := (inject_Z (Z.of_nat line_index) * lh)%Q in
        let fr := get_float_reduction floats line_index estimated_y lh cw in
        let float_width := match fr with Some f => (fr_width f + 10)%Q | None => 0%Q end in
        let avail := (base - float_width)%Q in
        let lnum := if nlines =? 0 then ln else None in
        match drop_bytes cur txt with
        | None => None
        | Some remaining =>
            let rw := measure_text remaining fs ls in
            if Qle_bool rw avail then
              Some [text_line para_idx cur (byte_len txt) remaining lnum true bt lt fr]
            else
              match break_loop txt cur fs ls avail (char_indices remaining) cur cur with
              | None => None
              | Some le0 =>
                  let line_end := if le0 <=? cur then cur + 1 else le0 in
                  match slice cur line_end txt with
                  | None => None
                  | Some line_text =>
                      match wrap_loop fuel' para_idx txt bt lt ln floats current_line_count
                              fs ls base lh cw line_end (S nlines) with
                      | None => None
                      | Some rest =>
                          Some (text_line para_idx cur line_end line_text lnum false bt lt fr
                                :: rest)
                      end
                  end
              end
        end
    end
  else Some [].

(** [if let Some(table_id) = para.table_id() { if let Some(table) =
    document.tables.iter().find(..)]. *)
Definition table_hit (document : Doc.Document) (para : Doc.Paragraph)
  : option (rstring * Table.DocumentTable) :=
  match Doc.table_id para with
  | Some tid => match Doc.find_table document tid with
                | Some t => Some (tid, t) | None => None end
  | None => None
  end.

(** The same for [para.image_id()] and [document.images]. *)
Definition image_hit (document : Doc.Document) (para : Doc.Paragraph)
  : option (rstring * Doc.DocumentImage) :=
  match Doc.image_id para with
  | Some iid => match Doc.find_image document iid with
                | Some img => Some (iid, img) | None => None end
  | None => None
  end.

(** [layout_paragraph] takes its plain-text path: not a page break, and no
    table or image of the document is named by the paragraph. *)
Definition text_path (document : Doc.Document) (para : Doc.Paragraph) : bool :=
  negb (Doc.is_page_break para)
  && match table_hit document para with None => true | Some _ => false end
  && match image_hit document para with None => true | Some _ => false end.

(** [layout_paragraph]: the lines, the new active floats and the new list
    counters; [None] is a panic. *)
Definition layout_paragraph (para_idx : nat) (para : Doc.Paragraph)
    (document : Doc.Document) (config : LayoutConfig)
    (floats : list ActiveFloat) (counters : list nat) (current_line_count : nat)
  : option (list DisplayLine * list ActiveFloat * list nat) :=
  let meta := Doc.meta para in
  let bt := Doc.block_type meta in
  let plen := byte_len (Doc.text para) in
  if Doc.is_page_break para then
    Some ([marker_line para_idx 1 true false None None bt (Doc.list_type meta)
                       false None None], floats, counters)
  else
  match table_hit document para with
  | Some (tid, table) =>
      let tl := compute_table_layout table config in
      Some ([marker_line para_idx plen false false None
               (Some (total_height tl / line_height_px config)%Q) bt Doc.LNone
               true (Some tid) (Some tl)], floats, counters)
  | None =>
  match image_hit document para with
  | Some (iid, image) =>
      let clamped_width := qmin (Doc.width image) (column_width config) in
      let lh := line_height_px config in
      let ih := Doc.cropped_height image in
      let float_lines := if Qle_bool ih 0 then 0 else Z.to_nat (Qceiling (ih / lh)) in
      let inline_image_lines := inject_Z (Qceiling (ih / lh)) in
      let zero_marker :=
        marker_line para_idx plen false true (Some iid) (Some 0%Q) bt Doc.LNone
                    false None None in
      let moves := match Doc.position_mode image with Doc.MoveWithText => true | _ => false end in
      if Doc.is_float (Doc.wrap_style image) && moves then
        Some ([zero_marker],
              floats ++ [mkActiveFloat iid (current_line_count + 1)
                           (current_line_count + 1 + float_lines) clamped_width
                           (align_to_float_side (Doc.horizontal_align image))
                           None None None None],
              counters)
      else if Doc.is_float (Doc.wrap_style image) && negb moves then
        Some ([zero_marker], floats, counters)
      else if match Doc.wrap_style image with Doc.Behind | Doc.InFront => true | _ => false end
      then Some ([zero_marker], floats, counters)
      else
        Some ([marker_line para_idx plen false true (Some iid) (Some inline_image_lines)
                           bt Doc.LNone false None None], floats, counters)
  | None =>
      (* plain text *)
      let lt := Doc.list_type meta in
      let '(counters', list_number) := list_numbering lt counters in
      let fs := ((match Doc.font_size meta with Some f => f | None => font_size config end)
                 * Doc.font_size_multiplier bt)%Q in
      let list_indent := if Doc.list_type_eqb lt Doc.LNone then 0%Q else (fs * (3 # 2))%Q in
      let base := (column_width config - list_indent)%Q in
      let txt := Doc.text para in
      let lh := line_height_px config in
      let cw := column_width config in
      if is_empty txt then
        let estimated_y := (inject_Z (Z.of_nat current_line_count) * lh)%Q in
        let fr := get_float_reduction floats current_line_count estimated_y lh cw in
        Some ([text_line para_idx 0 0 [] list_number true bt lt fr], floats, counters')
      else
        match wrap_loop (S (byte_len txt)) para_idx txt bt lt list_number floats
                current_line_count fs (letter_spacing config) base lh cw 0 0 with
        | Some ls => Some (mark_last ls, floats, counters')
        | None => None
        end
  end
  end.

(** The first pass of [compute_layout] over [document.paragraphs]. *)
Fixpoint layout_paragraphs (document : Doc.Document) (config : LayoutConfig)
    (idx : nat) (paras : list Doc.Paragraph) (acc : list DisplayLine)
    (floats : list ActiveFloat) (counters : list nat) : option (list DisplayLine) :=
  match paras with
  | [] => Some acc
  | p :: r =>
      match layout_paragraph idx p document config floats counters (length acc) with
      | None => None
      | Some (ls, floats', counters') =>
          layout_paragraphs document config (S idx) r (acc ++ ls) floats' counters'
      end
  end.

End WithMeasure.

(** Copy of a line with the fields [assign_page_positions] writes. *)
Definition with_position (dl : DisplayLine) (page col : nat) (xp yp : Q) : DisplayLine :=
  {| para_index := para_index dl; start_offset := start_offset dl;
     end_offset := end_offset dl; text := text dl; page_index := page;
     column_index := col; x_position := xp; y_position := yp;
     is_page_break := is_page_break dl; is_image := is_image dl;
     image_id := image_id dl; image_height := image_height dl;
     list_number := list_number dl; is_last_line := is_last_line dl;
     block_type := block_type dl; list_type := list_type dl;
     float_reduction := float_reduction dl; is_table := is_table dl;
     table_id := table_id dl; table_layout := table_layout dl |}.

(** The height [assign_page_positions] gives a non-page-break line. *)
Definition effective_height (config : LayoutConfig) (dl : DisplayLine) : Q :=
  if is_image dl || is_table dl then
    ((match image_height dl with Some h => h | None => 1 end) * line_height_px config)%Q
  else line_height_px config.

(** The loop of [assign_page_positions], state [(current_y, current_page,
    current_column)]. *)
Fixpoint assign_loop (config : LayoutConfig) (cy : Q) (page col : nat)
    (ls : list DisplayLine) : list DisplayLine :=
  match ls with
  | [] => []
  | dl :: r =>
      if is_page_break dl then
        with_position dl page col (x_position dl) cy
        :: assign_loop config 0 (S page) 0 r
      else
        let h := effective_height config dl in
        let spacing := if is_last_line dl && qlt 0 h then paragraph_spacing config else 0%Q in
        let '(page', col', cy') :=
          if qlt (content_height config) (cy + h)%Q then
            if (1 <? columns config) && (col <? columns config - 1)
            then (page, S col, 0%Q)
            else (S page, 0, 0%Q)
          else (page, col, cy) in
        let xp := (margin_left config
                   + inject_Z (Z.of_nat col') * (column_width config + column_gap config))%Q in
        with_position dl page' col' xp cy'
        :: assign_loop config (cy' + h + spacing)%Q page' col' r
  end.

(** [assign_page_positions]. *)
Definition assign_page_positions (ls : list DisplayLine) (config : LayoutConfig)
  : list DisplayLine :=
  assign_loop config 0 0 0 ls.

(** [compute_layout]; [None] is a panic of the wrapping pass. *)
Definition compute_layout (measure_fn : rstring -> Q -> CallResult)
    (table_layout_fn : Table.DocumentTable -> LayoutConfig -> TableLayout)
    (document : Doc.Document) (config : LayoutConfig) : option (list DisplayLine) :=
  let floats0 := flat_map (fixed_float config) (Doc.images document) in
  match layout_paragraphs measure_fn table_layout_fn document config 0
          (Doc.paragraphs document) [] floats0 [] with
  | Some ls => Some (assign_page_positions ls config)
  | None => None
  end.

(** [DisplayPosition] and [ParagraphPosition]. *)
Record DisplayPosition := mkDisplayPosition { line : nat; col : nat }.
Record ParagraphPosition := mkParagraphPosition { para : nat; offset : nat }.

Fixpoint para_to_display_from (i : nat) (ls : list DisplayLine) (p o : nat)
  : option DisplayPosition :=
  match ls with
  | [] => None
  | dl :: r =>
      if (para_index dl =? p) && (start_offset dl <=? o) && (o <=? end_offset dl)
      then Some (mkDisplayPosition i (o - start_offset dl))
      else para_to_display_from (S i) r p o
  end.

(** [display_lines.last()]. *)
Definition last_line (ls : list DisplayLine) : option DisplayLine :=
  match rev ls with dl :: _ => Some dl | [] => None end.

(** [para_to_display_pos]. *)
Definition para_to_display_pos (ls : list DisplayLine) (p o : nat) : DisplayPosition :=
  match para_to_display_from 0 ls p o with
  | Some d => d
  | None =>
      mkDisplayPosition (length ls - 1)
        (match last_line ls with Some dl => byte_len (text dl) | None => 0 end)
  end.

(** [display_to_para]. *)
Definition display_to_para (ls : list DisplayLine) (ln c : nat) : ParagraphPosition :=
  match nth_error ls ln with
  | Some dl => mkParagraphPosition (para_index dl) (start_offset dl + Nat.min c (byte_len (text dl)))
  | None =>
      match last_line ls with
      | Some l => mkParagraphPosition (para_index l) (end_offset l)
      | None => mkParagraphPosition 0 0
      end
  end.

(** Auxiliary functions for the statements and proofs. *)

(** A line drawn for a page break, an image or a table. *)
Definition is_marker (dl : DisplayLine) : bool :=
  is_page_break dl || is_image dl || is_table dl.

(** [L] covers the byte range [s, e) contiguously: the first line starts at
    [s], each line starts where the previous one ends, the last one ends at
    [e], and exactly the last one is flagged [is_last_line]. *)
Fixpoint covers_range (s e : nat) (L : list DisplayLine) : bool :=
  match L with
  | [] => false
  | [dl] => (start_offset dl =? s) && (end_offset dl =? e) && is_last_line dl
  | dl :: r => (start_offset dl =? s) && negb (is_last_line dl)
               && covers_range (end_offset dl) e r
  end.

(** A line without the fields [assign_page_positions] writes. *)
Definition strip (dl : DisplayLine) : DisplayLine := with_position dl 0 0 0 0.

(** The (page, column) of a placed line. *)
Definition page_col (dl : DisplayLine) : nat * nat := (page_index dl, column_index dl).

(** A text line of paragraph [pidx]: not a marker, and its text is exactly
    its byte range. *)
Definition text_line_ok (pidx : nat) (dl : DisplayLine) : Prop :=
  para_index dl = pidx /\ is_marker dl = false /\
  byte_len (text dl) = end_offset dl - start_offset dl.

(** The lines [L] laid out for paragraph [para] at index [j]: at least one,
    all of paragraph [j]; on the plain-text path text lines covering the
    paragraph's bytes, otherwise marker lines, whose text is empty and which
    start at offset 0. *)
Definition para_lines_ok (document : Doc.Document) (j : nat) (para : Doc.Paragraph)
    (L : list DisplayLine) : Prop :=
  L <> [] /\ Forall (fun dl => para_index dl = j) L /\
  if text_path document para then
    Forall (text_line_ok j) L /\ covers_range 0 (byte_len (Doc.text para)) L = true
  else Forall (fun dl => para_index dl = j /\ is_marker dl = true /\ text dl = [] /\
                         start_offset dl = 0) L.

(** The [i]-th group of [Ls] holds lines of paragraph [n + i]. *)
Definition indexed_from (n : nat) (Ls : list (list DisplayLine)) : Prop :=
  forall i Li, nth_error Ls i = Some Li -> Forall (fun dl => para_index dl = n + i) Li.

(** Lexicographic order on (page, column) pairs. *)
Definition pc_lt (a b : nat * nat) : Prop :=
  fst a < fst b \/ (fst a = fst b /\ snd a < snd b).

(** A placed line ends within the column's content height. *)
Definition fits (config : LayoutConfig) (dl : DisplayLine) : Prop :=
  (y_position dl + effective_height config dl <= content_height config)%Q.

End Layout.

(* ================================================================== *)
(** ** Sample inputs *)

Module Examples.
Import Layout.

(** A measurement callback: 10 px per char, whatever the size. *)
Definition ex_measure (t : rstring) (_ : Q) : CallResult :=
  CallOk (JsNumber (inject_Z (Z.of_nat (length t)) * 10)).

(** A measurement callback whose result is not a number. *)
Definition ex_measure_other (_ : rstring) (_ : Q) : CallResult := CallOk JsOther.

Definition ex_table_layout (_ : Table.DocumentTable) (_ : LayoutConfig) : TableLayout :=
  mkTableLayout [] [] [] 0 0 [].

(** One 60 px column, 1000 px high, 15 px lines. *)
Definition ex_config : LayoutConfig := mkConfig 60 1000 0 0 0 0 1 0 10 (3 # 2) 0 12.

(** One 60 px column, 100 px high, 60 px lines, 50 px paragraph spacing. *)
Definition ex_config_short : LayoutConfig := mkConfig 60 100 0 0 0 0 1 0 40 (3 # 2) 0 50.

Definition ex_para (t : rstring) (lt : Doc.ListType) : Doc.Paragraph :=
  Doc.mkParagraph t (Doc.mkMeta Table.Left Doc.BParagraph lt None None) [].

Definition ex_doc (ps : list Doc.Paragraph) : Doc.Document := Doc.mkDocument 1 ps [] [].

(** "hello world" (wrapped in two lines), a page break, an empty paragraph. *)
Definition ex_doc_mixed : Doc.Document :=
  ex_doc [ex_para [104;101;108;108;111;32;119;111;114;108;100]%Z Doc.LNone;
          ex_para [Doc.PAGE_BREAK] Doc.LNone; ex_para [] Doc.LNone].

(** Numbered "a", bullet "b", numbered "c". *)
Definition ex_doc_lists : Doc.Document :=
  ex_doc [ex_para [97]%Z Doc.Numbered; ex_para [98]%Z Doc.Bullet; ex_para [99]%Z Doc.Numbered].

(** An image marker naming no image of the document. *)
Definition ex_doc_dangling : Doc.Document := ex_doc [ex_para [Doc.IMAGE_MARK; 97]%Z Doc.LNone].

(** A lone page break. *)
Definition ex_doc_break : Doc.Document := ex_doc [ex_para [Doc.PAGE_BREAK] Doc.LNone].

(** A text paragraph followed by a page break. *)
Definition ex_doc_text_break : Doc.Document :=
  ex_doc [ex_para [97]%Z Doc.LNone; ex_para [Doc.PAGE_BREAK] Doc.LNone].

(** Two short text lines of one paragraph. *)
Definition ex_lines : list DisplayLine :=
  [text_line 0 0 1 [97]%Z None false Doc.BParagraph Doc.LNone None;
   text_line 0 1 2 [98]%Z None true Doc.BParagraph Doc.LNone None].

End Examples.

(* ================================================================== *)
(** ** Text utilities (src/engine/src/text.rs) *)

Module Text.
Import RStr.

(** [char_count]: [text.chars().count()]. *)
Definition char_count (text : rstring) : nat := length text.

(** [char_substring]: [text.chars().skip(start).take(end - start)].
    The [usize] subtraction [end - start] underflows when [end < start]
    (a panic with overflow checks); that case is [None]. *)
Definition char_substring (text : rstring) (start end_ : nat) : option rstring :=
  if end_ <? start then None
  else Some (firstn (end_ - start) (skipn start text)).

(** [char_to_byte_index]: the byte offset of the [char_index]-th char, or
    [text.len()] past the end. *)
Definition char_to_byte_index (text : rstring) (char_index : nat) : nat :=
  match nth_error (char_indices text) char_index with
  | Some (i, _) => i
  | None => byte_len text
  end.

(** [byte_to_char_index]: [text[..byte_index.min(text.len())].chars().count()];
    [None] when the slice end is not a char boundary (panic). *)
Definition byte_to_char_index (text : rstring) (byte_index : nat) : option nat :=
  match take_bytes (Nat.min byte_index (byte_len text)) text with
  | Some p => Some (length p)
  | None => None
  end.

(** [char::is_whitespace]: the Unicode White_Space property. *)
Definition is_whitespace (c : Z) : bool :=
  ((9 <=? c) && (c <=? 13))%Z || (c =? 32)%Z || (c =? 133)%Z || (c =? 160)%Z
  || (c =? 5760)%Z || ((8192 <=? c) && (c <=? 8202))%Z
  || (c =? 8232)%Z || (c =? 8233)%Z || (c =? 8239)%Z || (c =? 8287)%Z
  || (c =? 12288)%Z.

(** [char::is_ascii_punctuation]: the ASCII ranges U+0021..U+002F,
    U+003A..U+0040, U+005B..U+0060 and U+007B..U+007E. *)
Definition is_ascii_punctuation (c : Z) : bool :=
  ((33 <=? c) && (c <=? 47))%Z || ((58 <=? c) && (c <=? 64))%Z
  || ((91 <=? c) && (c <=? 96))%Z || ((123 <=? c) && (c <=? 126))%Z.

(** [is_word_boundary]. *)
Definition is_word_boundary (c : Z) : bool :=
  is_whitespace c || is_ascii_punctuation c.

(** The first loop of [next_word_boundary], run over [chars[pos..]]:
    [while pos < len && !is_word_boundary(chars[pos]) { pos += 1 }]. *)
Fixpoint skip_word (cs : list Z) (pos : nat) : nat :=
  match cs with
  | [] => pos
  | c :: r => if negb (is_word_boundary c) then skip_word r (S pos) else pos
  end.

(** The second loop: [while pos < len && chars[pos].is_whitespace() { pos += 1 }]. *)
Fixpoint skip_space (cs : list Z) (pos : nat) : nat :=
  match cs with
  | [] => pos
  | c :: r => if is_whitespace c then skip_space r (S pos) else pos
  end.

(** [next_word_boundary]. *)
Definition next_word_boundary (text : rstring) (from_char : nat) : nat :=
  let len := length text in
  if len <=? from_char then len
  else
    let pos := skip_word (skipn from_char text) from_char in
    skip_space (skipn pos text) pos.

(** The first loop of [prev_word_boundary]:
    [while pos > 0 && chars[pos].is_whitespace() { pos -= 1 }];
    [None] when [chars[pos]] is out of bounds (panic). *)
Fixpoint back_space (chars : list Z) (pos : nat) : option nat :=
  match pos with
  | 0 => Some 0
  | S p =>
      match nth_error chars pos with
      | None => None
      | Some c => if is_whitespace c then back_space chars p else Some pos
      end
  end.

(** The second loop: [while pos > 0 && !is_word_boundary(chars[pos - 1]) { pos -= 1 }]. *)
Fixpoint back_word (chars : list Z) (pos : nat) : option nat :=
  match pos with
  | 0 => Some 0
  | S p =>
      match nth_error chars p with
      | None => None
      | Some c => if negb (is_word_boundary c) then back_word chars p else Some pos
      end
  end.

(** [prev_word_boundary]; [None] stands for the index panic. *)
Definition prev_word_boundary (text : rstring) (from_char : nat) : option nat :=
  match from_char with
  | 0 => Some 0
  | S p =>
      match back_space text p with
      | Some pos => back_word text pos
      | None => None
      end
  end.

End Text.

(* ================================================================== *)
(** ** The editor engine (src/engine/src/lib.rs) *)

Module Lib.
Import RStr Style Layout.

(** [ParagraphMeta::default]. *)
Definition ParagraphMeta_default : Doc.ParagraphMeta :=
  Doc.mkMeta Table.Left Doc.BParagraph Doc.LNone None None.

(** [Paragraph::new]. *)
Definition Paragraph_new (text : rstring) : Doc.Paragraph :=
  Doc.mkParagraph text ParagraphMeta_default [].

(** [Paragraph::style_at]. *)
Definition style_at (p : Doc.Paragraph) (pos : nat) : option TextStyle :=
  find (covers_pos pos) (Doc.styles p).

(** [Paragraph::styles_in_range]. *)
Definition styles_in_range (p : Doc.Paragraph) (s e : nat) : list TextStyle :=
  filter (fun st => overlaps st s e) (Doc.styles p).

(** [Paragraph::apply_style]. *)
Definition Paragraph_apply_style (p : Doc.Paragraph) (s e : nat) (m : Modifier)
  : Doc.Paragraph :=
  Doc.mkParagraph (Doc.text p) (Doc.meta p) (apply_style (Doc.styles p) s e m).

(** The closures passed to [apply_style] by the toggles and colour setters:
    [style.bold = v], [style.italic = v], ... *)
Definition with_bold (v : bool) : Modifier := fun f =>
  mkAttrs v (italic f) (underline f) (strikethrough f) (color f) (background f).
Definition with_italic (v : bool) : Modifier := fun f =>
  mkAttrs (bold f) v (underline f) (strikethrough f) (color f) (background f).
Definition with_underline (v : bool) : Modifier := fun f =>
  mkAttrs (bold f) (italic f) v (strikethrough f) (color f) (background f).
Definition with_strikethrough (v : bool) : Modifier := fun f =>
  mkAttrs (bold f) (italic f) (underline f) v (color f) (background f).
Definition with_color (v : option rstring) : Modifier := fun f =>
  mkAttrs (bold f) (italic f) (underline f) (strikethrough f) v (background f).
Definition with_background (v : option rstring) : Modifier := fun f =>
  mkAttrs (bold f) (italic f) (underline f) (strikethrough f) (color f) v.

Record Engine := mkEngine {
  document : Doc.Document;
  layout_config : LayoutConfig;
  display_lines : list DisplayLine;
  dirty : bool
}.

Definition paragraphs (e : Engine) : list Doc.Paragraph := Doc.paragraphs (document e).

(** The engine with the paragraph vector replaced and [self.dirty = true]. *)
Definition with_paragraphs (e : Engine) (ps : list Doc.Paragraph) : Engine :=
  mkEngine (Doc.mkDocument (Doc.version (document e)) ps (Doc.images (document e))
                           (Doc.tables (document e)))
           (layout_config e) (display_lines e) true.

(** [Engine::paragraph_count]. *)
Definition paragraph_count (e : Engine) : nat := length (paragraphs e).

(** [Engine::get_paragraph]. *)
Definition get_paragraph (e : Engine) (index : nat) : option rstring :=
  option_map Doc.text (nth_error (paragraphs e) index).

(** [Engine::set_paragraph]. *)
Definition set_paragraph (e : Engine) (index : nat) (text : rstring) : Engine :=
  match nth_error (paragraphs e) index with
  | Some _ =>
      with_paragraphs e
        (Table.update_nth index (fun p => Doc.mkParagraph text (Doc.meta p) (Doc.styles p))
                          (paragraphs e))
  | None => e
  end.

(** [Engine::insert_paragraph]: push when [index >= len], else insert. *)
Definition insert_paragraph (e : Engine) (index : nat) (text : rstring) : Engine :=
  let para := Paragraph_new text in
  let ps := paragraphs e in
  with_paragraphs e
    (if length ps <=? index then ps ++ [para]
     else firstn index ps ++ para :: skipn index ps).

(** [Engine::delete_paragraph]. *)
Definition delete_paragraph (e : Engine) (index : nat) : Engine :=
  if index <? length (paragraphs e) then with_paragraphs e (Table.vec_remove index (paragraphs e))
  else e.

(** [Engine::recompute_layout]: the returned flag and the new engine;
    [None] when [compute_layout] panics. *)
Definition recompute_layout (measure_fn : rstring -> Q -> CallResult)
    (table_layout_fn : Table.DocumentTable -> LayoutConfig -> TableLayout) (e : Engine)
  : option (bool * Engine) :=
  if negb (dirty e) then Some (false, e)
  else match compute_layout measure_fn table_layout_fn (document e) (layout_config e) with
       | Some dls => Some (true, mkEngine (document e) (layout_config e) dls false)
       | None => None
       end.

(** [Engine::page_count]: one more than the largest page index, 1 without
    lines. *)
Definition page_count (e : Engine) : nat :=
  match map page_index (display_lines e) with
  | [] => 1
  | p :: r => S (fold_left Nat.max r p)
  end.

(** The common shape of the four toggles: when the paragraph exists,
    [is_set] is whether every style overlapping the range has the flag,
    and the range gets the flag [!is_set]. *)
Definition toggle_with (get : Attrs -> bool) (set : bool -> Modifier)
    (e : Engine) (para_index start end_ : nat) : Engine :=
  match nth_error (paragraphs e) para_index with
  | Some para =>
      let is_set := forallb (fun st => get (attrs st)) (styles_in_range para start end_) in
      with_paragraphs e
        (Table.update_nth para_index
           (fun p => Paragraph_apply_style p start end_ (set (negb is_set))) (paragraphs e))
  | None => e
  end.

(** [Engine::toggle_bold], [toggle_italic], [toggle_underline],
    [toggle_strikethrough]. *)
Definition toggle_bold := toggle_with bold with_bold.
Definition toggle_italic := toggle_with italic with_italic.
Definition toggle_underline := toggle_with underline with_underline.
Definition toggle_strikethrough := toggle_with strikethrough with_strikethrough.

(** The colour setters: an empty string clears the field. *)
Definition color_setter (set : option rstring -> Modifier)
    (e : Engine) (para_index start end_ : nat) (c : rstring) : Engine :=
  match nth_error (paragraphs e) para_index with
  | Some _ =>
      let color_opt := if is_empty c then None else Some c in
      with_paragraphs e
        (Table.update_nth para_index
           (fun p => Paragraph_apply_style p start end_ (set color_opt)) (paragraphs e))
  | None => e
  end.

(** [Engine::set_text_color] and [Engine::set_highlight_color]. *)
Definition set_text_color := color_setter with_color.
Definition set_highlight_color := color_setter with_background.

(** [Engine::delete_image]: drop the image and every paragraph showing it. *)
Definition delete_image (e : Engine) (iid : rstring) : Engine :=
  let d := document e in
  mkEngine
    (Doc.mkDocument (Doc.version d)
       (filter (fun p => match Doc.image_id p with
                         | Some img_id => negb (rstring_eqb img_id iid)
                         | None => true
                         end) (Doc.paragraphs d))
       (filter (fun img => negb (rstring_eqb (Doc.id img) iid)) (Doc.images d))
       (Doc.tables d))
    (layout_config e) (display_lines e) true.

(** [Engine::delete_table]. *)
Definition delete_table (e : Engine) (tid : rstring) : Engine :=
  let d := document e in
  mkEngine
    (Doc.mkDocument (Doc.version d)
       (filter (fun p => match Doc.table_id p with
                         | Some table_id => negb (rstring_eqb table_id tid)
                         | None => true
                         end) (Doc.paragraphs d))
       (Doc.images d)
       (filter (fun t => negb (rstring_eqb (Table.id t) tid)) (Doc.tables d)))
    (layout_config e) (display_lines e) true.

(** The formatting in force at [pos]: that of [style_at], or the defaults
    of [TextStyle::new] where no style covers it. *)
Definition format_at (p : Doc.Paragraph) (pos : nat) : Attrs :=
  match style_at p pos with Some st => attrs st | None => default_attrs end.

(** [e'] is [e] with the range [start, end_) of paragraph [para_index]
    reformatted by [m para]: the text is kept and the formatting in force
    at every position of the range is passed through [m para]. *)
Definition restyled (e e' : Engine) (para_index start end_ : nat)
    (m : Doc.Paragraph -> Modifier) : Prop :=
  forall para, nth_error (paragraphs e) para_index = Some para ->
    sorted_disjoint (Doc.styles para) = true -> all_nonempty (Doc.styles para) = true ->
    exists para', nth_error (paragraphs e') para_index = Some para' /\
      Doc.text para' = Doc.text para /\
      forall q, format_at para' q =
                if (start <=? q) && (q <? end_) then m para (format_at para q)
                else format_at para q.

End Lib.

(* ================================================================== *)
(** ** Rendering helpers ([render.rs]) and the page lookup *)

Module Render.
Import Layout.

(** [layout::get_page_for_position]. *)
Definition get_page_for_position (display_lines : list DisplayLine) (p o : nat) : nat :=
  let pos := para_to_display_pos display_lines p o in
  match nth_error display_lines (line pos) with
  | Some dl => page_index dl
  | None => 0
  end.

(** [Engine::get_page_for_position]. *)
Definition engine_get_page_for_position (e : Lib.Engine) (para_index char_offset : nat) : nat :=
  get_page_for_position (Lib.display_lines e) para_index char_offset.

(** [StyledSegment]. *)
Record StyledSegment := mkSegment {
  text : rstring;
  bold : bool;
  italic : bool;
  underline : bool;
  strikethrough : bool;
  color : rstring;
  background : option rstring
}.

(** The boundaries the loop over [styles] pushes, in push order. *)
Fixpoint style_boundaries (line_start line_end : nat) (styles : list Style.TextStyle)
  : list nat :=
  match styles with
  | [] => []
  | st :: r =>
      (if (line_start <? Style.start st) && (Style.start st <? line_end)
       then [Style.start st] else [])
      ++ (if (line_start <? Style.end_ st) && (Style.end_ st <? line_end)
          then [Style.end_ st] else [])
      ++ style_boundaries line_start line_end r
  end.

(** [Vec::dedup]: drop consecutive repeats. *)
Fixpoint dedup (l : list nat) : list nat :=
  match l with
  | x :: ((y :: _) as r) => if x =? y then dedup r else x :: dedup r
  | _ => l
  end.

(** The pairs [(boundaries[i], boundaries[i + 1])] for
    [i in 0..boundaries.len() - 1]. *)
Fixpoint pairs (l : list nat) : list (nat * nat) :=
  match l with
  | a :: ((b :: _) as r) => (a, b) :: pairs r
  | _ => []
  end.

(** The flags and colours of the styles covering [seg_start, seg_end):
    the flags are or-ed, the first colour and background set win. *)
Definition merge_step (seg_start seg_end : nat) (acc : Style.Attrs) (st : Style.TextStyle)
  : Style.Attrs :=
  if (Style.start st <=? seg_start) && (seg_end <=? Style.end_ st) then
    let a := Style.attrs st in
    Style.mkAttrs (Style.bold acc || Style.bold a) (Style.italic acc || Style.italic a)
      (Style.underline acc || Style.underline a)
      (Style.strikethrough acc || Style.strikethrough a)
      (match Style.color acc with None => Style.color a | Some c => Some c end)
      (match Style.background acc with None => Style.background a | Some c => Some c end)
  else acc.

Definition merged_attrs (seg_start seg_end : nat) (styles : list Style.TextStyle) : Style.Attrs :=
  fold_left (merge_step seg_start seg_end) styles Style.default_attrs.

(** One iteration of the segment loop: [None] when it panics (a
    subtraction below zero or a slice off a char boundary), [Some None]
    on [continue], [Some (Some seg)] when it pushes [seg]. *)
Definition segment_of (line_text : rstring) (line_start : nat) (styles : list Style.TextStyle)
    (default_color : rstring) (bounds : nat * nat) : option (option StyledSegment) :=
  let (seg_start, seg_end) := bounds in
  if (seg_start <? line_start) || (seg_end <? line_start) then None
  else
    let text_start := seg_start - line_start in
    let text_end := seg_end - line_start in
    if byte_len line_text <=? text_start then Some None
    else match slice text_start (Nat.min text_end (byte_len line_text)) line_text with
         | None => None
         | Some t =>
             if is_empty t then Some None
             else
               let f := merged_attrs seg_start seg_end styles in
               Some (Some (mkSegment t (Style.bold f) (Style.italic f) (Style.underline f)
                             (Style.strikethrough f)
                             (match Style.color f with Some c => c | None => default_color end)
                             (Style.background f)))
         end.

Fixpoint segments_loop (line_text : rstring) (line_start : nat)
    (styles : list Style.TextStyle) (default_color : rstring) (ps : list (nat * nat))
  : option (list StyledSegment) :=
  match ps with
  | [] => Some []
  | b :: r =>
      match segment_of line_text line_start styles default_color b with
      | None => None
      | Some o =>
          match segments_loop line_text line_start styles default_color r with
          | None => None
          | Some segs => Some (match o with Some s => s :: segs | None => segs end)
          end
      end
  end.

(** [get_styled_segments] ([_block_type] is unused by the source and
    left out); [None] when it panics. *)
Definition get_styled_segments (line_text : rstring) (line_start line_end : nat)
    (styles : list Style.TextStyle) (default_color : rstring) : option (list StyledSegment) :=
  if is_empty line_text then Some []
  else
    let boundaries :=
      dedup (Style.sort_by_key (fun n => n)
               ([line_start; line_end] ++ style_boundaries line_start line_end styles)) in
    match segments_loop line_text line_start styles default_color (pairs boundaries) with
    | None => None
    | Some [] =>
        Some [mkSegment line_text false false false false default_color None]
    | Some segs => Some segs
    end.

End Render.

(* ================================================================== *)
(** ** Further examples *)

Module Examples2.
Import Table.

(** A two-row, one-column table whose two cells are merged. *)
Definition ex_merged : DocumentTable :=
  snd (merge_cells (DocumentTable_new [] 2 1) 0 0 1 0).

(** An engine holding the unstyled paragraph "ab", laid out. *)
Definition ex_engine : Lib.Engine :=
  Lib.mkEngine (Examples.ex_doc [Examples.ex_para [97; 98]%Z Doc.LNone]) Examples.ex_config [] false.

End Examples2.

(* ================================================================== *)
(** * Proofs *)

Module StyleFacts.
Import Style.

Ltac cmp_goal :=
  match goal with
  | |- context [?a <? ?b] => destruct (Nat.ltb_spec a b)
  | |- context [?a <=? ?b] => destruct (Nat.leb_spec a b)
  | |- context [?a =? ?b] => destruct (Nat.eqb_spec a b)
  end.

Ltac cmp :=
  repeat match goal with
  | |- context [?a <? ?b] => destruct (Nat.ltb_spec a b)
  | |- context [?a <=? ?b] => destruct (Nat.leb_spec a b)
  | |- context [?a =? ?b] => destruct (Nat.eqb_spec a b)
  | H : context [?a <? ?b] |- _ => destruct (Nat.ltb_spec a b)
  | H : context [?a <=? ?b] |- _ => destruct (Nat.leb_spec a b)
  | H : context [?a =? ?b] |- _ => destruct (Nat.eqb_spec a b)
  end; simpl in *; repeat (cmp_goal; simpl in * );
  try reflexivity; try discriminate; try (exfalso; lia); try lia.

(** *** Equality tests *)

Lemma rstring_eqb_eq a b : rstring_eqb a b = true <-> a = b.
Proof.
  unfold rstring_eqb; destruct (list_eq_dec Z.eq_dec a b); split; congruence.
Qed.

Lemma opt_str_eqb_eq a b : opt_str_eqb a b = true <-> a = b.
Proof.
  destruct a as [x|], b as [y|]; simpl; try (split; congruence).
  rewrite rstring_eqb_eq; split; congruence.
Qed.

Lemma attrs_eqb_eq f g : attrs_eqb f g = true <-> f = g.
Proof.
  destruct f, g; unfold attrs_eqb; simpl.
  rewrite !andb_true_iff, !opt_str_eqb_eq.
  split.
  - intros [[[[[H1 H2] H3] H4] H5] H6].
    apply Bool.eqb_prop in H1, H2, H3, H4; subst; reflexivity.
  - intros H; injection H; intros; subst; rewrite !eqb_reflx; tauto.
Qed.

(** *** The stable sort *)

Lemma insert_by_perm {A} (k : A -> nat) x l : Permutation (insert_by k x l) (x :: l).
Proof.
  induction l as [|y r IH]; simpl; [reflexivity|].
  destruct (k x <? k y); [reflexivity|].
  rewrite IH; apply perm_swap.
Qed.

Lemma insert_by_sorted {A} (k : A -> nat) x l :
  sorted_by k l = true -> sorted_by k (insert_by k x l) = true.
Proof.
  induction l as [|y r IH]; simpl; [reflexivity|].
  intros H. destruct (Nat.ltb_spec (k x) (k y)).
  - simpl. rewrite H. cmp.
  - destruct r as [|z r'].
    + simpl. cmp.
    + apply andb_true_iff in H as [H1 H2].
      specialize (IH H2). simpl in IH |- *.
      destruct (Nat.ltb_spec (k x) (k z)); simpl in *.
      * cmp; rewrite IH; reflexivity.
      * rewrite H1; exact IH.
Qed.

Lemma sort_by_key_perm {A} (k : A -> nat) l : Permutation (sort_by_key k l) l.
Proof.
  unfold sort_by_key.
  assert (G : forall acc, Permutation (fold_left (fun acc x => insert_by k x acc) l acc) (l ++ acc)).
  { induction l as [|x r IH]; intros acc; simpl; [reflexivity|].
    rewrite IH, insert_by_perm. symmetry; apply Permutation_middle. }
  rewrite G, app_nil_r; reflexivity.
Qed.

Lemma sort_by_key_sorted {A} (k : A -> nat) l : sorted_by k (sort_by_key k l) = true.
Proof.
  unfold sort_by_key.
  assert (G : forall acc, sorted_by k acc = true ->
            sorted_by k (fold_left (fun acc x => insert_by k x acc) l acc) = true).
  { induction l as [|x r IH]; intros acc Hacc; simpl; [exact Hacc|].
    apply IH, insert_by_sorted, Hacc. }
  apply G; reflexivity.
Qed.

Lemma insert_by_last {A} (k : A -> nat) x acc :
  (forall y, In y acc -> k y <= k x) -> insert_by k x acc = acc ++ [x].
Proof.
  induction acc as [|y r IH]; simpl; intros H; [reflexivity|].
  destruct (Nat.ltb_spec (k x) (k y)).
  - specialize (H y (or_introl eq_refl)); lia.
  - rewrite IH; auto.
Qed.

Lemma Permutation_filter_bool {A} (f : A -> bool) l l' :
  Permutation l l' -> Permutation (filter f l) (filter f l').
Proof.
  induction 1; simpl; try reflexivity.
  - destruct (f x); auto.
  - destruct (f x), (f y); try reflexivity; apply perm_swap.
  - etransitivity; eauto.
Qed.

Lemma Permutation_short_eq {A} (l l' : list A) :
  Permutation l l' -> length l <= 1 -> l = l'.
Proof.
  intros HP Hl.
  destruct l as [|a [|b r]]; simpl in Hl; try lia.
  - symmetry; apply Permutation_nil, HP.
  - pose proof (Permutation_length HP) as HL.
    destruct l' as [|a' [|b' r']]; simpl in HL; try lia.
    f_equal; apply Permutation_length_1, HP.
Qed.

End StyleFacts.

Module StyleFacts2.
Import Style StyleFacts.

Lemma attrs_at_cons q x l :
  attrs_at (x :: l) q = (if covers_pos q x then [attrs x] else []) ++ attrs_at l q.
Proof. unfold attrs_at; simpl; destruct (covers_pos q x); reflexivity. Qed.

Lemma attrs_at_app q l1 l2 : attrs_at (l1 ++ l2) q = attrs_at l1 q ++ attrs_at l2 q.
Proof. unfold attrs_at; rewrite filter_app, map_app; reflexivity. Qed.

Lemma attrs_at_flat_map q (f : TextStyle -> list TextStyle) l :
  attrs_at (flat_map f l) q = flat_map (fun st => attrs_at (f st) q) l.
Proof.
  induction l as [|x r IH]; simpl; [reflexivity|].
  rewrite attrs_at_app, IH; reflexivity.
Qed.

Lemma attrs_at_nil_below q l :
  (forall y, In y l -> q < start y) -> attrs_at l q = [].
Proof.
  induction l as [|y r IH]; intros H; [reflexivity|].
  rewrite attrs_at_cons, IH by (intros; apply H; simpl; auto).
  unfold covers_pos. pose proof (H y (or_introl eq_refl)). cmp.
Qed.

Lemma sd_tail x r : sorted_disjoint (x :: r) = true -> sorted_disjoint r = true.
Proof. destruct r; simpl; [reflexivity|]. intros H; apply andb_true_iff in H; tauto. Qed.

Lemma ne_tail x r : all_nonempty (x :: r) = true -> all_nonempty r = true.
Proof. unfold all_nonempty; simpl; intros H; apply andb_true_iff in H; tauto. Qed.

Lemma ne_head x r : all_nonempty (x :: r) = true -> start x < end_ x.
Proof. unfold all_nonempty; simpl; intros H; apply andb_true_iff in H as [H _]. cmp. Qed.

Lemma sd_all x r :
  sorted_disjoint (x :: r) = true -> all_nonempty (x :: r) = true ->
  forall y, In y r -> end_ x <= start y.
Proof.
  revert x; induction r as [|z r IH]; intros x Hs Hn y Hy; [destruct Hy|].
  simpl in Hs; apply andb_true_iff in Hs as [Hxz Hs].
  destruct Hy as [<-|Hy]; [cmp|].
  pose proof (IH z Hs (ne_tail _ _ Hn) y Hy).
  pose proof (ne_head _ _ (ne_tail _ _ Hn)). cmp.
Qed.

Lemma attrs_at_len q l :
  sorted_disjoint l = true -> all_nonempty l = true -> length (attrs_at l q) <= 1.
Proof.
  induction l as [|x r IH]; intros Hs Hn; [simpl; lia|].
  rewrite attrs_at_cons.
  destruct (covers_pos q x) eqn:Hc.
  - rewrite attrs_at_nil_below; [simpl; lia|].
    intros y Hy. pose proof (sd_all x r Hs Hn y Hy).
    unfold covers_pos in Hc; cmp; discriminate.
  - apply IH; [eapply sd_tail|eapply ne_tail]; eauto.
Qed.

End StyleFacts2.


Module StyleFacts3.
Import Style StyleFacts StyleFacts2.

Ltac mm :=
  repeat match goal with
  | |- context [Nat.max ?a ?b] =>
      destruct (Nat.max_spec a b) as [[? Hm]|[? Hm]]; rewrite Hm in *; clear Hm
  | |- context [Nat.min ?a ?b] =>
      destruct (Nat.min_spec a b) as [[? Hm]|[? Hm]]; rewrite Hm in *; clear Hm
  end.

Lemma split_attrs_at s e m st q :
  s < e ->
  attrs_at (split_style s e m st) q =
  if covers_pos q st then
    (if (s <=? q) && (q <? e) then
       (if has_formatting_attrs (m (attrs st)) then [m (attrs st)] else [])
     else [attrs st])
  else [].
Proof.
  intros Hse; unfold split_style, overlaps, has_formatting, modify, set_range.
  destruct (has_formatting_attrs (m (attrs st))) eqn:Hf;
  unfold attrs_at, covers_pos; mm; cmp; rewrite ?Hf; cmp.
Qed.
(** *** The covered ranges *)

Lemma filter_split s e m st :
  s < e ->
  filter (fun x => overlaps x s e) (split_style s e m st) =
  if overlaps st s e && has_formatting_attrs (m (attrs st))
  then [modify m (set_range st (Nat.max (start st) s) (Nat.min (end_ st) e))] else [].
Proof.
  intros Hse; unfold split_style.
  destruct (overlaps st s e) eqn:Ho; simpl.
  - unfold has_formatting, modify, set_range; simpl.
    destruct (has_formatting_attrs (m (attrs st))) eqn:Hf; unfold overlaps in *; mm; cmp.
  - rewrite Ho; reflexivity.
Qed.

Lemma cov_eq s e m l :
  s < e ->
  map (fun st => (Nat.max (start st) s, Nat.min (end_ st) e))
      (filter (fun st => overlaps st s e) (flat_map (split_style s e m) l))
  = map (clip s e)
      (filter (fun st => overlaps st s e && has_formatting_attrs (m (attrs st))) l).
Proof.
  intros Hse; induction l as [|x r IH]; simpl; [reflexivity|].
  rewrite filter_app, map_app, filter_split by exact Hse.
  destruct (overlaps x s e && has_formatting_attrs (m (attrs x))); simpl; rewrite IH;
    [|reflexivity].
  unfold clip; simpl; f_equal; f_equal; lia.
Qed.

Lemma chain_cov s e m l p :
  s < e -> sorted_disjoint l = true -> all_nonempty l = true -> p <= e ->
  (forall st, In st l -> overlaps st s e = true -> p <= Nat.max (start st) s) ->
  chain e p (map (clip s e)
    (filter (fun st => overlaps st s e && has_formatting_attrs (m (attrs st))) l)).
Proof.
  revert p; induction l as [|x r IH]; intros p Hse Hs Hn Hp H; simpl; [lia|].
  destruct (overlaps x s e && has_formatting_attrs (m (attrs x))) eqn:Hx; simpl.
  - apply andb_true_iff in Hx as [Ho _].
    split; [apply H; simpl; auto|].
    split; [pose proof (ne_head _ _ Hn); unfold overlaps in Ho;
            apply andb_true_iff in Ho as [H1 H2]; cmp|].
    apply IH; [lia|eapply sd_tail; eauto|eapply ne_tail; eauto|lia|].
    intros st Hst Hov. pose proof (sd_all x r Hs Hn st Hst). lia.
  - apply IH; [lia|eapply sd_tail; eauto|eapply ne_tail; eauto|lia|].
    intros st Hst Hov; apply H; simpl; auto.
Qed.

Lemma sort_chain e p cov acc :
  chain e p cov -> (forall y, In y acc -> fst y <= p) ->
  fold_left (fun acc x => insert_by fst x acc) cov acc = acc ++ cov.
Proof.
  revert p acc; induction cov as [|[x y] r IH]; intros p acc Hc Ha; simpl.
  - rewrite app_nil_r; reflexivity.
  - simpl in Hc; destruct Hc as (H1 & H2 & H3).
    rewrite insert_by_last by (intros z Hz; simpl; pose proof (Ha z Hz); lia).
    rewrite (IH y); [rewrite <- app_assoc; reflexivity|exact H3|].
    intros z Hz; apply in_app_or in Hz as [Hz|[<-|[]]]; simpl;
      [pose proof (Ha z Hz); lia|lia].
Qed.

Lemma sort_chain0 e p cov : chain e p cov -> sort_by_key fst cov = cov.
Proof. intros H; unfold sort_by_key; apply (sort_chain e p cov []); [exact H|intros _ []]. Qed.

Lemma chain_below e p cov q : chain e p cov -> q < p -> in_cov q cov = false.
Proof.
  revert p; induction cov as [|[x y] r IH]; intros p Hc Hq; simpl; [reflexivity|].
  simpl in Hc; destruct Hc as (H1 & H2 & H3).
  rewrite (IH y H3) by lia. cmp.
Qed.

Lemma in_cov_eq s e m l q :
  s <= q -> q < e ->
  in_cov q (map (clip s e)
    (filter (fun st => overlaps st s e && has_formatting_attrs (m (attrs st))) l))
  = existsb (fun st => covers_pos q st && has_formatting_attrs (m (attrs st))) l.
Proof.
  intros H1 H2; induction l as [|x r IH]; simpl; [reflexivity|].
  destruct (overlaps x s e) eqn:Ho.
  - destruct (has_formatting_attrs (m (attrs x))); rewrite ?andb_true_r, ?andb_false_r;
      simpl; [|exact IH].
    unfold in_cov in *; simpl; rewrite IH; f_equal.
    unfold clip, covers_pos, overlaps in *; simpl; apply andb_true_iff in Ho as [? ?]; cmp.
  - assert (Hc : covers_pos q x = false) by (unfold covers_pos, overlaps in *; cmp).
    rewrite Hc; simpl; exact IH.
Qed.

(** *** The gap loop *)

#[local] Arguments in_cov : simpl never.

Lemma in_cov_cons q x y r :
  in_cov q ((x, y) :: r) = ((x <=? q) && (q <? y)) || in_cov q r.
Proof. reflexivity. Qed.

Lemma gap_style_attrs m a b q :
  attrs_at (gap_style m a b) q =
  if has_formatting_attrs (m default_attrs) && (a <=? q) && (q <? b)
  then [m default_attrs] else [].
Proof.
  unfold gap_style, has_formatting, modify, TextStyle_new; simpl.
  destruct (has_formatting_attrs (m default_attrs)); unfold attrs_at, covers_pos; cmp.
Qed.

Lemma gap_style_ok m a b :
  a < b -> all_nonempty (gap_style m a b) = true /\ all_formatted (gap_style m a b) = true.
Proof.
  intros H; unfold gap_style, has_formatting, modify, TextStyle_new; simpl.
  destruct (has_formatting_attrs (m default_attrs)) eqn:Hf;
    unfold all_nonempty, all_formatted, has_formatting; simpl; rewrite ?Hf; cmp.
Qed.

Lemma ne_app l1 l2 : all_nonempty (l1 ++ l2) = all_nonempty l1 && all_nonempty l2.
Proof. unfold all_nonempty; apply forallb_app. Qed.

Lemma fm_app l1 l2 : all_formatted (l1 ++ l2) = all_formatted l1 && all_formatted l2.
Proof. unfold all_formatted; apply forallb_app. Qed.

Lemma gap_loop_spec m e cov pos :
  chain e pos cov ->
  pos <= fst (gap_loop m pos cov) <= e /\
  (forall q, fst (gap_loop m pos cov) <= q -> in_cov q cov = false) /\
  (forall q, attrs_at (snd (gap_loop m pos cov)) q =
     if has_formatting_attrs (m default_attrs) && (pos <=? q)
        && (q <? fst (gap_loop m pos cov)) && negb (in_cov q cov)
     then [m default_attrs] else []) /\
  all_nonempty (snd (gap_loop m pos cov)) = true /\
  all_formatted (snd (gap_loop m pos cov)) = true.
Proof.
  revert pos; induction cov as [|[x y] rest IH]; intros pos Hc; simpl.
  - simpl in Hc. split; [lia|]. split; [reflexivity|]. split; [|split; reflexivity].
    intros q; unfold attrs_at; simpl; destruct (has_formatting_attrs (m default_attrs)); cmp.
  - simpl in Hc; destruct Hc as (H1 & H2 & H3).
    specialize (IH y H3). destruct (gap_loop m y rest) as [p' more] eqn:G.
    simpl in IH |- *. destruct IH as (I1 & I2 & I3 & I4 & I5).
    split; [lia|]. split.
    + intros q Hq; rewrite in_cov_cons, I2 by lia; cmp.
    + split; [intros q|].
      * rewrite attrs_at_app, I3, in_cov_cons.
        destruct (Nat.ltb_spec q y) as [Hqy|Hqy];
          [rewrite (chain_below e y rest q H3 Hqy)|destruct (in_cov q rest)];
        (destruct (Nat.ltb_spec pos x); [rewrite gap_style_attrs|unfold attrs_at at 1; simpl]);
        destruct (has_formatting_attrs (m default_attrs)); cmp.
      * rewrite ne_app, fm_app, I4, I5.
        destruct (Nat.ltb_spec pos x) as [Hpx|Hpx];
          [destruct (gap_style_ok m pos x Hpx) as [-> ->]|]; split; reflexivity.
Qed.

(** *** The styles before sorting and merging *)

Lemma attrs_at_flat q l :
  attrs_at l q = flat_map (fun st => if covers_pos q st then [attrs st] else []) l.
Proof.
  induction l as [|x r IH]; [reflexivity|].
  rewrite attrs_at_cons, IH; reflexivity.
Qed.

Lemma none_cover {B} q (F : TextStyle -> list B) (g : TextStyle -> bool) r :
  (forall y, In y r -> covers_pos q y = false) ->
  flat_map (fun st => if covers_pos q st then F st else []) r = [] /\
  existsb (fun st => covers_pos q st && g st) r = false /\ attrs_at r q = [].
Proof.
  induction r as [|x r IH]; intros H; [repeat split|].
  rewrite attrs_at_cons; simpl; rewrite (H x (or_introl eq_refl)).
  apply IH; intros y Hy; apply H; simpl; auto.
Qed.

Lemma inside_attrs m q l :
  sorted_disjoint l = true -> all_nonempty l = true ->
  flat_map (fun st => if covers_pos q st then
               (if has_formatting_attrs (m (attrs st)) then [m (attrs st)] else [])
             else []) l
  ++ (if has_formatting_attrs (m default_attrs)
         && negb (existsb (fun st => covers_pos q st && has_formatting_attrs (m (attrs st))) l)
      then [m default_attrs] else [])
  = apply_at m (attrs_at l q).
Proof.
  induction l as [|x r IH]; intros Hs Hn;
    [unfold attrs_at, apply_at; simpl; destruct (has_formatting_attrs (m default_attrs));
     reflexivity|].
  rewrite attrs_at_cons; simpl.
  destruct (covers_pos q x) eqn:Hc.
  - destruct (none_cover q (fun st => if has_formatting_attrs (m (attrs st))
                                      then [m (attrs st)] else [])
                (fun st => has_formatting_attrs (m (attrs st))) r) as (E1 & E2 & E3).
    { intros y Hy; pose proof (sd_all x r Hs Hn y Hy).
      unfold covers_pos in *; cmp; discriminate. }
    rewrite E1, E2, E3; simpl.
    destruct (has_formatting_attrs (m (attrs x))), (has_formatting_attrs (m default_attrs));
      reflexivity.
  - simpl; apply IH; [eapply sd_tail|eapply ne_tail]; eauto.
Qed.

Lemma ne_flat_split s e m l :
  s < e -> all_nonempty l = true -> all_nonempty (flat_map (split_style s e m) l) = true.
Proof.
  intros Hse; induction l as [|st r IH]; intros Hn; [reflexivity|].
  simpl; rewrite ne_app, IH by (eapply ne_tail; eauto).
  pose proof (ne_head _ _ Hn).
  unfold split_style, all_nonempty, overlaps, has_formatting, modify, set_range; simpl.
  destruct (has_formatting_attrs (m (attrs st))); mm; cmp.
Qed.

Lemma fm_flat_split s e m l :
  all_formatted l = true -> all_formatted (flat_map (split_style s e m) l) = true.
Proof.
  induction l as [|st r IH]; intros Hf; [reflexivity|].
  simpl in Hf |- *; apply andb_true_iff in Hf as [H1 H2].
  rewrite fm_app, IH by exact H2.
  unfold split_style, all_formatted, has_formatting, modify, set_range in *; simpl.
  destruct (overlaps st s e), (start st <? s), (e <? end_ st),
    (has_formatting_attrs (m (attrs st))) eqn:E; simpl; rewrite ?H1, ?E; reflexivity.
Qed.

Lemma pieces_spec l s e m pos gaps :
  s < e -> sorted_disjoint l = true -> all_nonempty l = true ->
  gap_loop m s (map (clip s e)
    (filter (fun st => overlaps st s e && has_formatting_attrs (m (attrs st))) l))
    = (pos, gaps) ->
  (forall q, attrs_at (flat_map (split_style s e m) l ++ gaps
                       ++ (if pos <? e then gap_style m pos e else [])) q
             = if (s <=? q) && (q <? e) then apply_at m (attrs_at l q) else attrs_at l q) /\
  all_nonempty (flat_map (split_style s e m) l ++ gaps
                ++ (if pos <? e then gap_style m pos e else [])) = true /\
  (all_formatted l = true ->
   all_formatted (flat_map (split_style s e m) l ++ gaps
                  ++ (if pos <? e then gap_style m pos e else [])) = true).
Proof.
  intros Hse Hs Hn Eg.
  set (cov := map (clip s e) _) in Eg.
  assert (Hc : chain e s cov).
  { apply chain_cov; auto; intros; lia. }
  destruct (gap_loop_spec m e cov s Hc) as (G1 & G2 & G3 & G4 & G5).
  rewrite Eg in G1, G2, G3, G4, G5; simpl in G1, G2, G3, G4, G5.
  split; [intros q|split].
  - rewrite !attrs_at_app, attrs_at_flat_map, G3.
    erewrite flat_map_ext; [|intros st; apply split_attrs_at; exact Hse].
    destruct (Nat.ltb_spec pos e); [rewrite gap_style_attrs|change (attrs_at [] q) with (@nil Attrs)];
    (destruct (Nat.leb_spec s q); [destruct (Nat.ltb_spec q e)|]); simpl.
    all: first
      [ rewrite ?app_nil_r, <- (inside_attrs m q l Hs Hn); f_equal;
        unfold cov; rewrite <- (in_cov_eq s e m l q) by lia; fold cov;
        (destruct (Nat.ltb_spec q pos); [|rewrite G2 by lia]);
        destruct (has_formatting_attrs (m default_attrs)), (in_cov q cov); cmp
      | rewrite attrs_at_flat; destruct (has_formatting_attrs (m default_attrs)); cmp;
        rewrite ?app_nil_r; reflexivity ].
  - rewrite !ne_app, ne_flat_split, G4 by auto.
    destruct (Nat.ltb_spec pos e) as [He|He];
      [destruct (gap_style_ok m pos e He) as [-> _]|]; reflexivity.
  - intros Hf; rewrite !fm_app, fm_flat_split, G5 by auto.
    destruct (Nat.ltb_spec pos e) as [He|He];
      [destruct (gap_style_ok m pos e He) as [_ ->]|]; reflexivity.
Qed.

End StyleFacts3.

Module StyleFacts4.
Import Style StyleFacts StyleFacts2 StyleFacts3.

(** *** Sorting *)

Lemma forallb_perm {A} (f : A -> bool) l l' :
  Permutation l l' -> forallb f l = forallb f l'.
Proof.
  induction 1; simpl; try reflexivity.
  - rewrite IHPermutation; reflexivity.
  - destruct (f x), (f y); reflexivity.
  - congruence.
Qed.

Lemma perm_attrs_at q l l' : Permutation l l' -> Permutation (attrs_at l q) (attrs_at l' q).
Proof. intros H; unfold attrs_at; apply Permutation_map, Permutation_filter_bool, H. Qed.

Lemma sd_all_start x r :
  sorted_disjoint (x :: r) = true -> all_nonempty (x :: r) = true ->
  forall y, In y r -> start x < start y.
Proof.
  intros Hs Hn y Hy. pose proof (sd_all x r Hs Hn y Hy). pose proof (ne_head _ _ Hn). lia.
Qed.

Lemma sorted_sd l :
  sorted_by start l = true -> all_nonempty l = true ->
  (forall q, length (attrs_at l q) <= 1) -> sorted_disjoint l = true.
Proof.
  induction l as [|x [|y r] IH]; intros Hs Hn Hq; try reflexivity.
  simpl in Hs; apply andb_true_iff in Hs as [Hxy Hs].
  pose proof (ne_head _ _ Hn) as Hx. pose proof (ne_head _ _ (ne_tail _ _ Hn)) as Hy.
  simpl; apply andb_true_iff; split.
  - specialize (Hq (start y)). rewrite !attrs_at_cons in Hq.
    unfold covers_pos in Hq; cmp.
  - apply IH; [exact Hs|eapply ne_tail; eauto|].
    intros q; specialize (Hq q); rewrite attrs_at_cons, length_app in Hq; lia.
Qed.

(** *** Merging *)

Lemma merge_fold cur acc l :
  fold_left merge_step l (cur :: acc) = rev (merge_from cur l) ++ acc.
Proof.
  revert cur acc; induction l as [|st r IH]; intros cur acc; simpl; [reflexivity|].
  destruct ((end_ cur =? start st) && attrs_eqb (attrs cur) (attrs st)).
  - apply IH.
  - rewrite IH; simpl; rewrite <- app_assoc; reflexivity.
Qed.

Lemma merge_adjacent_eq l :
  merge_adjacent_styles l = match l with [] => [] | x :: r => merge_from x r end.
Proof.
  unfold merge_adjacent_styles; destruct l as [|x r]; [reflexivity|].
  simpl; rewrite merge_fold, app_nil_r, rev_involutive; reflexivity.
Qed.

Lemma merge_from_head cur l :
  exists h t, merge_from cur l = h :: t /\ start h = start cur /\ attrs h = attrs cur.
Proof.
  revert cur; induction l as [|st r IH]; intros cur; simpl.
  - eauto.
  - destruct ((end_ cur =? start st) && attrs_eqb (attrs cur) (attrs st)).
    + destruct (IH (set_range cur (start cur) (end_ st))) as (h & t & E & H1 & H2).
      exists h, t; rewrite E; auto.
    + eauto.
Qed.

Lemma merge_from_attrs q cur l :
  sorted_disjoint (cur :: l) = true -> all_nonempty (cur :: l) = true ->
  attrs_at (merge_from cur l) q = attrs_at (cur :: l) q.
Proof.
  revert cur; induction l as [|st r IH]; intros cur Hs Hn; simpl; [reflexivity|].
  destruct ((end_ cur =? start st) && attrs_eqb (attrs cur) (attrs st)) eqn:Em.
  - apply andb_true_iff in Em as [E1 E2]; apply attrs_eqb_eq in E2; apply Nat.eqb_eq in E1.
    simpl in Hs; apply andb_true_iff in Hs as [_ Hs].
    pose proof (ne_head _ _ Hn). pose proof (ne_head _ _ (ne_tail _ _ Hn)).
    rewrite IH.
    + rewrite !attrs_at_cons; unfold covers_pos, set_range; simpl; rewrite E2; cmp.
    + destruct r as [|z r]; [reflexivity|]. simpl in Hs |- *; exact Hs.
    + unfold all_nonempty in *; simpl in *; apply andb_true_iff in Hn as [_ Hn].
      apply andb_true_iff in Hn as [_ Hn]; rewrite Hn; cmp.
  - rewrite attrs_at_cons, IH, (attrs_at_cons q cur); [reflexivity| |].
    + eapply sd_tail; eauto.
    + eapply ne_tail; eauto.
Qed.

Lemma merge_from_inv cur l :
  sorted_disjoint (cur :: l) = true -> all_nonempty (cur :: l) = true ->
  sorted_disjoint (merge_from cur l) = true /\ all_nonempty (merge_from cur l) = true /\
  no_adjacent_dups (merge_from cur l) = true /\
  (all_formatted (cur :: l) = true -> all_formatted (merge_from cur l) = true).
Proof.
  revert cur; induction l as [|st r IH]; intros cur Hs Hn; simpl.
  - repeat split; auto.
  - destruct ((end_ cur =? start st) && attrs_eqb (attrs cur) (attrs st)) eqn:Em.
    + apply andb_true_iff in Em as [E1 E2]; apply Nat.eqb_eq in E1.
      pose proof (ne_head _ _ (ne_tail _ _ Hn)).
      assert (Hs' : sorted_disjoint (set_range cur (start cur) (end_ st) :: r) = true).
      { simpl in Hs; apply andb_true_iff in Hs as [_ Hs].
        destruct r as [|z r]; [reflexivity|]. exact Hs. }
      assert (Hn' : all_nonempty (set_range cur (start cur) (end_ st) :: r) = true).
      { pose proof (ne_head _ _ Hn).
        unfold all_nonempty in *; simpl in *; apply andb_true_iff in Hn as [_ Hn].
        apply andb_true_iff in Hn as [_ Hn]; rewrite Hn; cmp. }
      destruct (IH _ Hs' Hn') as (A & B & C & D).
      repeat split; auto. intros Hf; apply D.
      unfold all_formatted, has_formatting, set_range in *; simpl in *.
      apply andb_true_iff in Hf as [F1 Hf]; apply andb_true_iff in Hf as [_ F2].
      rewrite F1, F2; reflexivity.
    + destruct (merge_from_head st r) as (h & t & E & H1 & H2).
      destruct (IH st (sd_tail _ _ Hs) (ne_tail _ _ Hn)) as (A & B & C & D).
      rewrite E in *. simpl in Hs; apply andb_true_iff in Hs as [Hcs _].
      assert (Es : forall x y r, sorted_disjoint (x :: y :: r)
                     = (end_ x <=? start y) && sorted_disjoint (y :: r)) by reflexivity.
      assert (Ed : forall x y r, no_adjacent_dups (x :: y :: r)
                     = negb ((end_ x =? start y) && attrs_eqb (attrs x) (attrs y))
                       && no_adjacent_dups (y :: r)) by reflexivity.
      rewrite Es, Ed, H1, H2, Em, Hcs, A, C.
      unfold all_nonempty, all_formatted in *; simpl in *.
      apply andb_true_iff in Hn as [Hn1 _]; rewrite Hn1; simpl.
      split; [reflexivity|split; [exact B|split; [reflexivity|]]].
      intros Hf; apply andb_true_iff in Hf as [F1 Hf]; rewrite F1; simpl; apply D, Hf.
Qed.

Lemma merge_adjacent_spec l :
  sorted_disjoint l = true -> all_nonempty l = true ->
  (forall q, attrs_at (merge_adjacent_styles l) q = attrs_at l q) /\
  sorted_disjoint (merge_adjacent_styles l) = true /\
  all_nonempty (merge_adjacent_styles l) = true /\
  no_adjacent_dups (merge_adjacent_styles l) = true /\
  (all_formatted l = true -> all_formatted (merge_adjacent_styles l) = true).
Proof.
  rewrite merge_adjacent_eq; destruct l as [|x r]; intros Hs Hn.
  - repeat split; auto.
  - destruct (merge_from_inv x r Hs Hn) as (A & B & C & D).
    split; [intros q; apply merge_from_attrs; auto|auto].
Qed.

Lemma apply_at_len m h : length (apply_at m h) <= 1.
Proof.
  unfold apply_at; destruct h; destruct (has_formatting_attrs (m default_attrs));
    try destruct (has_formatting_attrs (m a)); simpl; lia.
Qed.

(** The effect of [apply_style] on a list satisfying the range part of the
    invariant, position by position, and the invariant of its result. *)
Lemma apply_style_spec l s e m :
  s < e -> sorted_disjoint l = true -> all_nonempty l = true ->
  (forall q, attrs_at (apply_style l s e m) q =
             if (s <=? q) && (q <? e) then apply_at m (attrs_at l q) else attrs_at l q) /\
  sorted_disjoint (apply_style l s e m) = true /\
  all_nonempty (apply_style l s e m) = true /\
  no_adjacent_dups (apply_style l s e m) = true /\
  (all_formatted l = true -> all_formatted (apply_style l s e m) = true).
Proof.
  intros Hse Hs Hn. unfold apply_style.
  destruct (Nat.leb_spec e s); [lia|]. cbv zeta.
  rewrite cov_eq by exact Hse.
  rewrite (sort_chain0 e s) by (apply chain_cov; auto; intros; lia).
  destruct (gap_loop m s _) as [pos gaps] eqn:Eg.
  destruct (pieces_spec l s e m pos gaps Hse Hs Hn Eg) as (P1 & P2 & P3).
  set (P := flat_map (split_style s e m) l ++ gaps ++ _) in P1, P2, P3 |- *.
  pose proof (sort_by_key_perm start P) as Hp.
  assert (Hq : forall q, attrs_at (sort_by_key start P) q = attrs_at P q).
  { intros q; symmetry; apply Permutation_short_eq; [apply perm_attrs_at; symmetry; exact Hp|].
    rewrite P1; destruct ((s <=? q) && (q <? e));
      [apply apply_at_len|apply attrs_at_len; auto]. }
  assert (Hn2 : all_nonempty (sort_by_key start P) = true).
  { unfold all_nonempty; rewrite (forallb_perm _ _ _ Hp); exact P2. }
  assert (Hs2 : sorted_disjoint (sort_by_key start P) = true).
  { apply sorted_sd; [apply sort_by_key_sorted|exact Hn2|].
    intros q; rewrite Hq, P1; destruct ((s <=? q) && (q <? e));
      [apply apply_at_len|apply attrs_at_len; auto]. }
  destruct (merge_adjacent_spec _ Hs2 Hn2) as (M1 & M2 & M3 & M4 & M5).
  split; [intros q; rewrite M1, Hq; apply P1|].
  repeat split; auto.
  intros Hf; apply M5. unfold all_formatted; rewrite (forallb_perm _ _ _ Hp); apply P3, Hf.
Qed.

(** *** Uniqueness of a list satisfying the invariant *)

Lemma nad_tail x r : no_adjacent_dups (x :: r) = true -> no_adjacent_dups r = true.
Proof. destruct r; simpl; [reflexivity|]. intros H; apply andb_true_iff in H; tauto. Qed.

Lemma below_head q y r :
  sorted_disjoint (y :: r) = true -> all_nonempty (y :: r) = true ->
  q < start y -> attrs_at (y :: r) q = [].
Proof.
  intros Hs Hn Hq; apply attrs_at_nil_below.
  intros z [<-|Hz]; [exact Hq|]. pose proof (sd_all_start y r Hs Hn z Hz); lia.
Qed.

Lemma at_head q x r :
  sorted_disjoint (x :: r) = true -> all_nonempty (x :: r) = true ->
  covers_pos q x = true -> attrs_at (x :: r) q = [attrs x].
Proof.
  intros Hs Hn Hc; rewrite attrs_at_cons, Hc, attrs_at_nil_below; [reflexivity|].
  intros z Hz; pose proof (sd_all x r Hs Hn z Hz). unfold covers_pos in Hc; cmp.
Qed.

Lemma end_le x r1 y r2 :
  sorted_disjoint (x :: r1) = true -> all_nonempty (x :: r1) = true ->
  no_adjacent_dups (x :: r1) = true ->
  sorted_disjoint (y :: r2) = true -> all_nonempty (y :: r2) = true ->
  start x = start y -> attrs x = attrs y ->
  (forall q, attrs_at (x :: r1) q = attrs_at (y :: r2) q) -> end_ y <= end_ x.
Proof.
  intros Hs1 Hn1 Hd1 Hs2 Hn2 Est Eat H.
  destruct (Nat.le_gt_cases (end_ y) (end_ x)) as [|Hlt]; [assumption|exfalso].
  pose proof (ne_head _ _ Hn1).
  specialize (H (end_ x)).
  rewrite (at_head _ y r2 Hs2 Hn2) in H by (unfold covers_pos; cmp).
  rewrite attrs_at_cons in H.
  replace (covers_pos (end_ x) x) with false in H by (unfold covers_pos; cmp).
  simpl in H.
  destruct r1 as [|z r1]; [discriminate|].
  pose proof (sd_all x (z :: r1) Hs1 Hn1 z (or_introl eq_refl)).
  destruct (Nat.eq_dec (start z) (end_ x)) as [Ez|Ez].
  - rewrite (at_head _ z r1 (sd_tail _ _ Hs1) (ne_tail _ _ Hn1)) in H.
    + injection H as Ha. simpl in Hd1. rewrite Ez, Nat.eqb_refl in Hd1.
      rewrite Eat, <- Ha in Hd1.
      assert (attrs_eqb (attrs z) (attrs z) = true) as Hr by (apply attrs_eqb_eq; reflexivity).
      rewrite Hr in Hd1; discriminate.
    + pose proof (ne_head _ _ (ne_tail _ _ Hn1)). unfold covers_pos; cmp.
  - rewrite below_head in H; [discriminate|eapply sd_tail; eauto|eapply ne_tail; eauto|lia].
Qed.

Lemma canon_unique l1 l2 :
  sorted_disjoint l1 = true -> all_nonempty l1 = true -> no_adjacent_dups l1 = true ->
  sorted_disjoint l2 = true -> all_nonempty l2 = true -> no_adjacent_dups l2 = true ->
  (forall q, attrs_at l1 q = attrs_at l2 q) -> l1 = l2.
Proof.
  revert l2; induction l1 as [|x r1 IH]; intros l2 Hs1 Hn1 Hd1 Hs2 Hn2 Hd2 H.
  - destruct l2 as [|y r2]; [reflexivity|exfalso].
    specialize (H (start y)).
    rewrite (at_head _ y r2 Hs2 Hn2) in H; [discriminate|].
    pose proof (ne_head _ _ Hn2); unfold covers_pos; cmp.
  - destruct l2 as [|y r2].
    { exfalso. specialize (H (start x)).
      rewrite (at_head _ x r1 Hs1 Hn1) in H; [discriminate|].
      pose proof (ne_head _ _ Hn1); unfold covers_pos; cmp. }
    pose proof (ne_head _ _ Hn1) as Hx. pose proof (ne_head _ _ Hn2) as Hy.
    assert (Est : start x = start y).
    { destruct (Nat.lt_total (start x) (start y)) as [Hlt|[Heq|Hlt]]; [exfalso| exact Heq|exfalso].
      - specialize (H (start x)).
        rewrite (at_head _ x r1 Hs1 Hn1), (below_head _ y r2 Hs2 Hn2) in H;
          [discriminate|lia|unfold covers_pos; cmp].
      - specialize (H (start y)).
        rewrite (at_head _ y r2 Hs2 Hn2), (below_head _ x r1 Hs1 Hn1) in H;
          [discriminate|lia|unfold covers_pos; cmp]. }
    assert (Eat : attrs x = attrs y).
    { specialize (H (start x)).
      rewrite (at_head _ x r1 Hs1 Hn1), (at_head _ y r2 Hs2 Hn2) in H;
        [congruence|unfold covers_pos; cmp|unfold covers_pos; cmp]. }
    pose proof (end_le x r1 y r2 Hs1 Hn1 Hd1 Hs2 Hn2 Est Eat H).
    pose proof (end_le y r2 x r1 Hs2 Hn2 Hd2 Hs1 Hn1 (eq_sym Est) (eq_sym Eat)
                  (fun q => eq_sym (H q))).
    assert (Exy : x = y).
    { destruct x, y; simpl in *; f_equal; [exact Est|lia|exact Eat]. }
    subst y; f_equal.
    apply IH; [eapply sd_tail|eapply ne_tail|eapply nad_tail|eapply sd_tail|eapply ne_tail
              |eapply nad_tail|]; eauto.
    intros q; specialize (H q); rewrite !attrs_at_cons in H; eapply app_inv_head; eauto.
Qed.

(** *** Modifiers that set fields unconditionally *)

Lemma set_fields_idem fs f : set_fields fs (set_fields fs f) = set_fields fs f.
Proof.
  destruct fs as [b i u st c bg]; destruct b, i, u, st, c, bg; reflexivity.
Qed.

Lemma apply_at_idem m h :
  (forall f, m (m f) = m f) -> apply_at m (apply_at m h) = apply_at m h.
Proof.
  intros Hm; unfold apply_at.
  destruct h as [|a r]; [|destruct (has_formatting_attrs (m a)) eqn:Ha];
    destruct (has_formatting_attrs (m default_attrs)) eqn:Hd; simpl;
    rewrite ?Hm, ?Ha, ?Hd; reflexivity.
Qed.

Lemma apply_style_empty l s e m : e <= s -> apply_style l s e m = l.
Proof. intros H; unfold apply_style; destruct (Nat.leb_spec e s); [reflexivity|lia]. Qed.

End StyleFacts4.

Module StyleClaims.
Import Style StyleFacts StyleFacts2 StyleFacts3 StyleFacts4.

(** C6: [apply_style] preserves the style-list invariant: if the styles are
    sorted, pairwise disjoint, non-empty, all formatted and without two
    touching runs of identical formatting, so are the styles after any call
    [apply_style(start, end, modifier)], whatever the modifier. *)
Theorem apply_style_preserves_invariant l s e m :
  styles_invariant l = true -> styles_invariant (apply_style l s e m) = true.
Proof.
  intros H; destruct (Nat.le_gt_cases e s) as [Hes|Hse];
    [rewrite apply_style_empty by exact Hes; exact H|].
  unfold styles_invariant in *.
  apply andb_true_iff in H as [H Hd]; apply andb_true_iff in H as [H Hf];
    apply andb_true_iff in H as [Hs Hn].
  destruct (apply_style_spec l s e m Hse Hs Hn) as (_ & A2 & A3 & A4 & A5).
  rewrite A2, A3, A4, A5 by exact Hf; reflexivity.
Qed.

Lemma apply_style_preserves_invariant_witness :
  styles_invariant [mkStyle 0 3 (mkAttrs true false false false None None)] = true /\
  styles_invariant
    (apply_style [mkStyle 0 3 (mkAttrs true false false false None None)] 1 5
       (set_fields (mkFieldSets (Some false) (Some true) None None None None))) = true.
Proof.
  split; [reflexivity|].
  apply (apply_style_preserves_invariant
           [mkStyle 0 3 (mkAttrs true false false false None None)] 1 5
           (set_fields (mkFieldSets (Some false) (Some true) None None None None))).
  reflexivity.
Defined.

(** C5: [apply_style] is idempotent: for a modifier that sets fields
    unconditionally and a styles list that is sorted, disjoint and has
    non-empty ranges, applying [apply_style(start, end, modifier)] twice
    gives the same list as applying it once. *)
Theorem apply_style_idempotent l s e fs :
  sorted_disjoint l = true -> all_nonempty l = true ->
  apply_style (apply_style l s e (set_fields fs)) s e (set_fields fs)
  = apply_style l s e (set_fields fs).
Proof.
  intros Hs Hn; destruct (Nat.le_gt_cases e s) as [Hes|Hse];
    [rewrite !apply_style_empty by exact Hes; reflexivity|].
  destruct (apply_style_spec l s e (set_fields fs) Hse Hs Hn) as (A1 & A2 & A3 & A4 & _).
  destruct (apply_style_spec _ s e (set_fields fs) Hse A2 A3) as (B1 & B2 & B3 & B4 & _).
  apply canon_unique; auto.
  intros q; rewrite B1, A1.
  destruct ((s <=? q) && (q <? e)); [apply apply_at_idem, set_fields_idem|reflexivity].
Qed.

Lemma apply_style_idempotent_witness :
  sorted_disjoint [mkStyle 0 3 (mkAttrs true false false false None None)] = true /\
  all_nonempty [mkStyle 0 3 (mkAttrs true false false false None None)] = true /\
  apply_style
    (apply_style [mkStyle 0 3 (mkAttrs true false false false None None)] 1 5
       (set_fields (mkFieldSets None (Some true) None None None None)))
    1 5 (set_fields (mkFieldSets None (Some true) None None None None))
  = apply_style [mkStyle 0 3 (mkAttrs true false false false None None)] 1 5
      (set_fields (mkFieldSets None (Some true) None None None None)).
Proof.
  split; [reflexivity|split; [reflexivity|]].
  apply (apply_style_idempotent [mkStyle 0 3 (mkAttrs true false false false None None)] 1 5
           (mkFieldSets None (Some true) None None None None)); reflexivity.
Defined.

End StyleClaims.

Module TableFacts.
Import Table StyleFacts.

Lemma update_nth_length {A} n (f : A -> A) l : length (update_nth n f l) = length l.
Proof. revert n; induction l as [|x r IH]; intros [|n]; simpl; auto. Qed.

Lemma nth_error_update_nth {A} n (f : A -> A) l k :
  nth_error (update_nth n f l) k =
  if k =? n then option_map f (nth_error l k) else nth_error l k.
Proof.
  revert n k; induction l as [|x r IH]; intros [|n] [|k]; simpl; try reflexivity;
    try (destruct (k =? n); reflexivity); try (destruct k; reflexivity).
  apply IH.
Qed.

Lemma forallb_update_nth {A} (p : A -> bool) n f l :
  (forall x, p (f x) = p x) -> forallb p (update_nth n f l) = forallb p l.
Proof.
  intros H; revert n; induction l as [|x r IH]; intros [|n]; simpl; try reflexivity.
  - rewrite H; reflexivity.
  - rewrite IH; reflexivity.
Qed.

Lemma get_update t r c f a b :
  get_cell (update_cell t r c f) a b =
  if (a =? r) && (b =? c) then option_map f (get_cell t a b) else get_cell t a b.
Proof.
  unfold get_cell, update_cell; simpl; rewrite nth_error_update_nth.
  destruct (a =? r); simpl; [|reflexivity].
  destruct (nth_error (rows t) a); simpl; [rewrite nth_error_update_nth|];
    destruct (b =? c); reflexivity.
Qed.

Lemma update_dims t r c f :
  num_rows (update_cell t r c f) = num_rows t /\ num_cols (update_cell t r c f) = num_cols t
  /\ table_shape_ok (update_cell t r c f) = table_shape_ok t.
Proof.
  unfold num_rows, num_cols, table_shape_ok, update_cell; simpl.
  rewrite update_nth_length; split; [reflexivity|split; [reflexivity|]].
  apply forallb_update_nth; intros row; simpl; rewrite update_nth_length; reflexivity.
Qed.

(** The update loops of [merge_cells] and [split_cell]. *)
Section UpdateLoop.
Variable F : DocumentTable -> nat * nat -> DocumentTable.
Variable sk : nat -> nat -> bool.
Variable g : TableCell -> TableCell.
Hypothesis HF : forall acc ri ci,
  F acc (ri, ci) = if sk ri ci then acc else update_cell acc ri ci g.

Lemma fold_update_dims ps t :
  num_rows (fold_left F ps t) = num_rows t /\ num_cols (fold_left F ps t) = num_cols t
  /\ table_shape_ok (fold_left F ps t) = table_shape_ok t.
Proof.
  revert t; induction ps as [|[x y] r IH]; intros t; simpl; [auto|].
  destruct (IH (F t (x, y))) as (A & B & C). rewrite A, B, C, HF.
  destruct (sk x y); [auto|apply update_dims].
Qed.

Hypothesis Hg : forall x, g (g x) = g x.

Lemma fold_update_spec ps t a b :
  get_cell (fold_left F ps t) a b =
  if negb (sk a b) && existsb (fun '(x, y) => (x =? a) && (y =? b)) ps
  then option_map g (get_cell t a b) else get_cell t a b.
Proof.
  revert t; induction ps as [|[x y] r IH]; intros t; simpl.
  - rewrite andb_false_r; reflexivity.
  - rewrite IH, HF.
    destruct (Nat.eqb_spec x a) as [<-|Hxa]; destruct (Nat.eqb_spec y b) as [<-|Hyb];
      simpl; destruct (sk x y) eqn:Hs; simpl; rewrite ?Hs; simpl; try reflexivity;
      rewrite get_update; cmp; rewrite ?andb_true_r.
    destruct (existsb _ r); simpl; [|reflexivity].
    destruct (get_cell t x y); simpl; rewrite ?Hg; reflexivity.
Qed.

End UpdateLoop.

Lemma get_cell_shape t r c :
  table_shape_ok t = true -> r < num_rows t -> c < num_cols t ->
  exists cell, get_cell t r c = Some cell.
Proof.
  unfold table_shape_ok, get_cell, num_rows; intros Hs Hr Hc.
  destruct (nth_error (rows t) r) as [row|] eqn:E;
    [|apply nth_error_None in E; lia].
  rewrite forallb_forall in Hs. specialize (Hs row (nth_error_In _ _ E)).
  apply Nat.eqb_eq in Hs.
  destruct (nth_error (cells row) c) eqn:E2; [eauto|apply nth_error_None in E2; lia].
Qed.

Lemma in_region a b r c rs cs :
  In (a, b) (region_positions r c rs cs) <-> r <= a < r + rs /\ c <= b < c + cs.
Proof.
  unfold region_positions; rewrite in_flat_map; split.
  - intros (x & Hx & Hin); apply in_map_iff in Hin as (y & Ey & Hy).
    injection Ey as <- <-; apply in_seq in Hx; apply in_seq in Hy; lia.
  - intros [H1 H2]; exists a; split; [apply in_seq; lia|].
    apply in_map_iff; exists b; split; [reflexivity|apply in_seq; lia].
Qed.

Lemma existsb_pos a b ps :
  existsb (fun '(x, y) => (x =? a) && (y =? b)) ps = true <-> In (a, b) ps.
Proof.
  rewrite existsb_exists; split.
  - intros ([x y] & Hin & H); apply andb_true_iff in H as [H1 H2].
    apply Nat.eqb_eq in H1, H2; subst; exact Hin.
  - intros H; exists (a, b); split; [exact H|rewrite !Nat.eqb_refl; reflexivity].
Qed.

Lemma existsb_region a b r c rs cs :
  existsb (fun '(x, y) => (x =? a) && (y =? b)) (region_positions r c rs cs) =
  (r <=? a) && (a <? r + rs) && (c <=? b) && (b <? c + cs).
Proof.
  destruct (existsb _ _) eqn:E.
  - apply existsb_pos, in_region in E; cmp.
  - symmetry; apply not_true_iff_false; intros H.
    assert (In (a, b) (region_positions r c rs cs)) as Hin by (apply in_region; cmp).
    apply existsb_pos in Hin; congruence.
Qed.

End TableFacts.

Module TableFacts2.
Import Table StyleFacts TableFacts.

Ltac bprop :=
  repeat match goal with
  | H : (_ && _) = true |- _ => apply andb_true_iff in H as [? ?]
  | H : (_ || _) = false |- _ => apply orb_false_iff in H as [? ?]
  | H : negb _ = true |- _ => apply negb_true_iff in H
  | H : negb _ = false |- _ => apply negb_false_iff in H
  | H : (_ <=? _) = true |- _ => apply Nat.leb_le in H
  | H : (_ <=? _) = false |- _ => apply Nat.leb_gt in H
  | H : (_ <? _) = true |- _ => apply Nat.ltb_lt in H
  | H : (_ <? _) = false |- _ => apply Nat.ltb_ge in H
  | H : (_ =? _) = true |- _ => apply Nat.eqb_eq in H
  | H : (_ =? _) = false |- _ => apply Nat.eqb_neq in H
  end.

Lemma existsb_rect a b sr sc er ec :
  existsb (fun '(x, y) => (x =? a) && (y =? b)) (rect_positions sr sc er ec) =
  in_rect sr sc er ec a b.
Proof.
  unfold rect_positions, in_rect; rewrite existsb_region.
  destruct (Nat.leb_spec sr a), (Nat.ltb_spec a (sr + (S er - sr))), (Nat.leb_spec a er),
    (Nat.leb_spec sc b), (Nat.ltb_spec b (sc + (S ec - sc))), (Nat.leb_spec b ec);
    simpl; try reflexivity; lia.
Qed.

Lemma merge_success t sr sc er ec t1 :
  table_shape_ok t = true -> merge_cells t sr sc er ec = (true, t1) ->
  er < num_rows t /\ ec < num_cols t /\ sr <= er /\ sc <= ec /\
  num_rows t1 = num_rows t /\ num_cols t1 = num_cols t /\ table_shape_ok t1 = true /\
  (forall a b, get_cell t1 a b =
     if (a =? sr) && (b =? sc) then
       option_map (set_origin (fold_left (collect_step t) (rect_positions sr sc er ec) [])
                              (er - sr + 1) (ec - sc + 1)) (get_cell t a b)
     else if in_rect sr sc er ec a b then option_map (set_covered sr sc) (get_cell t a b)
     else get_cell t a b).
Proof.
  intros Hs Hm; unfold merge_cells in Hm.
  destruct ((num_rows t <=? er) || (num_cols t <=? ec)) eqn:B; [discriminate|].
  destruct ((er <? sr) || (ec <? sc)) eqn:O; [discriminate|].
  destruct (negb (forallb (merge_cell_ok t sr sc er ec) (rect_positions sr sc er ec)));
    [discriminate|].
  injection Hm as <-. bprop.
  set (T1 := update_cell t sr sc _).
  set (F := fun acc (p : nat * nat) => let '(ri, ci) := p in
              if (ri =? sr) && (ci =? sc) then acc else update_cell acc ri ci (set_covered sr sc)).
  assert (HF : forall acc ri ci, F acc (ri, ci) =
            if (fun ri ci => (ri =? sr) && (ci =? sc)) ri ci then acc
            else update_cell acc ri ci (set_covered sr sc)) by reflexivity.
  change (fold_left _ (rect_positions sr sc er ec) T1)
    with (fold_left F (rect_positions sr sc er ec) T1).
  destruct (fold_update_dims F _ _ HF (rect_positions sr sc er ec) T1) as (D1 & D2 & D3).
  destruct (update_dims t sr sc (set_origin (fold_left (collect_step t)
              (rect_positions sr sc er ec) []) (er - sr + 1) (ec - sc + 1))) as (E1 & E2 & E3).
  fold T1 in E1, E2, E3.
  do 4 (split; [lia|]). split; [congruence|]. split; [congruence|]. split; [congruence|].
  intros a b.
  rewrite (fold_update_spec F _ _ HF) by (intros []; reflexivity).
  rewrite existsb_rect; unfold T1; rewrite get_update.
  unfold in_rect; destruct (Nat.eqb_spec a sr), (Nat.eqb_spec b sc); subst; simpl;
    try rewrite Nat.leb_refl; simpl; cmp.
Qed.

Lemma split_success t r c cell :
  get_cell t r c = Some cell -> is_merge_origin cell = true ->
  fst (split_cell t r c) = true /\
  num_rows (snd (split_cell t r c)) = num_rows t /\
  num_cols (snd (split_cell t r c)) = num_cols t /\
  table_shape_ok (snd (split_cell t r c)) = table_shape_ok t /\
  (forall a b, get_cell (snd (split_cell t r c)) a b =
     if (a =? r) && (b =? c) then Some (reset_span cell)
     else if (r <=? a) && (a <? r + row_span cell) && (c <=? b) && (b <? c + col_span cell)
     then option_map (uncover (background cell)) (get_cell t a b)
     else get_cell t a b).
Proof.
  intros Hg Ho; unfold split_cell; rewrite Hg, Ho; simpl.
  set (T1 := update_cell t r c reset_span).
  set (F := fun acc (p : nat * nat) => let '(ri, ci) := p in
              if (ri =? r) && (ci =? c) then acc
              else update_cell acc ri ci (uncover (background cell))).
  assert (HF : forall acc ri ci, F acc (ri, ci) =
            if (fun ri ci => (ri =? r) && (ci =? c)) ri ci then acc
            else update_cell acc ri ci (uncover (background cell))) by reflexivity.
  change (fold_left _ (region_positions r c (row_span cell) (col_span cell)) T1)
    with (fold_left F (region_positions r c (row_span cell) (col_span cell)) T1).
  destruct (fold_update_dims F _ _ HF (region_positions r c (row_span cell) (col_span cell)) T1)
    as (D1 & D2 & D3).
  destruct (update_dims t r c reset_span) as (E1 & E2 & E3). fold T1 in E1, E2, E3.
  split; [reflexivity|]. split; [congruence|]. split; [congruence|]. split; [congruence|].
  intros a b.
  rewrite (fold_update_spec F _ _ HF) by (intros []; reflexivity).
  rewrite existsb_region; unfold T1; rewrite get_update.
  destruct (Nat.eqb_spec a r), (Nat.eqb_spec b c); subst; simpl; rewrite ?Hg; simpl; cmp.
Qed.

End TableFacts2.

Module TableClaims.
Import Table StyleFacts TableFacts TableFacts2.

(** C3: [merge_cells] fails and leaves the table unchanged when the
    rectangle is out of bounds, when [r0 > r1] or [c0 > c1], when a cell
    of the rectangle is covered by a merge whose origin lies outside the
    rectangle, or when a cell of the rectangle is a merge origin whose
    extent reaches outside it.  Hypothesis: every covered cell of the grid
    points at an origin whose footprint contains it (the data-model
    invariant, [covered_cells_ok]). *)
Theorem merge_cells_rejects t sr sc er ec :
  covered_cells_ok t = true ->
  (num_rows t <= er \/ num_cols t <= ec \/ er < sr \/ ec < sc
   \/ (exists ri ci cell br bc, in_rect sr sc er ec ri ci = true /\
         get_cell t ri ci = Some cell /\ covered cell = true /\
         covered_by_row cell = Some br /\ covered_by_col cell = Some bc /\
         in_rect sr sc er ec br bc = false)
   \/ (exists ri ci cell, in_rect sr sc er ec ri ci = true /\
         get_cell t ri ci = Some cell /\ is_merge_origin cell = true /\
         (er < ri + row_span cell - 1 \/ ec < ci + col_span cell - 1))) ->
  merge_cells t sr sc er ec = (false, t).
Proof.
  intros Hw H; unfold merge_cells.
  destruct ((num_rows t <=? er) || (num_cols t <=? ec)) eqn:B; [reflexivity|].
  destruct ((er <? sr) || (ec <? sc)) eqn:O; [reflexivity|].
  destruct (forallb (merge_cell_ok t sr sc er ec) (rect_positions sr sc er ec)) eqn:F;
    [exfalso|reflexivity].
  bprop. rewrite forallb_forall in F.
  destruct H as [H|[H|[H|[H|[H|H]]]]]; try lia.
  - destruct H as (ri & ci & cell & br & bc & Hin & Hg & Hc & Hbr & Hbc & Hout).
    assert (Hr : In (ri, ci) (rect_positions sr sc er ec))
      by (apply existsb_pos; rewrite existsb_rect; exact Hin).
    specialize (F _ Hr). unfold merge_cell_ok in F; rewrite Hg, Hc, Hbr, Hbc in F.
    unfold covered_cells_ok in Hw; rewrite forallb_forall in Hw.
    unfold in_rect in Hin; bprop.
    assert (Hr0 : In (ri, ci) (region_positions 0 0 (num_rows t) (num_cols t)))
      by (apply in_region; lia).
    specialize (Hw _ Hr0); unfold covered_cell_ok in Hw; rewrite Hg, Hc, Hbr, Hbc in Hw.
    destruct (get_cell t br bc) as [o|]; [|rewrite andb_false_r in Hw; discriminate].
    unfold in_rect in Hout; bprop.
    repeat match goal with H : (_ && _) = false |- _ => apply andb_false_iff in H as [H|H] end;
      bprop; lia.
  - destruct H as (ri & ci & cell & Hin & Hg & Ho & Hext).
    assert (Hr : In (ri, ci) (rect_positions sr sc er ec))
      by (apply existsb_pos; rewrite existsb_rect; exact Hin).
    specialize (F _ Hr). unfold merge_cell_ok in F; rewrite Hg, Ho in F.
    apply andb_true_iff in F as [_ F].
    destruct ((ri + row_span cell =? 0) || (ci + col_span cell =? 0)); [discriminate|].
    bprop; lia.
Qed.

Lemma merge_cells_rejects_witness :
  covered_cells_ok (snd (merge_cells (DocumentTable_new [] 2 2) 0 0 1 1)) = true /\
  merge_cells (snd (merge_cells (DocumentTable_new [] 2 2) 0 0 1 1)) 1 1 1 1
  = (false, snd (merge_cells (DocumentTable_new [] 2 2) 0 0 1 1)).
Proof.
  split; [reflexivity|].
  apply merge_cells_rejects; [reflexivity|].
  right; right; right; right; left.
  exists 1, 1, (mkCell [] [] Left None 1 1 true (Some 0) (Some 0)), 0, 0.
  repeat split; reflexivity.
Defined.

(** C4: on a table whose rows all have [num_cols] cells, a successful
    [merge_cells(r0, c0, r1, c1)] followed by [split_cell(r0, c0)] keeps the
    grid dimensions, leaves every cell of the rectangle uncovered, 1x1 and
    without covered-by pointers, and every cell outside it as it was. *)
Theorem merge_split_restores t sr sc er ec :
  table_shape_ok t = true -> fst (merge_cells t sr sc er ec) = true ->
  topology_restored t (snd (split_cell (snd (merge_cells t sr sc er ec)) sr sc)) sr sc er ec.
Proof.
  intros Hs Hm.
  destruct (merge_cells t sr sc er ec) as [ok t1] eqn:Em; simpl in Hm; subst ok; simpl snd.
  destruct (merge_success t sr sc er ec t1 Hs Em) as (B1 & B2 & O1 & O2 & D1 & D2 & D3 & G).
  destruct (get_cell_shape t sr sc Hs) as [o Ho]; try lia.
  set (oc := set_origin (fold_left (collect_step t) (rect_positions sr sc er ec) [])
                        (er - sr + 1) (ec - sc + 1) o).
  assert (Go : get_cell t1 sr sc = Some oc) by (rewrite G, !Nat.eqb_refl, Ho; reflexivity).
  destruct (is_merge_origin oc) eqn:Eo.
  - destruct (split_success t1 sr sc oc Go Eo) as (_ & S1 & S2 & S3 & SG).
    unfold topology_restored.
    split; [congruence|]. split; [congruence|]. split; [congruence|]. split.
    + intros a b Hin. rewrite SG. unfold in_rect in Hin; bprop.
      destruct ((a =? sr) && (b =? sc)) eqn:Eab.
      * bprop; subst; eexists; repeat split; reflexivity.
      * destruct (get_cell_shape t a b Hs) as [cell Hc]; try lia.
        rewrite G, Eab, Hc.
        replace ((sr <=? a) && (a <? sr + row_span oc) && (sc <=? b) && (b <? sc + col_span oc))
          with true by (simpl; cmp).
        replace (in_rect sr sc er ec a b) with true by (unfold in_rect; cmp).
        eexists; repeat split; reflexivity.
    + intros a b Hout. rewrite SG, G.
      destruct ((a =? sr) && (b =? sc)) eqn:Eab; [bprop; subst; unfold in_rect in Hout; cmp|].
      rewrite Hout.
      replace ((sr <=? a) && (a <? sr + row_span oc) && (sc <=? b) && (b <? sc + col_span oc))
        with false by (unfold in_rect in Hout; simpl; cmp).
      reflexivity.
  - unfold split_cell; rewrite Go, Eo; simpl.
    unfold is_merge_origin in Eo; simpl in Eo; bprop.
    unfold topology_restored.
    split; [congruence|]. split; [congruence|]. split; [congruence|]. split.
    + intros a b Hin; unfold in_rect in Hin; bprop.
      assert (a = sr) by lia; assert (b = sc) by lia; subst.
      rewrite Go; eexists; repeat split; simpl; lia.
    + intros a b Hout. rewrite G, Hout.
      destruct ((a =? sr) && (b =? sc)) eqn:Eab; [bprop; subst; unfold in_rect in Hout; cmp|].
      reflexivity.
Qed.

Lemma merge_split_restores_witness :
  table_shape_ok (DocumentTable_new [] 2 3) = true /\
  fst (merge_cells (DocumentTable_new [] 2 3) 0 1 1 2) = true /\
  topology_restored (DocumentTable_new [] 2 3)
    (snd (split_cell (snd (merge_cells (DocumentTable_new [] 2 3) 0 1 1 2)) 0 1)) 0 1 1 2.
Proof.
  split; [reflexivity|split; [reflexivity|]].
  apply merge_split_restores; reflexivity.
Defined.

End TableClaims.

Module LayoutFacts.
Import Layout StyleFacts.

(** *** Byte slices *)

Lemma len_utf8_pos c : 1 <= len_utf8 c.
Proof. unfold len_utf8; destruct (c <? 128)%Z, (c <? 2048)%Z, (c <? 65536)%Z; lia. Qed.

Lemma drop_bytes_len k s r :
  drop_bytes k s = Some r -> byte_len r = byte_len s - k /\ k <= byte_len s.
Proof.
  revert k r; induction s as [|c s IH]; intros [|k] r H; cbn [drop_bytes] in H.
  - injection H as <-; simpl; lia.
  - discriminate.
  - injection H as <-; simpl; lia.
  - destruct (Nat.leb_spec (len_utf8 c) (S k)); [|discriminate].
    apply IH in H; cbn [byte_len]; lia.
Qed.

Lemma take_bytes_len k s t :
  take_bytes k s = Some t -> byte_len t = k /\ k <= byte_len s.
Proof.
  revert k t; induction s as [|c s IH]; intros [|k] t H; cbn [take_bytes] in H.
  - injection H as <-; simpl; lia.
  - discriminate.
  - injection H as <-; simpl; lia.
  - destruct (Nat.leb_spec (len_utf8 c) (S k)); [|discriminate].
    destruct (take_bytes (S k - len_utf8 c) s) eqn:E; [|discriminate].
    injection H as <-; apply IH in E; cbn [byte_len]; lia.
Qed.

Lemma slice_len a b s t :
  slice a b s = Some t -> byte_len t = b - a /\ a <= b /\ b <= byte_len s.
Proof.
  unfold slice; destruct (Nat.ltb_spec b a); [discriminate|].
  destruct (drop_bytes a s) eqn:Ed; [|discriminate]. intros Ht.
  apply drop_bytes_len in Ed; apply take_bytes_len in Ht; lia.
Qed.

(** *** Marking the last line *)

Lemma mark_last_cons x r : r <> [] -> mark_last (x :: r) = x :: mark_last r.
Proof. destruct r; [congruence|reflexivity]. Qed.

Lemma mark_last_nil r : r <> [] -> mark_last r <> [].
Proof. destruct r as [|x [|y r]]; simpl; congruence. Qed.

Lemma mark_last_forall (P : DisplayLine -> Prop) r :
  (forall dl, P dl -> P (set_last_line dl)) -> Forall P r -> Forall P (mark_last r).
Proof.
  intros HP; induction r as [|x [|y r] IH]; intros H; [constructor| |].
  - inversion H; subst; simpl; constructor; auto.
  - inversion H; subst. rewrite mark_last_cons by congruence; constructor; auto.
Qed.

(** *** The wrapping loop *)

Lemma text_line_ok_last pidx dl : text_line_ok pidx dl -> text_line_ok pidx (set_last_line dl).
Proof. unfold text_line_ok, is_marker; simpl; auto. Qed.

Lemma wrap_loop_spec mf fuel pidx txt bt lt ln fl clc fs ls base lh cw cur nl out :
  wrap_loop mf fuel pidx txt bt lt ln fl clc fs ls base lh cw cur nl = Some out ->
  Forall (text_line_ok pidx) out /\
  (cur < byte_len txt -> covers_range cur (byte_len txt) (mark_last out) = true) /\
  (byte_len txt <= cur -> out = []).
Proof.
  revert cur nl out; induction fuel as [|fuel IH]; intros cur nl out H.
  - cbn [wrap_loop] in H. destruct (Nat.ltb_spec cur (byte_len txt)); [discriminate|].
    injection H as <-. split; [constructor|split; [lia|reflexivity]].
  - cbn [wrap_loop] in H. destruct (Nat.ltb_spec cur (byte_len txt)) as [Hc|Hc];
      [|injection H as <-; split; [constructor|split; [lia|reflexivity]]].
    destruct (drop_bytes cur txt) as [rem|] eqn:Ed; [|discriminate].
    apply drop_bytes_len in Ed.
    destruct (Qle_bool _ _).
    + injection H as <-. split; [|split; [|lia]].
      * constructor; [|constructor]. unfold text_line_ok, is_marker; simpl; lia.
      * intros _; simpl; rewrite !Nat.eqb_refl; reflexivity.
    + destruct (break_loop _ _ _ _ _ _ _ _ _) as [le0|]; [|discriminate].
      set (line_end := if le0 <=? cur then cur + 1 else le0) in H.
      destruct (slice cur line_end txt) as [lt0|] eqn:Es; [|discriminate].
      apply slice_len in Es.
      destruct (wrap_loop mf fuel pidx txt bt lt ln fl clc fs ls base lh cw line_end (S nl))
        as [rest|] eqn:Ew; [|discriminate].
      injection H as <-. destruct (IH _ _ _ Ew) as (F & C & N).
      split; [|split; [|lia]].
      * constructor; [|exact F]. unfold text_line_ok, is_marker; simpl; lia.
      * intros _. destruct (Nat.ltb_spec line_end (byte_len txt)) as [Hl|Hl].
        -- specialize (C Hl).
           assert (rest <> []) by (intros ->; discriminate C).
           rewrite mark_last_cons by assumption.
           destruct (mark_last rest) as [|y r] eqn:Em; [exfalso; eapply mark_last_nil; eauto|].
           cbn [covers_range]; simpl; rewrite Nat.eqb_refl; simpl. exact C.
        -- rewrite N by exact Hl. simpl. rewrite Nat.eqb_refl.
           replace (line_end =? byte_len txt) with true by (symmetry; apply Nat.eqb_eq; lia).
           reflexivity.
Qed.

End LayoutFacts.

Module LayoutFacts2.
Import Layout StyleFacts LayoutFacts.

Lemma byte_len_pos c r : 0 < byte_len (c :: r).
Proof. cbn [byte_len]; pose proof (len_utf8_pos c); lia. Qed.

Lemma layout_paragraph_spec mf tf idx para doc cfg fl cs clc L fl' cs' :
  layout_paragraph mf tf idx para doc cfg fl cs clc = Some (L, fl', cs') ->
  para_lines_ok doc idx para L.
Proof.
  unfold layout_paragraph, para_lines_ok, text_path.
  destruct (Doc.is_page_break para); cbn [negb andb].
  { intros H; injection H as <- _ _.
    split; [congruence|split; repeat constructor]. }
  destruct (table_hit doc para) as [[tid tb]|]; cbn [negb andb].
  { intros H; injection H as <- _ _.
    split; [congruence|split; repeat constructor]. }
  destruct (image_hit doc para) as [[iid img]|]; cbn [negb andb].
  { intros H.
    assert (L = [marker_line idx (byte_len (Doc.text para)) false true (Some iid) (Some 0%Q)
                   (Doc.block_type (Doc.meta para)) Doc.LNone false None None] \/
            exists q, L = [marker_line idx (byte_len (Doc.text para)) false true (Some iid) q
                   (Doc.block_type (Doc.meta para)) Doc.LNone false None None]) as HL.
    { repeat match type of H with
             | (if ?c then _ else _) = _ => destruct c
             end; injection H as <- _ _; eauto. }
    destruct HL as [-> | [q ->]];
      (split; [congruence|split; repeat constructor]). }
  destruct (list_numbering _ cs) as [c2 ln].
  destruct (Doc.text para) as [|c r] eqn:Et; cbn [is_empty].
  { intros H; injection H as <- _ _. split; [congruence|].
    split; [repeat constructor|]. split; [|reflexivity].
    repeat constructor. }
  match goal with |- context [wrap_loop ?a ?b ?c ?d ?e ?f ?g ?h ?i ?j ?k ?l ?m ?n ?o] =>
    destruct (wrap_loop a b c d e f g h i j k l m n o) as [ls|] eqn:Ew end;
    [|discriminate].
  intros H; injection H as <- _ _.
  apply wrap_loop_spec in Ew. destruct Ew as (F & C & _).
  specialize (C (byte_len_pos c r)).
  assert (ls <> []) by (intros ->; discriminate C).
  split; [now apply mark_last_nil|].
  assert (F' : Forall (text_line_ok idx) (mark_last ls))
    by (apply mark_last_forall; [apply text_line_ok_last|exact F]).
  split; [|split; [exact F'|exact C]].
  eapply Forall_impl; [|exact F']. intros dl [? _]; assumption.
Qed.

End LayoutFacts2.

Module LayoutFacts3.
Import Layout StyleFacts LayoutFacts LayoutFacts2.

(** *** The paragraph loop *)

Lemma layout_paragraphs_spec mf tf doc cfg paras :
  forall idx acc fl cs out,
  layout_paragraphs mf tf doc cfg idx paras acc fl cs = Some out ->
  exists Ls, out = acc ++ concat Ls /\ length Ls = length paras /\
    forall i para Li, nth_error paras i = Some para -> nth_error Ls i = Some Li ->
      para_lines_ok doc (idx + i) para Li.
Proof.
  induction paras as [|pa r IH]; intros idx acc fl cs out H; simpl in H.
  - injection H as <-. exists []. split; [rewrite app_nil_r; reflexivity|].
    split; [reflexivity|]. intros [|i] ? ? E; discriminate E.
  - destruct (layout_paragraph mf tf idx pa doc cfg fl cs (length acc))
      as [[[L fl'] cs']|] eqn:El; [|discriminate].
    apply layout_paragraph_spec in El.
    destruct (IH _ _ _ _ _ H) as (Ls & -> & Hn & HL).
    exists (L :: Ls). split; [rewrite <- app_assoc; reflexivity|].
    split; [simpl; congruence|].
    intros [|i] para Li E1 E2; simpl in E1, E2.
    + injection E1 as <-; injection E2 as <-. rewrite Nat.add_0_r; exact El.
    + replace (idx + S i) with (S idx + i) by lia. eapply HL; eauto.
Qed.

Lemma indexed_tail n L Ls : indexed_from n (L :: Ls) -> indexed_from (S n) Ls.
Proof.
  intros H i Li E. replace (S n + i) with (n + S i) by lia. apply (H (S i)); exact E.
Qed.

Lemma indexed_head n L Ls : indexed_from n (L :: Ls) -> Forall (fun dl => para_index dl = n) L.
Proof. intros H. rewrite <- (Nat.add_0_r n). apply (H 0); reflexivity. Qed.

Lemma in_concat_indexed n Ls x :
  indexed_from n Ls -> In x (concat Ls) ->
  exists i Li, nth_error Ls i = Some Li /\ In x Li /\ para_index x = n + i.
Proof.
  revert n; induction Ls as [|L Ls IH]; intros n H Hx; [destruct Hx|].
  simpl in Hx. apply in_app_or in Hx as [Hx|Hx].
  - exists 0, L. split; [reflexivity|split; [exact Hx|]].
    rewrite Nat.add_0_r. pose proof (indexed_head _ _ _ H) as HL.
    rewrite Forall_forall in HL; apply HL; exact Hx.
  - destruct (IH (S n) (indexed_tail _ _ _ H) Hx) as (i & Li & E & Hi & Hp).
    exists (S i), Li. split; [exact E|split; [exact Hi|lia]].
Qed.

Lemma filter_none {A} (f : A -> bool) l :
  (forall x, In x l -> f x = false) -> filter f l = [].
Proof.
  induction l as [|x r IH]; intros H; [reflexivity|]. simpl.
  rewrite (H x (or_introl eq_refl)). apply IH; intros y Hy; apply H; right; exact Hy.
Qed.

Lemma filter_concat_indexed n Ls p :
  indexed_from n Ls -> n <= p ->
  filter (fun dl => para_index dl =? p) (concat Ls)
  = match nth_error Ls (p - n) with Some Li => Li | None => [] end.
Proof.
  revert n; induction Ls as [|L Ls IH]; intros n H Hp.
  - simpl. destruct (p - n); reflexivity.
  - simpl concat. rewrite filter_app.
    pose proof (indexed_head _ _ _ H) as HL.
    destruct (Nat.eqb_spec p n) as [->|Hne].
    + rewrite Nat.sub_diag. simpl.
      assert (EL : filter (fun dl => para_index dl =? n) L = L).
      { clear H; induction HL as [|x L' Hx _ IHL]; [reflexivity|].
        simpl. rewrite Hx, Nat.eqb_refl. f_equal; exact IHL. }
      assert (ET : filter (fun dl => para_index dl =? n) (concat Ls) = []).
      { apply filter_none; intros x Hx.
        destruct (in_concat_indexed _ _ _ (indexed_tail _ _ _ H) Hx) as (i & Li & _ & _ & Hi).
        apply Nat.eqb_neq; lia. }
      rewrite EL, ET, app_nil_r. reflexivity.
    + assert (EL : filter (fun dl => para_index dl =? p) L = []).
      { apply filter_none; intros x Hx.
        eapply Forall_forall in HL; [|exact Hx]. apply Nat.eqb_neq; lia. }
      rewrite EL. simpl. rewrite (IH (S n) (indexed_tail _ _ _ H)) by lia.
      replace (p - n) with (S (p - S n)) by lia. reflexivity.
Qed.

Lemma sorted_app {A} (k : A -> nat) (l1 l2 : list A) :
  Style.sorted_by k l1 = true -> Style.sorted_by k l2 = true ->
  (forall a b, In a l1 -> In b l2 -> k a <= k b) ->
  Style.sorted_by k (l1 ++ l2) = true.
Proof.
  induction l1 as [|x [|y r] IH]; intros H1 H2 H; [exact H2| |].
  - destruct l2 as [|z r2]; [reflexivity|]. simpl.
    apply andb_true_iff; split; [apply Nat.leb_le, H; simpl; auto|exact H2].
  - cbn [app]. change (Style.sorted_by k (x :: y :: r ++ l2))
      with ((k x <=? k y) && Style.sorted_by k (y :: r ++ l2)).
    change (Style.sorted_by k (x :: y :: r)) with ((k x <=? k y) && Style.sorted_by k (y :: r)) in H1.
    apply andb_true_iff in H1 as [Hxy H1].
    rewrite Hxy. apply IH; auto. intros a b Ha Hb; apply H; simpl in *; tauto.
Qed.

Lemma sorted_const {A} (k : A -> nat) c (l : list A) :
  Forall (fun x => k x = c) l -> Style.sorted_by k l = true.
Proof.
  induction l as [|x [|y r] IH]; intros H; [reflexivity|reflexivity|].
  apply Forall_cons_iff in H as [Hx Hr].
  pose proof (Forall_inv Hr) as Hy.
  change (Style.sorted_by k (x :: y :: r)) with ((k x <=? k y) && Style.sorted_by k (y :: r)).
  rewrite Hx, Hy, Nat.leb_refl. apply IH; exact Hr.
Qed.

Lemma sorted_concat_indexed n Ls :
  indexed_from n Ls -> Style.sorted_by para_index (concat Ls) = true.
Proof.
  revert n; induction Ls as [|L Ls IH]; intros n H; [reflexivity|].
  simpl concat. apply sorted_app.
  - eapply sorted_const, indexed_head; eauto.
  - eapply IH, indexed_tail; eauto.
  - intros a b Ha Hb.
    pose proof (indexed_head _ _ _ H) as HL. eapply Forall_forall in HL; [|exact Ha].
    destruct (in_concat_indexed _ _ _ (indexed_tail _ _ _ H) Hb) as (i & _ & _ & _ & Hi).
    lia.
Qed.

End LayoutFacts3.

Module LayoutFacts4.
Import Layout StyleFacts LayoutFacts LayoutFacts2 LayoutFacts3.

(** *** Pagination only writes positions *)

Lemma strip_with_position dl pg c xp yp : strip (with_position dl pg c xp yp) = strip dl.
Proof. reflexivity. Qed.

Lemma assign_loop_strip cfg ls : forall cy pg c,
  map strip (assign_loop cfg cy pg c ls) = map strip ls.
Proof.
  induction ls as [|dl r IH]; intros cy pg c; [reflexivity|].
  simpl. destruct (is_page_break dl); simpl.
  - rewrite IH; reflexivity.
  - destruct (if qlt _ _ then _ else _) as [[pg' c'] cy']. simpl. rewrite IH; reflexivity.
Qed.

Lemma assign_loop_length cfg ls : forall cy pg c, length (assign_loop cfg cy pg c ls) = length ls.
Proof.
  intros; rewrite <- (length_map strip), assign_loop_strip, length_map; reflexivity.
Qed.

Lemma map_strip_covers s e L : covers_range s e (map strip L) = covers_range s e L.
Proof.
  revert s; induction L as [|x [|y r] IH]; intros s; [reflexivity|reflexivity|].
  change (covers_range s e (map strip (x :: y :: r)))
    with ((start_offset x =? s) && negb (is_last_line x)
          && covers_range (end_offset x) e (map strip (y :: r))).
  rewrite IH; reflexivity.
Qed.

Lemma map_strip_filter_idx p L :
  filter (fun dl => para_index dl =? p) (map strip L)
  = map strip (filter (fun dl => para_index dl =? p) L).
Proof.
  induction L as [|x r IH]; [reflexivity|]. simpl.
  destruct (para_index x =? p); simpl; rewrite IH; reflexivity.
Qed.

Lemma map_strip_sorted L :
  Style.sorted_by para_index (map strip L) = Style.sorted_by para_index L.
Proof.
  induction L as [|x [|y r] IH]; [reflexivity|reflexivity|].
  change (Style.sorted_by para_index (map strip (x :: y :: r)))
    with ((para_index x <=? para_index y) && Style.sorted_by para_index (map strip (y :: r))).
  rewrite IH; reflexivity.
Qed.

Lemma map_strip_existsb p L :
  existsb (fun dl => para_index dl =? p) (map strip L)
  = existsb (fun dl => para_index dl =? p) L.
Proof. induction L as [|x r IH]; [reflexivity|]. simpl; rewrite IH; reflexivity. Qed.

(** Transport along [map strip]: the fields read by the statements agree. *)
Lemma strip_eq_covers s e L L' :
  map strip L = map strip L' -> covers_range s e L = covers_range s e L'.
Proof. intros H; rewrite <- map_strip_covers, H, map_strip_covers; reflexivity. Qed.

Lemma strip_eq_filter p L L' :
  map strip L = map strip L' ->
  map strip (filter (fun dl => para_index dl =? p) L)
  = map strip (filter (fun dl => para_index dl =? p) L').
Proof. intros H; rewrite <- !map_strip_filter_idx, H; reflexivity. Qed.

(** *** The paragraph pass of [compute_layout] *)

Lemma compute_layout_inv mf tf doc cfg out :
  compute_layout mf tf doc cfg = Some out ->
  exists Ls, map strip out = map strip (concat Ls) /\
    length Ls = length (Doc.paragraphs doc) /\ indexed_from 0 Ls /\
    forall i para Li, nth_error (Doc.paragraphs doc) i = Some para ->
      nth_error Ls i = Some Li -> para_lines_ok doc i para Li.
Proof.
  unfold compute_layout.
  destruct (layout_paragraphs _ _ _ _ _ _ _ _ _) as [ls|] eqn:E; [|discriminate].
  intros H; injection H as <-.
  destruct (layout_paragraphs_spec _ _ _ _ _ _ _ _ _ _ E) as (Ls & -> & Hn & HL).
  exists Ls. split; [apply assign_loop_strip|]. split; [exact Hn|].
  split; [|exact HL].
  intros i Li E2.
  destruct (nth_error (Doc.paragraphs doc) i) as [para|] eqn:E1.
  - exact (proj1 (proj2 (HL i para Li E1 E2))).
  - apply nth_error_None in E1. assert (i < length Ls) by (apply nth_error_Some; congruence).
    lia.
Qed.

End LayoutFacts4.

Module LayoutFacts5.
Import Layout StyleFacts LayoutFacts LayoutFacts2 LayoutFacts3 LayoutFacts4.

(** *** Every output line, traced back to its paragraph *)

Lemma compute_layout_line mf tf doc cfg out a :
  compute_layout mf tf doc cfg = Some out -> In a out ->
  exists para, nth_error (Doc.paragraphs doc) (para_index a) = Some para /\
    if text_path doc para then text_line_ok (para_index a) a
    else is_marker a = true /\ text a = [] /\ start_offset a = 0.
Proof.
  intros H Ha. destruct (compute_layout_inv _ _ _ _ _ H) as (Ls & Hs & Hn & Hi & HL).
  assert (Hsa : In (strip a) (map strip (concat Ls))) by (rewrite <- Hs; apply in_map; exact Ha).
  apply in_map_iff in Hsa as (a' & Heq & Ha').
  destruct (in_concat_indexed _ _ _ Hi Ha') as (i & Li & E2 & Hin & Hp).
  assert (Hpa : para_index a = i) by (change (para_index (strip a) = i); rewrite <- Heq; exact Hp).
  destruct (nth_error (Doc.paragraphs doc) i) as [para|] eqn:E1;
    [|apply nth_error_None in E1; assert (i < length Ls) by (apply nth_error_Some; congruence); lia].
  exists para. rewrite Hpa. split; [exact E1|].
  destruct (HL _ _ _ E1 E2) as (_ & _ & Hk).
  destruct (text_path doc para).
  - destruct Hk as [Hk _]. rewrite Forall_forall in Hk. specialize (Hk a' Hin).
    change (text_line_ok i (strip a)). rewrite <- Heq. exact Hk.
  - rewrite Forall_forall in Hk. destruct (Hk a' Hin) as [_ Hm].
    change (is_marker (strip a) = true /\ text (strip a) = [] /\ start_offset (strip a) = 0).
    rewrite <- Heq. exact Hm.
Qed.

Lemma compute_layout_kind mf tf doc cfg out a b :
  compute_layout mf tf doc cfg = Some out -> In a out -> In b out ->
  para_index a = para_index b -> is_marker b = false ->
  text_line_ok (para_index a) a.
Proof.
  intros H Ha Hb Hab Hm.
  destruct (compute_layout_line _ _ _ _ _ _ H Ha) as (pa & Ea & Ka).
  destruct (compute_layout_line _ _ _ _ _ _ H Hb) as (pb & Eb & Kb).
  rewrite <- Hab, Ea in Eb. injection Eb as <-.
  destruct (text_path doc pa); [exact Ka|destruct Kb as [Kb _]; congruence].
Qed.

(** *** The position search *)

Lemma para_to_display_from_spec L : forall i p o d,
  para_to_display_from i L p o = Some d ->
  exists k dl, nth_error L k = Some dl /\ line d = i + k /\ col d = o - start_offset dl /\
    para_index dl = p /\ start_offset dl <= o <= end_offset dl.
Proof.
  induction L as [|x r IH]; intros i p o d H; simpl in H; [discriminate|].
  destruct (Nat.eqb_spec (para_index x) p), (Nat.leb_spec (start_offset x) o),
    (Nat.leb_spec o (end_offset x)); simpl in H;
    try (destruct (IH _ _ _ _ H) as (k & dl & E & Q1 & Q2 & Q3 & Q4);
         exists (S k), dl; split; [exact E|]; repeat split; try lia; assumption).
  injection H as <-. exists 0, x. simpl. repeat split; auto; lia.
Qed.

Lemma para_to_display_from_found L : forall i p o dl,
  In dl L -> para_index dl = p -> start_offset dl <= o <= end_offset dl ->
  para_to_display_from i L p o <> None.
Proof.
  induction L as [|x r IH]; intros i p o dl Hin Hp Ho; [destruct Hin|].
  simpl. destruct Hin as [->|Hin].
  - rewrite Hp, Nat.eqb_refl. destruct (Nat.leb_spec (start_offset dl) o); [|lia].
    destruct (Nat.leb_spec o (end_offset dl)); [|lia]. simpl; congruence.
  - destruct (_ && _ && _); [congruence|]. eapply IH; eauto.
Qed.

Lemma compute_layout_covers mf tf doc cfg out p para :
  compute_layout mf tf doc cfg = Some out ->
  nth_error (Doc.paragraphs doc) p = Some para -> text_path doc para = true ->
  covers_range 0 (byte_len (Doc.text para)) (filter (fun dl => para_index dl =? p) out) = true.
Proof.
  intros H E1 Ht. destruct (compute_layout_inv _ _ _ _ _ H) as (Ls & Hs & Hn & Hi & HL).
  destruct (nth_error Ls p) as [Lp|] eqn:E2;
    [|apply nth_error_None in E2; assert (p < length (Doc.paragraphs doc))
        by (apply nth_error_Some; congruence); lia].
  destruct (HL _ _ _ E1 E2) as (_ & _ & Hc). rewrite Ht in Hc. destruct Hc as [_ Hc].
  rewrite <- map_strip_covers, (strip_eq_filter _ _ _ Hs), map_strip_covers.
  rewrite (filter_concat_indexed 0 Ls p Hi) by lia.
  rewrite Nat.sub_0_r, E2. exact Hc.
Qed.

End LayoutFacts5.

Module LayoutFacts6.
Import Layout StyleFacts.

(** *** Pagination *)

Lemma pc_lt_trans a b c : pc_lt a b -> pc_lt b c -> pc_lt a c.
Proof. unfold pc_lt; lia. Qed.

Lemma pc_lt_irrefl a : ~ pc_lt a a.
Proof. unfold pc_lt; lia. Qed.

(** Each non-page-break line either fits, or lies in a column after the
    starting one and after the columns of all the lines before it. *)
Lemma assign_loop_fit cfg ls : forall cy pg c j b,
  nth_error (assign_loop cfg cy pg c ls) j = Some b -> is_page_break b = false ->
  fits cfg b \/
  (pc_lt (pg, c) (page_col b) /\
   forall i a, i < j -> nth_error (assign_loop cfg cy pg c ls) i = Some a ->
     pc_lt (page_col a) (page_col b)).
Proof.
  induction ls as [|dl r IH]; intros cy pg c j b Hj Hb; [destruct j; discriminate|].
  cbn [assign_loop] in Hj |- *.
  destruct (is_page_break dl) eqn:Ep.
  - destruct j as [|j]; simpl in Hj.
    + injection Hj as <-. simpl in Hb. congruence.
    + destruct (IH _ _ _ _ _ Hj Hb) as [F|[Hl Ha]]; [left; exact F|right].
      split; [eapply pc_lt_trans; [|exact Hl]; unfold pc_lt; simpl; lia|].
      intros [|i] a Hi Ea; simpl in Ea.
      * injection Ea as <-. eapply pc_lt_trans; [|exact Hl]. unfold pc_lt, page_col; simpl; lia.
      * apply (Ha i); [lia|exact Ea].
  - set (h := effective_height cfg dl) in *.
    destruct (qlt (content_height cfg) (cy + h)) eqn:Eq.
    + (* overflow: a new column or page *)
      assert (Hs : pc_lt (pg, c) (if (1 <? columns cfg) && (c <? columns cfg - 1)
                                  then (pg, S c) else (S pg, 0))).
      { destruct (_ && _); unfold pc_lt; simpl; lia. }
      destruct ((1 <? columns cfg) && (c <? columns cfg - 1)) eqn:Ec; cbn iota zeta in Hj |- *;
      (destruct j as [|j]; simpl in Hj;
       [injection Hj as <-; right; split; [exact Hs|intros i a Hi; lia]|]);
      (destruct (IH _ _ _ _ _ Hj Hb) as [F|[Hl Ha]]; [left; exact F|right];
       split; [eapply pc_lt_trans; [exact Hs|exact Hl]|];
       intros [|i] a Hi Ea; simpl in Ea;
       [injection Ea as <-; exact Hl|apply (Ha i); [lia|exact Ea]]).
    + (* the line stays in place, and fits *)
      cbn iota zeta in Hj |- *.
      destruct j as [|j]; simpl in Hj.
      * injection Hj as <-. left. unfold fits; simpl. fold h.
        unfold qlt in Eq. apply negb_false_iff, Qle_bool_iff in Eq. exact Eq.
      * destruct (IH _ _ _ _ _ Hj Hb) as [F|[Hl Ha]]; [left; exact F|right].
        split; [exact Hl|].
        intros [|i] a Hi Ea; simpl in Ea;
          [injection Ea as <-; exact Hl|apply (Ha i); [lia|exact Ea]].
Qed.

End LayoutFacts6.

Module LayoutFacts7.
Import Layout StyleFacts LayoutFacts LayoutFacts2 LayoutFacts3 LayoutFacts4 LayoutFacts5.

(** *** List counters *)

Lemma wrap_loop_first mf fuel pidx txt bt lt ln fl clc fs ls base lh cw cur dl r :
  wrap_loop mf fuel pidx txt bt lt ln fl clc fs ls base lh cw cur 0 = Some (dl :: r) ->
  list_number dl = ln.
Proof.
  intros H. destruct fuel; cbn [wrap_loop] in H; destruct (cur <? byte_len txt); try discriminate.
  destruct (drop_bytes cur txt); [|discriminate].
  destruct (Qle_bool _ _); [injection H as <- _; reflexivity|].
  destruct (break_loop _ _ _ _ _ _ _ _ _); [|discriminate].
  destruct (slice _ _ _); [|discriminate].
  destruct (wrap_loop _ _ _ _ _ _ _ _ _ _ _ _ _ _ _ _); [|discriminate].
  injection H as <- _; reflexivity.
Qed.

Lemma mark_last_head dl r :
  exists dl' r', mark_last (dl :: r) = dl' :: r' /\ list_number dl' = list_number dl.
Proof. destruct r; simpl; eauto. Qed.

Lemma layout_paragraph_counters mf tf idx para doc cfg fl cs clc L fl' cs' :
  layout_paragraph mf tf idx para doc cfg fl cs clc = Some (L, fl', cs') ->
  if text_path doc para then
    cs' = fst (list_numbering (Doc.list_type (Doc.meta para)) cs) /\
    exists dl r, L = dl :: r /\
      list_number dl = snd (list_numbering (Doc.list_type (Doc.meta para)) cs)
  else cs' = cs.
Proof.
  unfold layout_paragraph, text_path.
  destruct (Doc.is_page_break para); cbn [negb andb].
  { intros H; injection H as _ _ <-; reflexivity. }
  destruct (table_hit doc para) as [[tid tb]|]; cbn [negb andb].
  { intros H; injection H as _ _ <-; reflexivity. }
  destruct (image_hit doc para) as [[iid img]|]; cbn [negb andb].
  { intros H. repeat match type of H with
                     | (if ?c then _ else _) = _ => destruct c
                     end; injection H as _ _ <-; reflexivity. }
  destruct (list_numbering _ cs) as [c2 ln]; cbn [fst snd].
  destruct (Doc.text para) as [|c t] eqn:Et; cbn [is_empty].
  { intros H; injection H as <- _ <-. split; [reflexivity|]. eauto. }
  match goal with |- context [wrap_loop ?a ?b ?c ?d ?e ?f ?g ?h ?i ?j ?k ?l ?m ?n ?o] =>
    destruct (wrap_loop a b c d e f g h i j k l m n o) as [ls|] eqn:Ew end;
    [|discriminate].
  intros H; injection H as <- _ <-. split; [reflexivity|].
  destruct ls as [|x r].
  - (* the loop yields a line for a non-empty text *)
    apply wrap_loop_spec in Ew. destruct Ew as (_ & C & _).
    specialize (C (byte_len_pos c t)). discriminate C.
  - apply wrap_loop_first in Ew. destruct (mark_last_head x r) as (dl' & r' & E & Hn).
    exists dl', r'. split; [exact E|congruence].
Qed.

(** *** Dangling markers *)

Lemma dangling_text_path doc para iid :
  (Doc.image_id para = Some iid /\ Doc.find_image doc iid = None) \/
  (Doc.table_id para = Some iid /\ Doc.find_table doc iid = None) ->
  text_path doc para = true.
Proof.
  unfold text_path, table_hit, image_hit, Doc.is_page_break, Doc.image_id, Doc.table_id.
  destruct (Doc.text para) as [|c r]; [intros [[H _]|[H _]]; discriminate|].
  intros [[H1 H2]|[H1 H2]].
  - destruct (Z.eqb_spec c Doc.IMAGE_MARK) as [->|]; [|discriminate].
    injection H1 as ->. rewrite H2. vm_compute. reflexivity.
  - destruct (Z.eqb_spec c Doc.TABLE_MARK) as [->|]; [|discriminate].
    injection H1 as ->. rewrite H2. vm_compute. reflexivity.
Qed.

Lemma covers_nonempty L : forall s e,
  covers_range s e L = true -> s < e ->
  Forall (fun dl => byte_len (text dl) = end_offset dl - start_offset dl) L ->
  exists dl, In dl L /\ text dl <> [].
Proof.
  induction L as [|x [|y r] IH]; intros s e H Hse HF; [discriminate| |].
  - apply andb_true_iff in H as [H _]. apply andb_true_iff in H as [H1 H2].
    apply Nat.eqb_eq in H1, H2. exists x. split; [left; reflexivity|].
    intros Ht. pose proof (Forall_inv HF) as Hb; cbv beta in Hb. rewrite Ht in Hb. simpl in Hb. lia.
  - change (covers_range s e (x :: y :: r))
      with ((start_offset x =? s) && negb (is_last_line x) && covers_range (end_offset x) e (y :: r))
      in H.
    apply andb_true_iff in H as [H H3]. apply andb_true_iff in H as [H1 _].
    apply Nat.eqb_eq in H1. pose proof (Forall_inv HF) as Hb; cbv beta in Hb.
    destruct (Nat.ltb_spec (start_offset x) (end_offset x)).
    + exists x. split; [left; reflexivity|]. intros Ht. rewrite Ht in Hb. simpl in Hb. lia.
    + destruct (IH (end_offset x) e H3 ltac:(lia) (Forall_inv_tail HF)) as (dl & Hin & Ht).
      exists dl. split; [right; exact Hin|exact Ht].
Qed.

(** *** Text measurement *)

Lemma byte_len_ascii txt : forallb (fun c => (c <? 128)%Z) txt = true -> byte_len txt = length txt.
Proof.
  induction txt as [|c r IH]; [reflexivity|]. simpl. intros H.
  apply andb_true_iff in H as [H1 H2]. unfold len_utf8. rewrite H1, IH by exact H2. reflexivity.
Qed.

End LayoutFacts7.

Module LayoutClaims.
Import Layout Examples StyleFacts LayoutFacts LayoutFacts2 LayoutFacts3 LayoutFacts4 LayoutFacts5
  LayoutFacts6 LayoutFacts7.

(** C10: whenever [compute_layout] succeeds, every paragraph index of the
    document has at least one display line; the lines' paragraph indices are
    non-decreasing; and for every paragraph laid out on the plain-text path,
    its lines cover its bytes contiguously: the first starts at 0, each
    starts where the previous ends, the last ends at the text's byte length,
    and exactly the last one is flagged [is_last_line]. *)
Theorem compute_layout_structure mf tf doc cfg out :
  compute_layout mf tf doc cfg = Some out ->
  (forall p, p < length (Doc.paragraphs doc) ->
     existsb (fun dl => para_index dl =? p) out = true) /\
  Style.sorted_by para_index out = true /\
  (forall p para, nth_error (Doc.paragraphs doc) p = Some para ->
     text_path doc para = true ->
     covers_range 0 (byte_len (Doc.text para)) (filter (fun dl => para_index dl =? p) out)
     = true).
Proof.
  intros H. destruct (compute_layout_inv _ _ _ _ _ H) as (Ls & Hs & Hn & Hi & HL).
  split; [|split].
  - intros p Hp.
    destruct (nth_error (Doc.paragraphs doc) p) as [para|] eqn:E1;
      [|apply nth_error_None in E1; lia].
    destruct (nth_error Ls p) as [Lp|] eqn:E2; [|apply nth_error_None in E2; lia].
    destruct (HL _ _ _ E1 E2) as (Hne & Hidx & _).
    destruct Lp as [|x Lp]; [congruence|].
    rewrite <- map_strip_existsb, Hs, map_strip_existsb.
    apply existsb_exists. exists x. split.
    + apply in_concat. exists (x :: Lp). split; [eapply nth_error_In; eauto|left; reflexivity].
    + apply Nat.eqb_eq. exact (Forall_inv Hidx).
  - rewrite <- map_strip_sorted, Hs, map_strip_sorted. eapply sorted_concat_indexed; eauto.
  - intros p para E1 Ht. eapply compute_layout_covers; eauto.
Qed.


(** C10, on a sample: "hello world" wrapped in two lines, a page break and
    an empty paragraph. *)
Lemma compute_layout_structure_witness :
  exists out, compute_layout ex_measure ex_table_layout ex_doc_mixed ex_config = Some out /\
  ((forall p, p < length (Doc.paragraphs ex_doc_mixed) ->
     existsb (fun dl => para_index dl =? p) out = true) /\
   Style.sorted_by para_index out = true /\
   (forall p para, nth_error (Doc.paragraphs ex_doc_mixed) p = Some para ->
     text_path ex_doc_mixed para = true ->
     covers_range 0 (byte_len (Doc.text para)) (filter (fun dl => para_index dl =? p) out)
     = true)).
Proof.
  eexists; split; [vm_compute; reflexivity|].
  apply (compute_layout_structure ex_measure ex_table_layout ex_doc_mixed ex_config).
  vm_compute; reflexivity.
Defined.

(** C1 (counterexample): a page-break line covers the range [0, 1] of its
    paragraph, but its text is empty, so offset 1 comes back as offset 0. *)
Lemma para_display_roundtrip_counterexample :
  exists out dl, compute_layout ex_measure ex_table_layout ex_doc_break ex_config = Some out /\
    In dl out /\ para_index dl = 0 /\ start_offset dl <= 1 <= end_offset dl /\
    display_to_para out (line (para_to_display_pos out 0 1)) (col (para_to_display_pos out 0 1))
    <> mkParagraphPosition 0 1.
Proof.
  eexists; eexists; split; [vm_compute; reflexivity|].
  split; [left; reflexivity|]. split; [reflexivity|]. split; [cbn; lia|].
  vm_compute. congruence.
Qed.

(** C1 (amended): in the output of [compute_layout], for every offset [o]
    inside the byte range [start, end] (ends included) of some line [dl] of
    paragraph [p], mapping [(p, o)] to a display position and back gives
    [(p, o)] again when [dl] is a text line, and [(p, start)] of [dl] when
    [dl] is a page-break, image or table marker: marker lines carry empty
    text, so the column clamps to 0. *)
Theorem para_display_roundtrip mf tf doc cfg out dl p o :
  compute_layout mf tf doc cfg = Some out -> In dl out -> para_index dl = p ->
  start_offset dl <= o <= end_offset dl ->
  display_to_para out (line (para_to_display_pos out p o)) (col (para_to_display_pos out p o))
  = mkParagraphPosition p (if is_marker dl then start_offset dl else o).
Proof.
  intros H Hin Hp Ho. unfold para_to_display_pos.
  destruct (para_to_display_from 0 out p o) as [d|] eqn:E;
    [|exfalso; eapply para_to_display_from_found; eauto].
  destruct (para_to_display_from_spec _ _ _ _ _ E) as (k & dl' & Ek & Hl & Hc & Hp' & Ho').
  unfold display_to_para. rewrite Hl. simpl. rewrite Ek.
  destruct (is_marker dl) eqn:Hm.
  - destruct (compute_layout_line _ _ _ _ _ _ H Hin) as (pa & Ea & Ka).
    destruct (compute_layout_line _ _ _ _ _ _ H (nth_error_In _ _ Ek)) as (pb & Eb & Kb).
    rewrite Hp' in Eb. rewrite Hp, Eb in Ea. injection Ea as <-.
    destruct (text_path doc pb).
    + destruct Ka as (_ & Ka & _); congruence.
    + destruct Ka as (_ & _ & Sa). destruct Kb as (_ & Tb & Sb).
      rewrite Tb, Sb, Sa, Hp'. cbn [byte_len]. f_equal. lia.
  - assert (Hk : text_line_ok (para_index dl') dl')
      by (eapply (compute_layout_kind _ _ _ _ _ _ _ H (nth_error_In _ _ Ek) Hin); congruence).
    destruct Hk as (_ & _ & Hb). rewrite Hc, Hb, Hp'. f_equal. lia.
Qed.

(** C1, on a sample: offset 1 of a page break comes back as its start, 0. *)
Lemma para_display_roundtrip_witness :
  exists out dl, compute_layout ex_measure ex_table_layout ex_doc_break ex_config = Some out /\
    In dl out /\ para_index dl = 0 /\ start_offset dl <= 1 <= end_offset dl /\
    display_to_para out (line (para_to_display_pos out 0 1)) (col (para_to_display_pos out 0 1))
    = mkParagraphPosition 0 (if is_marker dl then start_offset dl else 1).
Proof.
  eexists; eexists; split; [vm_compute; reflexivity|].
  split; [left; reflexivity|]. split; [reflexivity|]. split; [cbn; lia|].
  eapply (para_display_roundtrip ex_measure ex_table_layout ex_doc_break ex_config).
  - vm_compute; reflexivity.
  - left; reflexivity.
  - reflexivity.
  - cbn; lia.
Defined.


(** C2 (counterexample): a page-break line is placed at the current height
    without any overflow test; after a 60 px line and 50 px of paragraph
    spacing it sits at y = 110 in the first column of a 100 px high page,
    behind another line of that column. *)
Lemma pagination_fit_counterexample :
  exists out a b, compute_layout ex_measure ex_table_layout ex_doc_text_break ex_config_short
                  = Some out /\
    nth_error out 0 = Some a /\ nth_error out 1 = Some b /\ page_col a = page_col b /\
    is_page_break b = true /\
    (content_height ex_config_short < y_position b)%Q /\ ~ fits ex_config_short b.
Proof.
  do 3 eexists; split; [vm_compute; reflexivity|].
  split; [reflexivity|]. split; [reflexivity|]. split; [reflexivity|]. split; [reflexivity|].
  split; [vm_compute; reflexivity|].
  unfold fits; intros H; apply Qle_bool_iff in H; vm_compute in H; discriminate H.
Qed.

(** C2 (amended): after [assign_page_positions], every line that is not a
    page break and has an earlier line in the same (page, column) ends
    within the content height; page-break lines are placed at the current
    height unchecked. When a line that is not a page break overflows, the
    loop places it at [y = 0] in the next column if one remains on the page,
    else on the next page in column 0. *)
Theorem pagination_fit (cfg : LayoutConfig) :
  (forall ls i j a b, i < j ->
     nth_error (assign_page_positions ls cfg) i = Some a ->
     nth_error (assign_page_positions ls cfg) j = Some b ->
     page_col a = page_col b -> is_page_break b = false -> fits cfg b) /\
  (forall cy pg c dl r, is_page_break dl = false ->
     qlt (content_height cfg) (cy + effective_height cfg dl)%Q = true ->
     exists b r', assign_loop cfg cy pg c (dl :: r) = b :: r' /\ y_position b = 0%Q /\
       page_col b = if (1 <? columns cfg) && (c <? columns cfg - 1) then (pg, S c) else (S pg, 0)).
Proof.
  split.
  - intros ls i j a b Hij Ea Eb Hab Hb.
    destruct (assign_loop_fit cfg ls 0 0 0 j b Eb Hb) as [F|[_ Ha]]; [exact F|].
    exfalso. specialize (Ha i a Hij Ea). rewrite Hab in Ha. exact (pc_lt_irrefl _ Ha).
  - intros cy pg c dl r Hp Hq. cbn [assign_loop]. rewrite Hp, Hq.
    destruct (_ && _); cbn iota zeta; do 2 eexists; split; try reflexivity; split; reflexivity.
Qed.

(** C2, on a sample: the second of two short lines shares the first one's
    column, and fits. *)
Lemma pagination_fit_witness :
  exists a b, nth_error (assign_page_positions ex_lines ex_config) 0 = Some a /\
    nth_error (assign_page_positions ex_lines ex_config) 1 = Some b /\
    page_col a = page_col b /\ is_page_break b = false /\ fits ex_config b.
Proof.
  do 2 eexists; split; [vm_compute; reflexivity|]. split; [vm_compute; reflexivity|].
  split; [reflexivity|]. split; [reflexivity|].
  eapply (proj1 (pagination_fit ex_config) ex_lines 0 1); [lia|vm_compute; reflexivity..].
Defined.


(** C7 (counterexample): numbered "a", bullet "b", numbered "c" are numbered
    1, none, 2: the bullet paragraph does not clear the running count. *)
Lemma list_counters_counterexample :
  option_map (map list_number)
    (compute_layout ex_measure ex_table_layout ex_doc_lists ex_config)
  = Some [Some 1; None; Some 2].
Proof. vm_compute. reflexivity. Qed.

(** C7 (amended): the counters after a paragraph. A page break, a table or
    an image paragraph leaves them unchanged; on the plain-text path a
    numbered paragraph gets the last count plus one (1 after none) and
    stores it, a bullet paragraph leaves the counters unchanged and gets no
    number, and a paragraph with list type none clears them, so only such a
    paragraph restarts the numbering. *)
Theorem list_counters_step mf tf idx para doc cfg fl cs clc L fl' cs' :
  layout_paragraph mf tf idx para doc cfg fl cs clc = Some (L, fl', cs') ->
  (text_path doc para = false -> cs' = cs) /\
  (text_path doc para = true -> Doc.list_type (Doc.meta para) = Doc.Numbered ->
     let n := match last_opt cs with Some k => k | None => 0 end + 1 in
     cs' = removelast cs ++ [n] /\ exists dl r, L = dl :: r /\ list_number dl = Some n) /\
  (text_path doc para = true -> Doc.list_type (Doc.meta para) = Doc.Bullet ->
     cs' = cs /\ exists dl r, L = dl :: r /\ list_number dl = None) /\
  (text_path doc para = true -> Doc.list_type (Doc.meta para) = Doc.LNone ->
     cs' = [] /\ exists dl r, L = dl :: r /\ list_number dl = None).
Proof.
  intros H. apply layout_paragraph_counters in H.
  destruct (text_path doc para).
  - destruct H as [Hc Hl]. split; [discriminate|].
    unfold list_numbering in Hc, Hl.
    split; [|split]; intros _ Et; rewrite Et in Hc, Hl; cbn [fst snd] in Hc, Hl;
      (split; [|exact Hl]); [|exact Hc|exact Hc].
    rewrite Hc. destruct cs; reflexivity.
  - split; [intros _; exact H|]. split; [|split]; discriminate.
Qed.

(** C7, on a sample: the bullet paragraph "b" after the numbered "a". *)
Lemma list_counters_step_witness :
  exists L fl' cs',
    layout_paragraph ex_measure ex_table_layout 1 (ex_para [98]%Z Doc.Bullet) ex_doc_lists
      ex_config [] [1] 1 = Some (L, fl', cs') /\
    text_path ex_doc_lists (ex_para [98]%Z Doc.Bullet) = true /\
    cs' = [1] /\ exists dl r, L = dl :: r /\ list_number dl = None.
Proof.
  do 3 eexists; split; [vm_compute; reflexivity|]. split; [reflexivity|].
  eapply (proj1 (proj2 (proj2 (list_counters_step ex_measure ex_table_layout 1
            (ex_para [98]%Z Doc.Bullet) ex_doc_lists ex_config [] [1] 1 _ _ _
            ltac:(vm_compute; reflexivity))))); reflexivity.
Defined.

(** C8 (counterexample): a paragraph made of the image sentinel and the id
    "a", in a document without images, is laid out as an ordinary text line
    showing the sentinel and the id. *)
Lemma dangling_marker_counterexample :
  exists out dl, compute_layout ex_measure ex_table_layout ex_doc_dangling ex_config = Some out /\
    In dl out /\ para_index dl = 0 /\ is_marker dl = false /\ text dl = [Doc.IMAGE_MARK; 97]%Z.
Proof.
  eexists; eexists; split; [vm_compute; reflexivity|].
  split; [left; reflexivity|]. repeat split.
Qed.

(** C8 (amended): a marker paragraph naming an image or a table the
    document does not contain is laid out on the plain-text path: its lines
    are text lines (no page break, image or table line), they cover its
    byte range contiguously as for any text paragraph (so position mapping
    stays continuous over it), and one of them shows a non-empty text, the
    sentinel character and the id. *)
Theorem dangling_marker_layout mf tf doc cfg out p para iid :
  compute_layout mf tf doc cfg = Some out ->
  nth_error (Doc.paragraphs doc) p = Some para ->
  (Doc.image_id para = Some iid /\ Doc.find_image doc iid = None) \/
  (Doc.table_id para = Some iid /\ Doc.find_table doc iid = None) ->
  text_path doc para = true /\
  Forall (text_line_ok p) (filter (fun dl => para_index dl =? p) out) /\
  covers_range 0 (byte_len (Doc.text para)) (filter (fun dl => para_index dl =? p) out) = true /\
  exists dl, In dl out /\ para_index dl = p /\ text dl <> [].
Proof.
  intros H E1 Hd. pose proof (dangling_text_path _ _ _ Hd) as Ht.
  assert (HF : Forall (text_line_ok p) (filter (fun dl => para_index dl =? p) out)).
  { apply Forall_forall. intros x Hx. apply filter_In in Hx as [Hx Hp].
    apply Nat.eqb_eq in Hp. subst p.
    destruct (compute_layout_line _ _ _ _ _ _ H Hx) as (pa & Ea & K).
    rewrite E1 in Ea. injection Ea as <-. rewrite Ht in K. exact K. }
  pose proof (compute_layout_covers _ _ _ _ _ _ _ H E1 Ht) as Hc.
  split; [exact Ht|]. split; [exact HF|]. split; [exact Hc|].
  assert (Hpos : 0 < byte_len (Doc.text para)).
  { destruct Hd as [[Hi _]|[Hi _]]; unfold Doc.image_id, Doc.table_id in Hi;
      destruct (Doc.text para) as [|c r]; try discriminate; apply byte_len_pos. }
  destruct (covers_nonempty _ _ _ Hc Hpos) as (dl & Hin & Hne).
  - eapply Forall_impl; [|exact HF]. intros x (_ & _ & Hx); exact Hx.
  - apply filter_In in Hin as [Hin Hp]. apply Nat.eqb_eq in Hp.
    exists dl. auto.
Qed.

(** C8, on a sample: an image marker naming no image. *)
Lemma dangling_marker_layout_witness :
  exists out, compute_layout ex_measure ex_table_layout ex_doc_dangling ex_config = Some out /\
    text_path ex_doc_dangling (ex_para [Doc.IMAGE_MARK; 97]%Z Doc.LNone) = true /\
    Forall (text_line_ok 0) (filter (fun dl => para_index dl =? 0) out) /\
    covers_range 0 (byte_len [Doc.IMAGE_MARK; 97]%Z) (filter (fun dl => para_index dl =? 0) out)
    = true /\
    exists dl, In dl out /\ para_index dl = 0 /\ text dl <> [].
Proof.
  eexists; split; [vm_compute; reflexivity|].
  apply (dangling_marker_layout ex_measure ex_table_layout ex_doc_dangling ex_config _ 0
           (ex_para [Doc.IMAGE_MARK; 97]%Z Doc.LNone) [97]%Z).
  - vm_compute; reflexivity.
  - reflexivity.
  - left; split; reflexivity.
Defined.

(** C9 (counterexample): when the measurement call returns a non-number,
    the letter spacing is added to the fallback width: "ab" at size 10 with
    spacing 1 measures 11, not 2 x 10 x 0.5 = 10. *)
Lemma measure_text_fallback_counterexample :
  ~ (measure_text ex_measure_other [97; 98]%Z 10 1
     == inject_Z (Z.of_nat (length [97; 98]%Z)) * 10 * (1 # 2))%Q.
Proof. intros H. vm_compute in H. discriminate H. Qed.

(** C9 (amended): for a text of ASCII characters (where the byte length
    the code uses is the character count), a failed measurement call gives
    [charCount * fontSize * 0.5], and a non-numeric result gives that plus
    the letter spacing [(charCount - 1) * letterSpacing] when the text has
    more than one character. *)
Theorem measure_text_fallback mf txt fs ls :
  forallb (fun c => (c <? 128)%Z) txt = true ->
  (mf txt fs = CallErr ->
     measure_text mf txt fs ls = (inject_Z (Z.of_nat (length txt)) * fs * (1 # 2))%Q) /\
  (mf txt fs = CallOk JsOther ->
     measure_text mf txt fs ls
     = (inject_Z (Z.of_nat (length txt)) * fs * (1 # 2)
        + if 1 <? length txt then inject_Z (Z.of_nat (length txt - 1)) * ls else 0)%Q).
Proof.
  intros Ha. unfold measure_text. rewrite (byte_len_ascii _ Ha).
  split; intros E; rewrite E; reflexivity.
Qed.

(** C9, on a sample: "ab" with a non-numeric measurement. *)
Lemma measure_text_fallback_witness :
  forallb (fun c => (c <? 128)%Z) [97; 98]%Z = true /\
  measure_text ex_measure_other [97; 98]%Z 10 1
  = (inject_Z (Z.of_nat (length [97; 98]%Z)) * 10 * (1 # 2)
     + if 1 <? length [97; 98]%Z then inject_Z (Z.of_nat (length [97; 98]%Z - 1)) * 1 else 0)%Q.
Proof.
  split; [reflexivity|].
  apply (measure_text_fallback ex_measure_other [97; 98]%Z 10 1); reflexivity.
Defined.

End LayoutClaims.

(* ================================================================== *)
(** ** Text utilities *)

Module TextFacts.
Import RStr Text.

Lemma ci_nth base t k :
  nth_error (char_indices_from base t) k =
  match nth_error t k with
  | Some c => Some (base + byte_len (firstn k t), c)
  | None => None
  end.
Proof.
  revert base k; induction t as [|c r IH]; intros base k.
  - destruct k; reflexivity.
  - destruct k as [|k]; cbn [char_indices_from nth_error firstn byte_len].
    + rewrite Nat.add_0_r; reflexivity.
    + rewrite IH. destruct (nth_error r k); [|reflexivity].
      f_equal; f_equal; lia.
Qed.

Lemma take_bytes_prefix t k :
  take_bytes (byte_len (firstn k t)) t = Some (firstn k t).
Proof.
  revert k; induction t as [|c r IH]; intros k.
  - destruct k; reflexivity.
  - destruct k as [|k]; [reflexivity|].
    cbn [firstn byte_len].
    pose proof (LayoutFacts.len_utf8_pos c) as Hc.
    destruct (len_utf8 c + byte_len (firstn k r)) as [|m] eqn:E; [lia|].
    cbn [take_bytes]. rewrite <- E.
    replace (len_utf8 c <=? len_utf8 c + byte_len (firstn k r)) with true
      by (symmetry; apply Nat.leb_le; lia).
    replace (len_utf8 c + byte_len (firstn k r) - len_utf8 c)
      with (byte_len (firstn k r)) by lia.
    rewrite IH; reflexivity.
Qed.

Lemma take_bytes_inv m t p :
  take_bytes m t = Some p -> p = firstn (length p) t /\ m = byte_len p.
Proof.
  revert m p; induction t as [|c r IH]; intros m p H.
  - destruct m; cbn in H; inversion H; subst; split; reflexivity.
  - destruct m as [|m].
    + cbn in H; inversion H; subst; split; reflexivity.
    + cbn [take_bytes] in H.
      destruct (len_utf8 c <=? S m) eqn:E; [|discriminate].
      apply Nat.leb_le in E.
      destruct (take_bytes (S m - len_utf8 c) r) as [q|] eqn:Eq; [|discriminate].
      inversion H; subst.
      destruct (IH _ _ Eq) as [H1 H2].
      cbn [length firstn byte_len]. split; [congruence|lia].
Qed.

Lemma byte_len_firstn_le k t : byte_len (firstn k t) <= byte_len t.
Proof.
  revert k; induction t as [|c r IH]; intros [|k]; cbn [firstn byte_len]; try lia.
  specialize (IH k); lia.
Qed.

Lemma byte_len_firstn_lt k t : k < length t -> byte_len (firstn k t) < byte_len t.
Proof.
  revert k; induction t as [|c r IH]; intros [|k] H; cbn [firstn byte_len length] in *;
    try lia.
  - pose proof (byte_len_firstn_le 0 r); pose proof (LayoutFacts.len_utf8_pos c);
    cbn in *; lia.
  - specialize (IH k ltac:(lia)); lia.
Qed.

Lemma firstn_add {A} a b (u : list A) :
  firstn (a + b) u = firstn a u ++ firstn b (skipn a u).
Proof.
  revert u; induction a as [|a IH]; intros u; [reflexivity|].
  destruct u as [|x u]; cbn.
  - destruct b; reflexivity.
  - f_equal; apply IH.
Qed.

Lemma punct_not_space c : is_ascii_punctuation c = true -> is_whitespace c = false.
Proof.
  unfold is_ascii_punctuation, is_whitespace; intros H.
  repeat rewrite orb_true_iff, ?andb_true_iff, ?Z.leb_le in H.
  apply not_true_is_false; intros H'.
  repeat rewrite orb_true_iff, ?andb_true_iff, ?Z.leb_le, ?Z.eqb_eq in H'.
  lia.
Qed.

Lemma skip_word_spec cs pos :
  let r := skip_word cs pos in
  pos <= r <= pos + length cs /\
  (r = pos + length cs \/
   exists c, nth_error cs (r - pos) = Some c /\ is_word_boundary c = true).
Proof.
  revert pos; induction cs as [|c cs IH]; intros pos; cbn [skip_word length].
  - split; [lia|left; lia].
  - destruct (is_word_boundary c) eqn:Hb; cbn [negb].
    + split; [lia|right; exists c; rewrite Nat.sub_diag; split; auto].
    + destruct (IH (S pos)) as [H1 [H2|[d [Hd Hd']]]].
      * split; [lia|left; lia].
      * split; [lia|right; exists d; split; auto].
        replace (skip_word cs (S pos) - pos) with (S (skip_word cs (S pos) - S pos))
          by lia. exact Hd.
Qed.

Lemma skip_space_spec cs pos :
  let r := skip_space cs pos in
  pos <= r <= pos + length cs /\
  (r = pos + length cs \/
   exists c, nth_error cs (r - pos) = Some c /\ is_whitespace c = false).
Proof.
  revert pos; induction cs as [|c cs IH]; intros pos; cbn [skip_space length].
  - split; [lia|left; lia].
  - destruct (is_whitespace c) eqn:Hb.
    + destruct (IH (S pos)) as [H1 [H2|[d [Hd Hd']]]].
      * split; [lia|left; lia].
      * split; [lia|right; exists d; split; auto].
        replace (skip_space cs (S pos) - pos) with (S (skip_space cs (S pos) - S pos))
          by lia. exact Hd.
    + split; [lia|right; exists c; rewrite Nat.sub_diag; split; auto].
Qed.

Lemma back_space_spec t pos :
  pos < length t -> exists q, back_space t pos = Some q /\ q <= pos.
Proof.
  induction pos as [|p IH]; intros H; cbn [back_space].
  - exists 0; split; [reflexivity|lia].
  - destruct (nth_error t (S p)) as [c|] eqn:E.
    + destruct (is_whitespace c).
      * destruct (IH ltac:(lia)) as [q [Hq Hq']]; exists q; split; [auto|lia].
      * exists (S p); split; [reflexivity|lia].
    + apply nth_error_None in E; lia.
Qed.

Lemma back_word_spec t pos :
  pos <= length t ->
  exists r, back_word t pos = Some r /\ r <= pos /\
    (r = 0 \/ exists c, nth_error t (r - 1) = Some c /\ is_word_boundary c = true).
Proof.
  induction pos as [|p IH]; intros H; cbn [back_word].
  - exists 0; split; [reflexivity|split; [lia|left; reflexivity]].
  - destruct (nth_error t p) as [c|] eqn:E.
    + destruct (is_word_boundary c) eqn:Hb; cbn [negb].
      * exists (S p); split; [reflexivity|split; [lia|right]].
        exists c; rewrite Nat.sub_succ, Nat.sub_0_r; split; auto.
      * destruct (IH ltac:(lia)) as [r [Hr [Hr' Hr'']]].
        exists r; split; [auto|split; [lia|auto]].
    + apply nth_error_None in E; lia.
Qed.

End TextFacts.

Module TextExtras.
Import RStr Text TextFacts.

(** X1. Converting a char index to a byte index and back gives the char
    index, clamped to the char count. *)
Theorem char_byte_char_roundtrip t k :
  byte_to_char_index t (char_to_byte_index t k) = Some (Nat.min k (char_count t)).
Proof.
  unfold byte_to_char_index, char_to_byte_index, char_indices, char_count.
  rewrite ci_nth. destruct (nth_error t k) as [c|] eqn:E.
  - assert (Hk : k < length t) by (apply nth_error_Some; congruence).
    cbn [Nat.add]. rewrite Nat.min_l by (apply byte_len_firstn_le).
    rewrite take_bytes_prefix, length_firstn. reflexivity.
  - apply nth_error_None in E.
    rewrite Nat.min_id.
    pose proof (take_bytes_prefix t (length t)) as Hp.
    rewrite firstn_all in Hp. rewrite Hp. f_equal; lia.
Qed.

(** X2. [byte_to_char_index] panics exactly when the byte index is below
    the byte length and no prefix of the text ends there, i.e. when it
    falls inside a multi-byte character. *)
Theorem byte_to_char_index_panics t b :
  byte_to_char_index t b = None <->
  b < byte_len t /\ forall k, byte_len (firstn k t) <> b.
Proof.
  unfold byte_to_char_index. split.
  - intros H.
    destruct (take_bytes (Nat.min b (byte_len t)) t) eqn:E; [discriminate|].
    destruct (Nat.lt_ge_cases b (byte_len t)) as [Hb|Hb].
    + rewrite Nat.min_l in E by lia. split; [exact Hb|].
      intros k Hk. rewrite <- Hk, take_bytes_prefix in E. discriminate.
    + rewrite Nat.min_r in E by lia.
      pose proof (take_bytes_prefix t (length t)) as Hp.
      rewrite firstn_all in Hp. congruence.
  - intros [Hb Hk]. rewrite Nat.min_l by lia.
    destruct (take_bytes b t) as [p|] eqn:E; [|reflexivity].
    destruct (take_bytes_inv _ _ _ E) as [H1 H2].
    exfalso; apply (Hk (length p)). rewrite <- H1; congruence.
Qed.

(** X3. When [byte_to_char_index] succeeds, converting the resulting char
    index back gives the byte index, clamped to the byte length. *)
Theorem byte_char_byte_roundtrip t b k :
  byte_to_char_index t b = Some k ->
  char_to_byte_index t k = Nat.min b (byte_len t).
Proof.
  unfold byte_to_char_index, char_to_byte_index, char_indices.
  destruct (take_bytes (Nat.min b (byte_len t)) t) as [p|] eqn:E; [|discriminate].
  intros H; inversion H; subst k.
  destruct (take_bytes_inv _ _ _ E) as [H1 H2].
  rewrite ci_nth. destruct (nth_error t (length p)) eqn:En.
  - cbn [Nat.add]. rewrite <- H1. congruence.
  - apply nth_error_None in En. rewrite firstn_all2 in H1 by lia. congruence.
Qed.

Lemma byte_char_byte_roundtrip_witness :
  byte_to_char_index [104; 233; 108]%Z 3 = Some 2 /\
  char_to_byte_index [104; 233; 108]%Z 2 = 3.
Proof.
  split; [vm_compute; reflexivity|].
  apply (byte_char_byte_roundtrip [104; 233; 108]%Z 3 2). vm_compute; reflexivity.
Defined.

(** X4. For [start <= mid <= end], the substrings [start..mid] and
    [mid..end] are defined and concatenate to the substring [start..end]. *)
Theorem char_substring_split t s m e :
  s <= m -> m <= e ->
  exists a b, char_substring t s m = Some a /\ char_substring t m e = Some b /\
              char_substring t s e = Some (a ++ b).
Proof.
  intros H1 H2. unfold char_substring.
  replace (m <? s) with false by (symmetry; apply Nat.ltb_ge; lia).
  replace (e <? m) with false by (symmetry; apply Nat.ltb_ge; lia).
  replace (e <? s) with false by (symmetry; apply Nat.ltb_ge; lia).
  do 2 eexists; split; [reflexivity|split; [reflexivity|]].
  f_equal. replace (e - s) with ((m - s) + (e - m)) by lia.
  rewrite firstn_add, skipn_skipn. replace (m - s + s) with m by lia. reflexivity.
Qed.

Lemma char_substring_split_witness :
  exists a b, char_substring [104; 101; 108; 108; 111]%Z 1 2 = Some a /\
    char_substring [104; 101; 108; 108; 111]%Z 2 4 = Some b /\
    char_substring [104; 101; 108; 108; 111]%Z 1 4 = Some (a ++ b).
Proof. apply char_substring_split; lia. Defined.

(** X5. [char_substring t s e] panics exactly when [e < s]; otherwise its
    length is [min e (char_count t) - s], and [0..char_count t] is the
    whole text. *)
Theorem char_substring_len t s e :
  (char_substring t s e = None <-> e < s) /\
  (s <= e -> exists r, char_substring t s e = Some r /\
                       length r = Nat.min e (char_count t) - s) /\
  char_substring t 0 (char_count t) = Some t.
Proof.
  unfold char_substring, char_count. split; [|split].
  - destruct (Nat.ltb_spec e s); split; intros; auto; [discriminate|lia].
  - intros H. replace (e <? s) with false by (symmetry; apply Nat.ltb_ge; lia).
    eexists; split; [reflexivity|].
    rewrite length_firstn, length_skipn. lia.
  - cbn. rewrite Nat.sub_0_r, firstn_all. reflexivity.
Qed.

(** X6. [next_word_boundary] from a position at or past the end returns
    the char count; from inside the text it returns a position between
    [from] and the char count that is the end or is not whitespace, and it
    moves forward when it starts on a character that is no boundary. *)
Theorem next_word_boundary_bounds t from :
  let r := next_word_boundary t from in
  (char_count t <= from -> r = char_count t) /\
  (from < char_count t ->
     from <= r <= char_count t /\
     (r = char_count t \/ exists c, nth_error t r = Some c /\ is_whitespace c = false) /\
     (forall c, nth_error t from = Some c -> is_word_boundary c = false -> from < r)).
Proof.
  cbv zeta. unfold next_word_boundary, char_count. split.
  - intros H. apply Nat.leb_le in H; rewrite H; reflexivity.
  - intros H. replace (length t <=? from) with false by (symmetry; apply Nat.leb_gt; lia).
    cbv zeta.
    destruct (skip_word_spec (skipn from t) from) as [W1 W2].
    set (p := skip_word (skipn from t) from) in *.
    rewrite length_skipn in W1.
    destruct (skip_space_spec (skipn p t) p) as [S1 S2].
    set (r := skip_space (skipn p t) p) in *.
    rewrite length_skipn in S1.
    split; [lia|split].
    + destruct S2 as [S2|[c [Hc Hc']]]; [left; rewrite length_skipn in S2; lia|].
      right; exists c; split; auto.
      rewrite nth_error_skipn in Hc. replace (p + (r - p)) with r in Hc by lia. exact Hc.
    + intros c Hc Hb.
      assert (p <> from -> from < p) by lia.
      destruct (Nat.eq_dec p from) as [E|E]; [|lia].
      destruct W2 as [W2|[d [Hd Hd']]]; [rewrite length_skipn in W2; lia|].
      rewrite nth_error_skipn in Hd. replace (from + (p - from)) with from in Hd by lia.
      congruence.
Qed.

(** X7. [next_word_boundary] started on an ASCII punctuation character
    does not move: it returns [from] itself. *)
Theorem next_word_boundary_punct_stalls t from c :
  nth_error t from = Some c -> is_ascii_punctuation c = true ->
  next_word_boundary t from = from.
Proof.
  intros Hc Hp. unfold next_word_boundary.
  assert (Hl : from < length t) by (apply nth_error_Some; congruence).
  replace (length t <=? from) with false by (symmetry; apply Nat.leb_gt; lia).
  cbv zeta.
  destruct (skipn from t) as [|d r] eqn:E.
  - apply (f_equal (@length Z)) in E. rewrite length_skipn in E. cbn in E; lia.
  - assert (d = c).
    { pose proof (nth_error_skipn from t 0) as Hn. rewrite E, Nat.add_0_r in Hn.
      cbn in Hn; congruence. }
    subst d. cbn [skip_word].
    assert (Hb : is_word_boundary c = true) by (unfold is_word_boundary; rewrite Hp, orb_true_r; reflexivity).
    rewrite Hb. cbn [negb]. rewrite E. cbn [skip_space].
    rewrite (punct_not_space c Hp). reflexivity.
Qed.

Lemma next_word_boundary_punct_stalls_witness :
  next_word_boundary [97; 46; 98]%Z 1 = 1.
Proof. apply (next_word_boundary_punct_stalls _ _ 46%Z); reflexivity. Defined.

(** X8. [prev_word_boundary] from a position [1 <= from <= char_count]
    returns a position before [from] that is [0] or directly follows a
    word-boundary character. *)
Theorem prev_word_boundary_spec t from :
  1 <= from -> from <= char_count t ->
  exists r, prev_word_boundary t from = Some r /\ r < from /\
    (r = 0 \/ exists c, nth_error t (r - 1) = Some c /\ is_word_boundary c = true).
Proof.
  unfold char_count. intros H1 H2. destruct from as [|p]; [lia|].
  cbn [prev_word_boundary].
  destruct (back_space_spec t p ltac:(lia)) as [q [Hq Hq']]. rewrite Hq.
  destruct (back_word_spec t q ltac:(lia)) as [r [Hr [Hr' Hr'']]].
  exists r; split; [exact Hr|split; [lia|exact Hr'']].
Qed.

Lemma prev_word_boundary_spec_witness :
  exists r, prev_word_boundary [97; 32; 98; 99]%Z 4 = Some r /\ r < 4 /\
    (r = 0 \/ exists c, nth_error [97; 32; 98; 99]%Z (r - 1) = Some c /\
                        is_word_boundary c = true).
Proof. apply prev_word_boundary_spec; cbn; lia. Defined.

(** X9. [prev_word_boundary] from a position past the end (other than 1
    on the empty text) indexes out of bounds and panics. *)
Theorem prev_word_boundary_past_end t from :
  char_count t < from -> 2 <= from -> prev_word_boundary t from = None.
Proof.
  unfold char_count. intros H1 H2. destruct from as [|p]; [lia|].
  cbn [prev_word_boundary]. destruct p as [|p]; [lia|].
  cbn [back_space].
  replace (nth_error t (S p)) with (@None Z) by (symmetry; apply nth_error_None; lia).
  reflexivity.
Qed.

Lemma prev_word_boundary_past_end_witness :
  prev_word_boundary [97; 98]%Z 3 = None.
Proof. apply prev_word_boundary_past_end; cbn; lia. Defined.

End TextExtras.

(* ================================================================== *)
(** ** Table editing operations *)

Module TableFacts3.
Import Table StyleFacts TableFacts TableFacts2.

Lemma nth_error_ins {A} i (x : A) l k :
  i <= length l ->
  nth_error (firstn i l ++ x :: skipn i l) k =
  if k <? i then nth_error l k else if k =? i then Some x else nth_error l (k - 1).
Proof.
  intros Hi. destruct (Nat.ltb_spec k i).
  - rewrite nth_error_app1 by (rewrite length_firstn; lia).
    rewrite nth_error_firstn. apply Nat.ltb_lt in H; rewrite H; reflexivity.
  - rewrite nth_error_app2 by (rewrite length_firstn; lia).
    rewrite length_firstn, Nat.min_l by lia.
    destruct (Nat.eqb_spec k i) as [->|Hk].
    + rewrite Nat.sub_diag; reflexivity.
    + replace (k - i) with (S (k - i - 1)) by lia. cbn [nth_error].
      rewrite nth_error_skipn. f_equal; lia.
Qed.

Lemma length_ins {A} i (x : A) l :
  i <= length l -> length (firstn i l ++ x :: skipn i l) = S (length l).
Proof.
  intros Hi; rewrite length_app, length_firstn; cbn [length]; rewrite length_skipn; lia.
Qed.

Lemma nth_error_remove {A} i (l : list A) k :
  nth_error (vec_remove i l) k = nth_error l (if k <? i then k else S k).
Proof.
  unfold vec_remove. destruct (Nat.ltb_spec k i).
  - destruct (Nat.lt_ge_cases k (length l)).
    + rewrite nth_error_app1 by (rewrite length_firstn; lia).
      rewrite nth_error_firstn. apply Nat.ltb_lt in H; rewrite H; reflexivity.
    + rewrite nth_error_app2 by (rewrite length_firstn; lia).
      rewrite nth_error_skipn.
      rewrite (proj2 (nth_error_None l k)) by lia. apply nth_error_None. lia.
  - destruct (Nat.lt_ge_cases i (length l)).
    + rewrite nth_error_app2 by (rewrite length_firstn; lia).
      rewrite length_firstn, Nat.min_l by lia.
      rewrite nth_error_skipn. f_equal; lia.
    + rewrite nth_error_app2 by (rewrite length_firstn; lia).
      rewrite nth_error_skipn, length_firstn.
      rewrite (proj2 (nth_error_None l (S k))) by lia. apply nth_error_None. lia.
Qed.

Lemma length_remove {A} i (l : list A) :
  i < length l -> length (vec_remove i l) = length l - 1.
Proof.
  intros Hi; unfold vec_remove; rewrite length_app, length_firstn, length_skipn; lia.
Qed.

Lemma in_firstn_l {A} n (x : A) l : In x (firstn n l) -> In x l.
Proof. intros H; rewrite <- (firstn_skipn n l); apply in_or_app; left; exact H. Qed.

Lemma in_skipn_l {A} n (x : A) l : In x (skipn n l) -> In x l.
Proof. intros H; rewrite <- (firstn_skipn n l); apply in_or_app; right; exact H. Qed.

Lemma get_cell_bounds t r c x :
  table_shape_ok t = true -> get_cell t r c = Some x -> r < num_rows t /\ c < num_cols t.
Proof.
  unfold table_shape_ok, get_cell, num_rows; intros Hs H.
  destruct (nth_error (rows t) r) as [row|] eqn:E; [|discriminate].
  rewrite forallb_forall in Hs. specialize (Hs row (nth_error_In _ _ E)).
  apply Nat.eqb_eq in Hs. split.
  - apply nth_error_Some; congruence.
  - rewrite <- Hs; apply nth_error_Some; congruence.
Qed.

Lemma get_add_row t at_index a b :
  get_cell (add_row t at_index) a b =
  let index := Nat.min at_index (num_rows t) in
  if a <? index then get_cell t a b
  else if a =? index then nth_error (repeat TableCell_new (num_cols t)) b
  else get_cell t (a - 1) b.
Proof.
  unfold get_cell, add_row, num_rows; cbn [rows].
  rewrite nth_error_ins by lia.
  destruct (a <? _); [reflexivity|]. destruct (a =? _); reflexivity.
Qed.

Lemma nth_error_repeat' {A} (x : A) n b :
  nth_error (repeat x n) b = if b <? n then Some x else None.
Proof.
  revert b; induction n as [|n IH]; intros [|b]; try reflexivity.
  cbn [repeat nth_error]. rewrite IH. reflexivity.
Qed.

Lemma add_row_shape t at_index :
  table_shape_ok t = true -> table_shape_ok (add_row t at_index) = true.
Proof.
  unfold table_shape_ok, add_row, num_cols; cbn [rows column_widths].
  rewrite !forallb_forall; intros Hs row Hin.
  apply in_app_or in Hin as [Hin|[<-|Hin]].
  - apply Hs. eapply in_firstn_l; eauto.
  - cbn. rewrite repeat_length. apply Nat.eqb_refl.
  - apply Hs. eapply in_skipn_l; eauto.
Qed.

End TableFacts3.

Module TableFacts4.
Import Table StyleFacts TableFacts TableFacts2 TableFacts3.
Lemma rows_insert_cell_ok index rs :
  (forall row, In row rs -> index <= length (cells row)) ->
  rows_insert_cell index rs =
  Some (map (fun row => mkRow (firstn index (cells row) ++ TableCell_new :: skipn index (cells row))
                              (min_height row)) rs).
Proof.
  induction rs as [|row rs IH]; intros H; [reflexivity|].
  cbn [rows_insert_cell map]. unfold vec_insert.
  replace (length (cells row) <? index) with false
    by (symmetry; apply Nat.ltb_ge; apply H; left; reflexivity).
  rewrite IH by (intros; apply H; right; assumption). reflexivity.
Qed.

Lemma rows_insert_cell_none index rs :
  rows_insert_cell index rs = None <->
  exists row, In row rs /\ length (cells row) < index.
Proof.
  induction rs as [|row rs IH]; cbn [rows_insert_cell].
  - split; [discriminate|]. intros (row & [] & _).
  - unfold vec_insert. destruct (Nat.ltb_spec (length (cells row)) index) as [Hl|Hl].
    + split; [intros _; exists row; split; [left; reflexivity|exact Hl]|reflexivity].
    + destruct (rows_insert_cell index rs) eqn:E.
      * split; [discriminate|]. intros (x & [<-|Hx] & Hx'); [lia|].
        assert (Some l = None) by (apply IH; eauto). discriminate.
      * split; [intros _|reflexivity].
        destruct (proj1 IH eq_refl) as (x & Hx & Hx'); exists x; split; [right|]; assumption.
Qed.

Lemma get_add_column t at_index ws r c :
  let index := Nat.min at_index (num_cols t) in
  (forall row, In row (rows t) -> index <= length (cells row)) ->
  get_cell (mkTable (id t)
              (map (fun row => mkRow (firstn index (cells row) ++ TableCell_new :: skipn index (cells row))
                                     (min_height row)) (rows t)) ws
              (border_width t) (border_color t) (width_mode t)) r c =
  if c <? index then get_cell t r c
  else if c =? index then (if r <? num_rows t then Some TableCell_new else None)
  else get_cell t r (c - 1).
Proof.
  cbv zeta. intros H. unfold get_cell, num_rows; cbn [rows]. rewrite nth_error_map.
  destruct (nth_error (rows t) r) as [row|] eqn:E; cbn [option_map].
  - assert (Hr : r < length (rows t)) by (apply nth_error_Some; congruence).
    apply Nat.ltb_lt in Hr. rewrite Hr. cbn [cells].
    apply nth_error_In in E. rewrite nth_error_ins by (apply H; exact E). reflexivity.
  - assert (Hr : length (rows t) <= r) by (apply nth_error_None; exact E).
    apply Nat.ltb_ge in Hr. rewrite Hr.
    destruct (c <? _); [reflexivity|]. destruct (c =? _); reflexivity.
Qed.

Lemma shape_rows t row :
  table_shape_ok t = true -> In row (rows t) -> length (cells row) = num_cols t.
Proof.
  unfold table_shape_ok; rewrite forallb_forall; intros H Hin.
  apply Nat.eqb_eq, H, Hin.
Qed.

Lemma get_add_row_after t at_index r c :
  Nat.min at_index (num_rows t) <= r ->
  get_cell (add_row t at_index) (S r) c = get_cell t r c.
Proof.
  intros Hr. rewrite get_add_row. cbv zeta.
  replace (S r <? _) with false by (symmetry; apply Nat.ltb_ge; lia).
  replace (S r =? _) with false by (symmetry; apply Nat.eqb_neq; lia).
  f_equal; lia.
Qed.

End TableFacts4.

Module TableExtras.
Import Table StyleFacts TableFacts TableFacts2 TableFacts3 TableFacts4 Examples2.

(** X10. [add_row] on a table whose rows all have [num_cols] cells keeps
    that shape, adds one row of fresh cells at [min(at_index, num_rows)],
    leaves the rows before it in place and shifts the rows after it down
    by one. *)
Theorem add_row_spec t at_index :
  table_shape_ok t = true ->
  let t' := add_row t at_index in
  let index := Nat.min at_index (num_rows t) in
  table_shape_ok t' = true /\ num_rows t' = S (num_rows t) /\ num_cols t' = num_cols t /\
  (forall c, c < num_cols t -> get_cell t' index c = Some TableCell_new) /\
  (forall r c, r < index -> get_cell t' r c = get_cell t r c) /\
  (forall r c, index <= r -> get_cell t' (S r) c = get_cell t r c).
Proof.
  intros Hs. cbv zeta. split; [apply add_row_shape, Hs|].
  split; [unfold num_rows, add_row; cbn [rows]; apply length_ins; lia|].
  split; [reflexivity|].
  split; [|split].
  - intros c Hc. rewrite get_add_row. cbv zeta.
    rewrite Nat.ltb_irrefl, Nat.eqb_refl, nth_error_repeat'.
    apply Nat.ltb_lt in Hc; rewrite Hc; reflexivity.
  - intros r c Hr. rewrite get_add_row. cbv zeta.
    apply Nat.ltb_lt in Hr; rewrite Hr; reflexivity.
  - intros r c Hr. apply get_add_row_after, Hr.
Qed.

Lemma add_row_spec_witness :
  let t' := add_row (DocumentTable_new [] 2 3) 1 in
  let index := Nat.min 1 (num_rows (DocumentTable_new [] 2 3)) in
  table_shape_ok t' = true /\ num_rows t' = S (num_rows (DocumentTable_new [] 2 3)) /\
  num_cols t' = num_cols (DocumentTable_new [] 2 3) /\
  (forall c, c < num_cols (DocumentTable_new [] 2 3) -> get_cell t' index c = Some TableCell_new) /\
  (forall r c, r < index -> get_cell t' r c = get_cell (DocumentTable_new [] 2 3) r c) /\
  (forall r c, index <= r -> get_cell t' (S r) c = get_cell (DocumentTable_new [] 2 3) r c).
Proof. apply add_row_spec. vm_compute; reflexivity. Defined.

(** X11. [add_row] does not renumber the covered-by pointers: inserting a
    row at or above a merged cell that spans two or more rows breaks the
    well-formedness of a well-formed table. *)
Theorem add_row_breaks_merge t at_index r c o :
  table_wf t = true -> get_cell t r c = Some o -> is_merge_origin o = true ->
  2 <= row_span o -> 1 <= col_span o -> at_index <= r ->
  table_wf (add_row t at_index) = false.
Proof.
  intros Hwf Ho Hm Hrs Hcs Ha.
  unfold table_wf in Hwf. apply andb_true_iff in Hwf as [Hwf Horig].
  apply andb_true_iff in Hwf as [Hs _].
  destruct (get_cell_bounds _ _ _ _ Hs Ho) as [Hr Hc].
  (* the cell below the origin is covered and points at row [r] *)
  rewrite forallb_forall in Horig.
  specialize (Horig (r, c) ltac:(apply in_region; lia)).
  unfold origin_cell_ok in Horig. rewrite Ho, Hm, forallb_forall in Horig.
  specialize (Horig (S r, c) ltac:(apply in_region; lia)). cbv beta iota in Horig.
  rewrite (proj2 (Nat.eqb_neq (S r) r)) in Horig by lia. cbn [andb] in Horig.
  destruct (get_cell t (S r) c) as [x|] eqn:Ex; [|discriminate].
  apply andb_true_iff in Horig as [Horig _]. apply andb_true_iff in Horig as [_ Hx].
  destruct (covered_by_row x) as [br|] eqn:Hbr; [|discriminate].
  cbn in Hx. apply Nat.eqb_eq in Hx. subst br.
  (* after the insertion, the origin sits at row [S r], the covered cell at [S (S r)] *)
  unfold table_wf. apply andb_false_intro2.
  apply not_true_iff_false. intros H. rewrite forallb_forall in H.
  assert (Hin : In (S r, c) (region_positions 0 0 (num_rows (add_row t at_index))
                                               (num_cols (add_row t at_index)))).
  { apply in_region. unfold num_rows, num_cols, add_row; cbn [rows column_widths].
    rewrite length_ins by lia. unfold num_rows, num_cols in Hr, Hc. lia. }
  specialize (H _ Hin). unfold origin_cell_ok in H.
  assert (Hidx : Nat.min at_index (num_rows t) <= r) by lia.
  rewrite (get_add_row_after t at_index r c Hidx) in H.
  rewrite Ho, Hm, forallb_forall in H.
  specialize (H (S (S r), c) ltac:(apply in_region; lia)). cbv beta iota in H.
  rewrite (proj2 (Nat.eqb_neq (S (S r)) (S r))) in H by lia. cbn [andb] in H.
  rewrite (get_add_row_after t at_index (S r) c ltac:(lia)) in H.
  rewrite Ex, Hbr in H. cbn in H.
  rewrite (proj2 (Nat.eqb_neq r (S r))) in H by lia.
  rewrite andb_false_r in H. discriminate.
Qed.

Lemma add_row_breaks_merge_witness :
  table_wf ex_merged = true /\ table_wf (add_row ex_merged 0) = false.
Proof.
  split; [vm_compute; reflexivity|].
  apply (add_row_breaks_merge ex_merged 0 0 0 (mkCell [] [] Left None 1 2 false None None));
    try (vm_compute; reflexivity); lia.
Defined.

(** X12. [add_column] on a table whose rows all have [num_cols] cells
    succeeds. It keeps the shape (one width per column, every row one cell
    per column), adds a column of fresh cells at [min(at_index, num_cols)]
    and shifts the later cells right by one. *)
Theorem add_column_spec t at_index :
  table_shape_ok t = true ->
  let index := Nat.min at_index (num_cols t) in
  exists t', add_column t at_index = Some t' /\
    table_shape_ok t' = true /\ num_rows t' = num_rows t /\ num_cols t' = S (num_cols t) /\
    (forall r, r < num_rows t -> get_cell t' r index = Some TableCell_new) /\
    (forall r c, c < index -> get_cell t' r c = get_cell t r c) /\
    (forall r c, index <= c -> get_cell t' r (S c) = get_cell t r c).
Proof.
  intros Hs. cbv zeta. set (index := Nat.min at_index (num_cols t)).
  assert (Hrow : forall row, In row (rows t) -> index <= length (cells row)).
  { intros row Hin. rewrite (shape_rows t row Hs Hin). unfold index; lia. }
  unfold add_column. fold index. rewrite (rows_insert_cell_ok _ _ Hrow).
  eexists; split; [reflexivity|].
  assert (Hget := fun ws r c => get_add_column t at_index ws r c Hrow). cbv zeta in Hget.
  fold index in Hget.
  assert (Hlw : index <= length (column_widths t)) by (unfold index, num_cols; lia).
  split; [|split; [|split; [|split; [|split]]]].
  - unfold table_shape_ok, num_cols; cbn [rows column_widths].
    apply forallb_forall. intros row Hin. apply in_map_iff in Hin as (r0 & <- & Hin).
    cbn [cells]. unfold normalize_widths. rewrite length_map, !length_ins.
    + apply Nat.eqb_eq. f_equal. apply (shape_rows t r0 Hs Hin).
    + exact Hlw.
    + apply Hrow, Hin.
  - unfold num_rows; cbn [rows]. apply length_map.
  - unfold num_cols at 1; cbn [column_widths]. unfold normalize_widths.
    rewrite length_map, length_ins by exact Hlw. reflexivity.
  - intros r Hr. rewrite Hget, Nat.ltb_irrefl, Nat.eqb_refl.
    apply Nat.ltb_lt in Hr; rewrite Hr; reflexivity.
  - intros r c Hc. rewrite Hget. apply Nat.ltb_lt in Hc; rewrite Hc; reflexivity.
  - intros r c Hc. rewrite Hget.
    replace (S c <? index) with false by (symmetry; apply Nat.ltb_ge; lia).
    replace (S c =? index) with false by (symmetry; apply Nat.eqb_neq; lia).
    f_equal; lia.
Qed.

Lemma add_column_spec_witness :
  exists t', add_column (DocumentTable_new [] 2 2) 1 = Some t' /\
    table_shape_ok t' = true /\ num_rows t' = num_rows (DocumentTable_new [] 2 2) /\
    num_cols t' = S (num_cols (DocumentTable_new [] 2 2)) /\
    (forall r, r < num_rows (DocumentTable_new [] 2 2) ->
               get_cell t' r (Nat.min 1 (num_cols (DocumentTable_new [] 2 2))) = Some TableCell_new) /\
    (forall r c, c < Nat.min 1 (num_cols (DocumentTable_new [] 2 2)) ->
                 get_cell t' r c = get_cell (DocumentTable_new [] 2 2) r c) /\
    (forall r c, Nat.min 1 (num_cols (DocumentTable_new [] 2 2)) <= c ->
                 get_cell t' r (S c) = get_cell (DocumentTable_new [] 2 2) r c).
Proof. apply add_column_spec; vm_compute; reflexivity. Defined.

(** X13. [add_column] panics exactly when some row has fewer cells than
    the insertion index [min(at_index, num_cols)]. *)
Theorem add_column_panics t at_index :
  add_column t at_index = None <->
  exists row, In row (rows t) /\ length (cells row) < Nat.min at_index (num_cols t).
Proof.
  unfold add_column. rewrite <- rows_insert_cell_none.
  destruct (rows_insert_cell _ _); split; intros; congruence.
Qed.

(** X14. [delete_row] succeeds exactly when the row exists and the table
    has more than one row; a refused call leaves the table unchanged, and
    a successful one removes that row, shifting the later rows up, so a
    table is never left without rows. *)
Theorem delete_row_spec t row :
  let '(ok, t') := delete_row t row in
  ok = (row <? num_rows t) && (1 <? num_rows t) /\
  (ok = false -> t' = t) /\
  (ok = true -> num_rows t' = num_rows t - 1 /\ 1 <= num_rows t' /\
                num_cols t' = num_cols t /\
                forall a b, get_cell t' a b = get_cell t (if a <? row then a else S a) b).
Proof.
  unfold delete_row, num_rows.
  destruct ((row <? length (rows t)) && (1 <? length (rows t))) eqn:E.
  - apply andb_true_iff in E as [E1 E2]. apply Nat.ltb_lt in E1, E2.
    split; [reflexivity|].
    split; [discriminate|intros _].
    cbn [rows]. rewrite length_remove by exact E1.
    split; [reflexivity|split; [lia|split; [reflexivity|]]].
    intros a b. unfold get_cell; cbn [rows]. rewrite nth_error_remove. reflexivity.
  - split; [reflexivity|split; [reflexivity|discriminate]].
Qed.



(** X16. On a table satisfying the covered-cell invariant, every grid
    position has a visible cell: [get_visible_cell] returns an uncovered
    cell stored at the returned position, which is the position itself or
    a merge origin whose span contains it. *)
Theorem get_visible_cell_spec t r c :
  table_shape_ok t = true -> covered_cells_ok t = true ->
  r < num_rows t -> c < num_cols t ->
  exists orow ocol o, get_visible_cell t r c = Some (orow, ocol, o) /\
    get_cell t orow ocol = Some o /\ covered o = false /\
    ((orow, ocol) = (r, c) \/
     (is_merge_origin o = true /\ orow <= r < orow + row_span o /\
      ocol <= c < ocol + col_span o)).
Proof.
  intros Hs Hcv Hr Hc.
  destruct (get_cell_shape t r c Hs Hr Hc) as [cell Hcell].
  unfold covered_cells_ok in Hcv. rewrite forallb_forall in Hcv.
  specialize (Hcv (r, c) ltac:(apply in_region; lia)).
  unfold covered_cell_ok in Hcv. rewrite Hcell in Hcv.
  unfold get_visible_cell. rewrite Hcell.
  destruct (covered cell) eqn:Hcov.
  - destruct (covered_by_row cell) as [br|]; [|rewrite andb_false_r in Hcv; discriminate].
    destruct (covered_by_col cell) as [bc|]; [|rewrite andb_false_r in Hcv; discriminate].
    destruct (get_cell t br bc) as [o|] eqn:Eo; [|rewrite andb_false_r in Hcv; discriminate].
    apply andb_true_iff in Hcv as [_ Hcv]. bprop.
    exists br, bc, o. split; [reflexivity|split; [exact Eo|split]].
    + match goal with H : is_merge_origin o = true |- _ => unfold is_merge_origin in H end.
      bprop. destruct (covered o); [discriminate|reflexivity].
    + right. split; [assumption|]. lia.
  - exists r, c, cell. split; [reflexivity|split; [exact Hcell|split; [exact Hcov|left; reflexivity]]].
Qed.

Lemma get_visible_cell_spec_witness :
  exists orow ocol o, get_visible_cell ex_merged 1 0 = Some (orow, ocol, o) /\
    get_cell ex_merged orow ocol = Some o /\ covered o = false /\
    ((orow, ocol) = (1, 0) \/
     (is_merge_origin o = true /\ orow <= 1 < orow + row_span o /\
      ocol <= 0 < ocol + col_span o)).
Proof. apply get_visible_cell_spec; vm_compute; reflexivity. Defined.

(** X17. Where the covered-cell invariant holds, [should_render_cell] is
    true exactly when [get_visible_cell] resolves the position to itself. *)
Theorem should_render_cell_visible t r c :
  covered_cell_ok t (r, c) = true ->
  (should_render_cell t r c = true <->
   exists cell, get_visible_cell t r c = Some (r, c, cell)).
Proof.
  intros Hok. unfold should_render_cell, get_visible_cell.
  unfold covered_cell_ok in Hok.
  destruct (get_cell t r c) as [cell|] eqn:Hcell.
  - destruct (covered cell) eqn:Hcov; cbn [negb].
    + split; [discriminate|]. intros [x Hx].
      destruct (covered_by_row cell) as [br|]; [|discriminate].
      destruct (covered_by_col cell) as [bc|]; [|discriminate].
      destruct (get_cell t br bc) as [o|] eqn:Eo; [|discriminate].
      injection Hx as -> -> ->. rewrite Hcell in Eo. injection Eo as <-.
      apply andb_true_iff in Hok as [_ Hok]. bprop.
      match goal with H : is_merge_origin cell = true |- _ =>
        unfold is_merge_origin in H; rewrite Hcov in H; discriminate end.
    + split; [intros _; exists cell; reflexivity|reflexivity].
  - split; [discriminate|]. intros [x Hx]; discriminate.
Qed.

Lemma should_render_cell_visible_witness :
  should_render_cell ex_merged 1 0 = false /\
  ~ exists cell, get_visible_cell ex_merged 1 0 = Some (1, 0, cell).
Proof.
  split; [vm_compute; reflexivity|].
  intros H. apply (should_render_cell_visible ex_merged 1 0) in H;
    [vm_compute in H; discriminate|vm_compute; reflexivity].
Defined.

End TableExtras.

(* ================================================================== *)
(** ** The editor engine *)

Module LibFacts.
Import RStr Style Layout Lib StyleFacts StyleFacts2 StyleFacts3 StyleFacts4 LayoutFacts3.

(** The formatting of a style list at [q], defaults where nothing covers it. *)
Definition fmt (l : list TextStyle) (q : nat) : Attrs :=
  match attrs_at l q with f :: _ => f | [] => default_attrs end.

Lemma format_at_fmt p q : format_at p q = fmt (Doc.styles p) q.
Proof.
  unfold format_at, style_at, fmt, attrs_at.
  induction (Doc.styles p) as [|x r IH]; [reflexivity|]. cbn [find filter].
  destruct (covers_pos q x); [reflexivity|exact IH].
Qed.

Lemma unformatted_default f : has_formatting_attrs f = false -> f = default_attrs.
Proof.
  destruct f as [b i u s c bg]; unfold has_formatting_attrs; cbn.
  destruct b, i, u, s, c, bg; cbn; try discriminate; reflexivity.
Qed.

Lemma fmt_apply_style l s e m q :
  sorted_disjoint l = true -> all_nonempty l = true ->
  (forall f, has_formatting_attrs (m f) = false -> has_formatting_attrs (m default_attrs) = false) ->
  fmt (apply_style l s e m) q = if (s <=? q) && (q <? e) then m (fmt l q) else fmt l q.
Proof.
  intros Hs Hn Hm. destruct (Nat.le_gt_cases e s) as [Hes|Hse].
  { rewrite apply_style_empty by exact Hes.
    destruct (Nat.leb_spec s q), (Nat.ltb_spec q e); try reflexivity; lia. }
  destruct (apply_style_spec l s e m Hse Hs Hn) as (A1 & _).
  unfold fmt at 1. rewrite A1.
  destruct ((s <=? q) && (q <? e)); [|reflexivity].
  unfold fmt, apply_at. destruct (attrs_at l q) as [|f r].
  - destruct (has_formatting_attrs (m default_attrs)) eqn:Hd; [reflexivity|].
    symmetry; apply unformatted_default, Hd.
  - destruct (has_formatting_attrs (m f)) eqn:Hf; [reflexivity|].
    rewrite (Hm f Hf). symmetry; apply unformatted_default, Hf.
Qed.

Lemma nth_update_same {A} n (f : A -> A) l :
  nth_error (Table.update_nth n f l) n = option_map f (nth_error l n).
Proof. rewrite TableFacts.nth_error_update_nth, Nat.eqb_refl. reflexivity. Qed.

Lemma update_nth_same {A} n (f : A -> A) l x :
  nth_error l n = Some x -> f x = x -> Table.update_nth n f l = l.
Proof.
  revert n; induction l as [|y r IH]; intros [|n] H Hf; cbn in *; try discriminate.
  - injection H as ->; rewrite Hf; reflexivity.
  - rewrite (IH n H Hf); reflexivity.
Qed.

Lemma restyled_apply e pi s en m para :
  nth_error (paragraphs e) pi = Some para ->
  (forall p f, has_formatting_attrs (m p f) = false ->
               has_formatting_attrs (m p default_attrs) = false) ->
  exists para', nth_error (Table.update_nth pi
                  (fun p => Paragraph_apply_style p s en (m para)) (paragraphs e)) pi = Some para' /\
    Doc.text para' = Doc.text para /\
    (sorted_disjoint (Doc.styles para) = true -> all_nonempty (Doc.styles para) = true ->
     forall q, format_at para' q =
               if (s <=? q) && (q <? en) then m para (format_at para q) else format_at para q).
Proof.
  intros Hp Hm. rewrite nth_update_same, Hp. cbn [option_map].
  eexists; split; [reflexivity|split; [reflexivity|]].
  intros Hs Hn q. rewrite !format_at_fmt. unfold Paragraph_apply_style; cbn [Doc.styles].
  apply fmt_apply_style; [exact Hs|exact Hn|apply Hm].
Qed.

Lemma toggle_restyled get set e pi s en :
  (forall v f, has_formatting_attrs (set v f) = false ->
               has_formatting_attrs (set v default_attrs) = false) ->
  restyled e (toggle_with get set e pi s en) pi s en
    (fun para => set (negb (forallb (fun st => get (attrs st)) (styles_in_range para s en)))).
Proof.
  intros Hset para Hp Hs Hn. unfold toggle_with. rewrite Hp.
  destruct (restyled_apply e pi s en
              (fun para => set (negb (forallb (fun st => get (attrs st)) (styles_in_range para s en))))
              para Hp ltac:(intros p f; apply Hset)) as (para' & H1 & H2 & H3).
  exists para'. split; [exact H1|split; [exact H2|exact (H3 Hs Hn)]].
Qed.

Lemma color_restyled set e pi s en c :
  (forall v f, has_formatting_attrs (set v f) = false ->
               has_formatting_attrs (set v default_attrs) = false) ->
  restyled e (color_setter set e pi s en c) pi s en
    (fun _ => set (if is_empty c then None else Some c)).
Proof.
  intros Hset para Hp Hs Hn. unfold color_setter. rewrite Hp.
  destruct (restyled_apply e pi s en (fun _ => set (if is_empty c then None else Some c))
              para Hp ltac:(intros p f; apply Hset)) as (para' & H1 & H2 & H3).
  exists para'. split; [exact H1|split; [exact H2|exact (H3 Hs Hn)]].
Qed.

Ltac setter_ok :=
  intros v [b i u s c bg]; unfold has_formatting_attrs; cbn;
  destruct v; cbn; rewrite ?orb_true_r; try discriminate; reflexivity.

Lemma with_bold_ok v f : has_formatting_attrs (with_bold v f) = false ->
  has_formatting_attrs (with_bold v default_attrs) = false.
Proof. revert v f; setter_ok. Qed.
Lemma with_italic_ok v f : has_formatting_attrs (with_italic v f) = false ->
  has_formatting_attrs (with_italic v default_attrs) = false.
Proof. revert v f; setter_ok. Qed.
Lemma with_underline_ok v f : has_formatting_attrs (with_underline v f) = false ->
  has_formatting_attrs (with_underline v default_attrs) = false.
Proof. revert v f; setter_ok. Qed.
Lemma with_strikethrough_ok v f : has_formatting_attrs (with_strikethrough v f) = false ->
  has_formatting_attrs (with_strikethrough v default_attrs) = false.
Proof. revert v f; setter_ok. Qed.
Lemma with_color_ok v f : has_formatting_attrs (with_color v f) = false ->
  has_formatting_attrs (with_color v default_attrs) = false.
Proof. revert v f; setter_ok. Qed.
Lemma with_background_ok v f : has_formatting_attrs (with_background v f) = false ->
  has_formatting_attrs (with_background v default_attrs) = false.
Proof. revert v f; setter_ok. Qed.

(** A range that no stored style overlaps is left alone by a modifier
    that turns the defaults into unformatted attributes. *)
Lemma apply_style_unstyled l s e m :
  styles_invariant l = true ->
  filter (fun st => overlaps st s e) l = [] ->
  has_formatting_attrs (m default_attrs) = false ->
  apply_style l s e m = l.
Proof.
  intros Hi Hov Hm. destruct (Nat.le_gt_cases e s) as [Hes|Hse];
    [apply apply_style_empty, Hes|].
  unfold styles_invariant in Hi.
  apply andb_true_iff in Hi as [Hi Hd]; apply andb_true_iff in Hi as [Hi Hf];
    apply andb_true_iff in Hi as [Hs Hn].
  destruct (apply_style_spec l s e m Hse Hs Hn) as (A1 & A2 & A3 & A4 & _).
  apply canon_unique; auto.
  intros q. rewrite A1.
  destruct (Nat.leb_spec s q); destruct (Nat.ltb_spec q e); cbn [andb]; try reflexivity.
  assert (Hq : attrs_at l q = []).
  { unfold attrs_at. rewrite filter_none; [reflexivity|].
    intros x Hx. destruct (covers_pos q x) eqn:Hc; [exfalso|reflexivity].
    assert (Hxo : overlaps x s e = true).
    { unfold covers_pos in Hc; unfold overlaps.
      apply andb_true_iff in Hc as [Hc1 Hc2]; apply Nat.leb_le in Hc1; apply Nat.ltb_lt in Hc2.
      apply andb_true_iff; split; apply Nat.ltb_lt; lia. }
    assert (Hin : In x (filter (fun st => overlaps st s e) l)) by (apply filter_In; auto).
    rewrite Hov in Hin. destruct Hin. }
  rewrite Hq. unfold apply_at. rewrite Hm. reflexivity.
Qed.

End LibFacts.

Module LibExtras.
Import RStr Style Layout Lib StyleFacts StyleFacts2 StyleFacts3 StyleFacts4 LibFacts Examples2.

Lemma toggle_unstyled get set e pi s en para :
  has_formatting_attrs (set false default_attrs) = false ->
  nth_error (paragraphs e) pi = Some para -> styles_invariant (Doc.styles para) = true ->
  styles_in_range para s en = [] ->
  paragraphs (toggle_with get set e pi s en) = paragraphs e.
Proof.
  intros Hd Hp Hi Hr. unfold toggle_with. rewrite Hp, Hr. cbn [forallb negb].
  unfold paragraphs at 1, with_paragraphs; cbn [document Doc.paragraphs].
  apply (update_nth_same _ _ _ para Hp).
  unfold Paragraph_apply_style. rewrite apply_style_unstyled; [|exact Hi|exact Hr|exact Hd].
  destruct para; reflexivity.
Qed.

(** X18. Because [is_bold] is [all] over the styles overlapping the range,
    which is vacuously true when none does, [toggle_bold] on a range
    that no stored style overlaps sets [bold = false] and leaves the
    paragraphs unchanged: it cannot make unstyled text bold. The same
    holds for [toggle_italic], [toggle_underline] and
    [toggle_strikethrough]. *)
Theorem toggle_unstyled_noop e pi s en para :
  nth_error (paragraphs e) pi = Some para -> styles_invariant (Doc.styles para) = true ->
  styles_in_range para s en = [] ->
  paragraphs (toggle_bold e pi s en) = paragraphs e /\
  paragraphs (toggle_italic e pi s en) = paragraphs e /\
  paragraphs (toggle_underline e pi s en) = paragraphs e /\
  paragraphs (toggle_strikethrough e pi s en) = paragraphs e.
Proof.
  intros Hp Hi Hr.
  split; [|split; [|split]]; apply (toggle_unstyled _ _ e pi s en para); auto.
Qed.

Lemma toggle_unstyled_noop_witness :
  paragraphs (toggle_bold ex_engine 0 0 2) = paragraphs ex_engine /\
  paragraphs (toggle_italic ex_engine 0 0 2) = paragraphs ex_engine /\
  paragraphs (toggle_underline ex_engine 0 0 2) = paragraphs ex_engine /\
  paragraphs (toggle_strikethrough ex_engine 0 0 2) = paragraphs ex_engine.
Proof.
  apply (toggle_unstyled_noop ex_engine 0 0 2 (Examples.ex_para [97; 98]%Z Doc.LNone));
    reflexivity.
Defined.

(** X19. On a paragraph whose styles are sorted, disjoint and non-empty,
    [toggle_bold] keeps the text and, at every position of the range,
    sets the bold flag of the formatting in force to the negation of
    "every style overlapping the range is bold", leaving all other
    formatting and every position outside the range as it was. The same
    holds for [toggle_italic], [toggle_underline] and
    [toggle_strikethrough] with their flags. *)
Theorem toggles_restyle e pi s en :
  restyled e (toggle_bold e pi s en) pi s en
    (fun para => with_bold (negb (forallb (fun st => bold (attrs st)) (styles_in_range para s en)))) /\
  restyled e (toggle_italic e pi s en) pi s en
    (fun para => with_italic (negb (forallb (fun st => italic (attrs st)) (styles_in_range para s en)))) /\
  restyled e (toggle_underline e pi s en) pi s en
    (fun para => with_underline
                   (negb (forallb (fun st => underline (attrs st)) (styles_in_range para s en)))) /\
  restyled e (toggle_strikethrough e pi s en) pi s en
    (fun para => with_strikethrough
                   (negb (forallb (fun st => strikethrough (attrs st)) (styles_in_range para s en)))).
Proof.
  split; [|split; [|split]].
  - exact (toggle_restyled bold with_bold e pi s en with_bold_ok).
  - exact (toggle_restyled italic with_italic e pi s en with_italic_ok).
  - exact (toggle_restyled underline with_underline e pi s en with_underline_ok).
  - exact (toggle_restyled strikethrough with_strikethrough e pi s en with_strikethrough_ok).
Qed.

(** X20. On a paragraph whose styles are sorted, disjoint and non-empty,
    [set_text_color] keeps the text and sets the colour in force at every
    position of the range to the given colour, or clears it for an empty
    string, leaving everything else unchanged; [set_highlight_color] does
    the same for the background. *)
Theorem color_setters_restyle e pi s en c :
  restyled e (set_text_color e pi s en c) pi s en
    (fun _ => with_color (if is_empty c then None else Some c)) /\
  restyled e (set_highlight_color e pi s en c) pi s en
    (fun _ => with_background (if is_empty c then None else Some c)).
Proof.
  split.
  - exact (color_restyled with_color e pi s en c with_color_ok).
  - exact (color_restyled with_background e pi s en c with_background_ok).
Qed.

Lemma paragraphs_with e ps : paragraphs (with_paragraphs e ps) = ps.
Proof. reflexivity. Qed.

Lemma paragraphs_insert e i t : paragraphs (insert_paragraph e i t) =
  if length (paragraphs e) <=? i then paragraphs e ++ [Paragraph_new t]
  else firstn i (paragraphs e) ++ Paragraph_new t :: skipn i (paragraphs e).
Proof. reflexivity. Qed.

Lemma dirty_insert e i t : dirty (insert_paragraph e i t) = true.
Proof. reflexivity. Qed.

Lemma vec_remove_cons {A} i (y : A) l :
  Table.vec_remove (S i) (y :: l) = y :: Table.vec_remove i l.
Proof. reflexivity. Qed.

Lemma vec_remove_ins {A} i (x : A) l :
  i <= length l -> Table.vec_remove i (firstn i l ++ x :: skipn i l) = l.
Proof.
  revert i; induction l as [|y r IH]; intros [|i] Hi; cbn [length] in Hi; try lia;
    try reflexivity.
  cbn [firstn skipn app]. rewrite vec_remove_cons, IH by lia. reflexivity.
Qed.

Lemma vec_remove_last {A} (x : A) l : Table.vec_remove (length l) (l ++ [x]) = l.
Proof.
  induction l as [|y r IH]; [reflexivity|].
  cbn [length app]. rewrite vec_remove_cons, IH. reflexivity.
Qed.

(** X21. [insert_paragraph e i t] adds one paragraph with text [t] at
    [k = min(i, paragraph_count)] (pushing it at the end when [i] is past
    the end), keeps the paragraphs before [k], shifts those after it by
    one, and marks the engine dirty. Deleting at [k] then restores the
    paragraphs; deleting at an index [i] past the old end does nothing,
    as the paragraph was pushed at the old end. *)
Theorem insert_paragraph_spec e i t :
  let e' := insert_paragraph e i t in
  let k := Nat.min i (paragraph_count e) in
  paragraph_count e' = S (paragraph_count e) /\ get_paragraph e' k = Some t /\
  dirty e' = true /\
  (forall j, j < k -> nth_error (paragraphs e') j = nth_error (paragraphs e) j) /\
  (forall j, k <= j -> nth_error (paragraphs e') (S j) = nth_error (paragraphs e) j) /\
  paragraphs (delete_paragraph e' k) = paragraphs e /\
  (paragraph_count e < i -> delete_paragraph e' i = e').
Proof.
  cbv zeta. unfold paragraph_count, get_paragraph, delete_paragraph.
  rewrite !paragraphs_insert, dirty_insert.
  set (ps := paragraphs e).
  destruct (Nat.leb_spec (length ps) i) as [Hi|Hi].
  - rewrite Nat.min_r by exact Hi. rewrite length_app; cbn [length]. rewrite Nat.add_1_r.
    split; [reflexivity|split; [|split; [reflexivity|split; [|split; [|split]]]]].
    + rewrite nth_error_app2, Nat.sub_diag by lia. reflexivity.
    + intros j Hj. apply nth_error_app1, Hj.
    + intros j Hj. rewrite !(proj2 (nth_error_None _ _)); [reflexivity|lia|].
      rewrite length_app; cbn [length]; lia.
    + rewrite (proj2 (Nat.ltb_lt _ _)) by lia. rewrite paragraphs_with.
      apply vec_remove_last.
    + intros Hlt. rewrite (proj2 (Nat.ltb_ge _ _)) by lia. reflexivity.
  - rewrite Nat.min_l by lia. rewrite TableFacts3.length_ins by lia.
    split; [reflexivity|split; [|split; [reflexivity|split; [|split; [|split]]]]].
    + rewrite TableFacts3.nth_error_ins by lia. rewrite Nat.ltb_irrefl, Nat.eqb_refl. reflexivity.
    + intros j Hj. rewrite TableFacts3.nth_error_ins by lia.
      apply Nat.ltb_lt in Hj; rewrite Hj; reflexivity.
    + intros j Hj. rewrite TableFacts3.nth_error_ins by lia.
      replace (S j <? i) with false by (symmetry; apply Nat.ltb_ge; lia).
      replace (S j =? i) with false by (symmetry; apply Nat.eqb_neq; lia).
      f_equal; lia.
    + rewrite (proj2 (Nat.ltb_lt _ _)) by lia.
      rewrite paragraphs_with. apply vec_remove_ins. lia.
    + intros Hlt. lia.
Qed.

(** X22. [delete_paragraph e i] with [i] in range removes that paragraph,
    shifting the later ones up, and marks the engine dirty; there is no
    lower bound, so the last paragraph can be deleted. Out of range it
    leaves the engine unchanged, dirty flag included. *)
Theorem delete_paragraph_spec e i :
  (i < paragraph_count e ->
     paragraph_count (delete_paragraph e i) = paragraph_count e - 1 /\
     dirty (delete_paragraph e i) = true /\
     forall j, nth_error (paragraphs (delete_paragraph e i)) j =
               nth_error (paragraphs e) (if j <? i then j else S j)) /\
  (paragraph_count e <= i -> delete_paragraph e i = e).
Proof.
  unfold delete_paragraph, paragraph_count. split.
  - intros Hi. apply Nat.ltb_lt in Hi as Hb. rewrite Hb.
    unfold paragraphs at 1 3, with_paragraphs; cbn [document Doc.paragraphs dirty].
    split; [apply TableFacts3.length_remove, Hi|split; [reflexivity|]].
    intros j. apply TableFacts3.nth_error_remove.
  - intros Hi. apply Nat.ltb_ge in Hi. rewrite Hi. reflexivity.
Qed.

Lemma fold_max_ge r p : p <= fold_left Nat.max r p /\
  forall x, In x r -> x <= fold_left Nat.max r p.
Proof.
  revert p; induction r as [|y r IH]; intros p; cbn [fold_left]; [split; [lia|intros x []]|].
  destruct (IH (Nat.max p y)) as [H1 H2]. split; [lia|].
  intros x [<-|Hx]; [lia|apply H2, Hx].
Qed.

Lemma fold_max_in r p : p = fold_left Nat.max r p \/ In (fold_left Nat.max r p) r.
Proof.
  revert p; induction r as [|y r IH]; intros p; cbn [fold_left]; [left; reflexivity|].
  destruct (IH (Nat.max p y)) as [H|H].
  - rewrite <- H. destruct (Nat.max_spec p y) as [[_ ->]|[_ ->]]; [right; left; reflexivity|left; reflexivity].
  - right; right; exact H.
Qed.

(** X24. [page_count] is at least 1, every display line lies on a page
    below it, and, when there are lines, some line lies on its last page. *)
Theorem page_count_spec e :
  1 <= page_count e /\
  (forall dl, In dl (display_lines e) -> page_index dl < page_count e) /\
  (display_lines e <> [] -> exists dl, In dl (display_lines e) /\ S (page_index dl) = page_count e).
Proof.
  unfold page_count. destruct (display_lines e) as [|d ds] eqn:E; cbn [map].
  - split; [lia|split; [intros dl []|intros H; congruence]].
  - destruct (fold_max_ge (map page_index ds) (page_index d)) as [H1 H2].
    split; [lia|split].
    + intros dl [<-|Hin]; [lia|]. apply Nat.lt_succ_r, H2, in_map, Hin.
    + intros _. destruct (fold_max_in (map page_index ds) (page_index d)) as [H|H].
      * exists d. split; [left; reflexivity|rewrite <- H; reflexivity].
      * apply in_map_iff in H as (dl & Hdl & Hin). exists dl.
        split; [right; exact Hin|rewrite Hdl; reflexivity].
Qed.

(** X25. After [delete_image e iid] no image has the id [iid], the other
    images are kept, the paragraphs kept are exactly those not showing
    image [iid], and the tables are untouched. *)
Theorem delete_image_spec e iid :
  let e' := delete_image e iid in
  Doc.find_image (document e') iid = None /\
  (forall img, In img (Doc.images (document e')) <->
               In img (Doc.images (document e)) /\ Doc.id img <> iid) /\
  (forall p, In p (paragraphs e') <-> In p (paragraphs e) /\ Doc.image_id p <> Some iid) /\
  Doc.tables (document e') = Doc.tables (document e) /\ dirty e' = true.
Proof.
  cbv zeta. unfold delete_image, paragraphs, Doc.find_image; cbn [document Doc.images
    Doc.paragraphs Doc.tables dirty].
  assert (Himg : forall img, In img (filter (fun img => negb (rstring_eqb (Doc.id img) iid))
                                            (Doc.images (document e))) <->
                 In img (Doc.images (document e)) /\ Doc.id img <> iid).
  { intros img. rewrite filter_In, negb_true_iff.
    split; intros [H1 H2]; split; auto.
    - intros Heq. apply rstring_eqb_eq in Heq. congruence.
    - apply not_true_iff_false. intros Heq. apply rstring_eqb_eq in Heq. auto. }
  split; [|split; [exact Himg|split; [|split; reflexivity]]].
  - destruct (find _ _) as [img|] eqn:Ef; [exfalso|reflexivity].
    apply find_some in Ef as [Hin Heq]. apply rstring_eqb_eq in Heq.
    apply Himg in Hin as [_ Hne]. auto.
  - intros p. rewrite filter_In.
    destruct (Doc.image_id p) as [i|]; split; intros [H1 H2]; split; auto; try congruence.
    + apply negb_true_iff in H2. intros Heq; injection Heq as ->.
      rewrite (proj2 (rstring_eqb_eq iid iid) eq_refl) in H2. discriminate.
    + apply negb_true_iff, not_true_iff_false. intros Heq. apply rstring_eqb_eq in Heq.
      subst; auto.
Qed.

(** X26. After [delete_table e tid] no table has the id [tid], the other
    tables are kept, the paragraphs kept are exactly those not showing
    table [tid], and the images are untouched. *)
Theorem delete_table_spec e tid :
  let e' := delete_table e tid in
  Doc.find_table (document e') tid = None /\
  (forall t, In t (Doc.tables (document e')) <->
             In t (Doc.tables (document e)) /\ Table.id t <> tid) /\
  (forall p, In p (paragraphs e') <-> In p (paragraphs e) /\ Doc.table_id p <> Some tid) /\
  Doc.images (document e') = Doc.images (document e) /\ dirty e' = true.
Proof.
  cbv zeta. unfold delete_table, paragraphs, Doc.find_table; cbn [document Doc.images
    Doc.paragraphs Doc.tables dirty].
  assert (Htab : forall t, In t (filter (fun t => negb (rstring_eqb (Table.id t) tid))
                                        (Doc.tables (document e))) <->
                 In t (Doc.tables (document e)) /\ Table.id t <> tid).
  { intros t. rewrite filter_In, negb_true_iff.
    split; intros [H1 H2]; split; auto.
    - intros Heq. apply rstring_eqb_eq in Heq. congruence.
    - apply not_true_iff_false. intros Heq. apply rstring_eqb_eq in Heq. auto. }
  split; [|split; [exact Htab|split; [|split; reflexivity]]].
  - destruct (find _ _) as [t|] eqn:Ef; [exfalso|reflexivity].
    apply find_some in Ef as [Hin Heq]. apply rstring_eqb_eq in Heq.
    apply Htab in Hin as [_ Hne]. auto.
  - intros p. rewrite filter_In.
    destruct (Doc.table_id p) as [i|]; split; intros [H1 H2]; split; auto; try congruence.
    + apply negb_true_iff in H2. intros Heq; injection Heq as ->.
      rewrite (proj2 (rstring_eqb_eq tid tid) eq_refl) in H2. discriminate.
    + apply negb_true_iff, not_true_iff_false. intros Heq. apply rstring_eqb_eq in Heq.
      subst; auto.
Qed.

End LibExtras.

Module RenderFacts.
Import RStr Style Render StyleFacts LayoutFacts.

(** *** Byte slices, continued *)

Lemma drop_bytes_add t : forall i r n,
  drop_bytes i t = Some r -> drop_bytes (i + n) t = drop_bytes n r.
Proof.
  induction t as [|c t IH]; intros [|i] r n H; cbn [drop_bytes] in H.
  - injection H as <-. reflexivity.
  - discriminate.
  - injection H as <-. reflexivity.
  - destruct (Nat.leb_spec (len_utf8 c) (S i)) as [Hc|]; [|discriminate].
    rewrite Nat.add_succ_l. cbn [drop_bytes].
    rewrite (proj2 (Nat.leb_le _ _)) by lia.
    replace (S (i + n) - len_utf8 c) with (S i - len_utf8 c + n) by lia.
    apply IH, H.
Qed.

Lemma take_bytes_split r : forall n u,
  take_bytes n r = Some u -> exists w, r = u ++ w /\ drop_bytes n r = Some w.
Proof.
  induction r as [|c r IH]; intros [|n] u H; cbn [take_bytes] in H.
  - injection H as <-. exists []. split; reflexivity.
  - discriminate.
  - injection H as <-. exists (c :: r). split; reflexivity.
  - destruct (Nat.leb_spec (len_utf8 c) (S n)) as [Hc|]; [|discriminate].
    destruct (take_bytes (S n - len_utf8 c) r) as [t|] eqn:Et; [|discriminate].
    injection H as <-. destruct (IH _ _ Et) as (w & -> & Hd).
    exists w. split; [reflexivity|]. cbn [drop_bytes].
    rewrite (proj2 (Nat.leb_le _ _)) by lia. exact Hd.
Qed.

Lemma take_bytes_app u : forall w m,
  take_bytes (byte_len u + m) (u ++ w) = option_map (app u) (take_bytes m w).
Proof.
  induction u as [|c u IH]; intros w m.
  - cbn [byte_len app]. rewrite Nat.add_0_l. destruct (take_bytes m w); reflexivity.
  - cbn [byte_len app]. pose proof (LayoutFacts.len_utf8_pos c) as Hc.
    destruct (len_utf8 c + byte_len u + m) as [|k] eqn:E; [lia|].
    cbn [take_bytes]. rewrite <- E.
    rewrite (proj2 (Nat.leb_le _ _)) by lia.
    replace (len_utf8 c + byte_len u + m - len_utf8 c) with (byte_len u + m) by lia.
    rewrite IH. destruct (take_bytes m w); reflexivity.
Qed.

Lemma slice_app i j k t u v :
  slice i j t = Some u -> slice j k t = Some v -> slice i k t = Some (u ++ v).
Proof.
  unfold slice. destruct (Nat.ltb_spec j i); [discriminate|].
  destruct (drop_bytes i t) as [r|] eqn:Ei; [|discriminate]. intros Hu.
  destruct (Nat.ltb_spec k j); [discriminate|].
  destruct (take_bytes_split _ _ _ Hu) as (w & Hr & Hw).
  pose proof (drop_bytes_add _ _ _ (j - i) Ei) as Hj.
  replace (i + (j - i)) with j in Hj by lia. rewrite Hw in Hj. rewrite Hj. intros Hv.
  destruct (Nat.ltb_spec k i); [lia|].
  apply take_bytes_len in Hu as [Hl _].
  replace (k - i) with (byte_len u + (k - j)) by lia.
  rewrite Hr, take_bytes_app, Hv. reflexivity.
Qed.

Lemma drop_bytes_all t : drop_bytes (byte_len t) t = Some [].
Proof.
  induction t as [|c t IH]; [reflexivity|].
  cbn [byte_len]. pose proof (LayoutFacts.len_utf8_pos c) as Hc.
  destruct (len_utf8 c + byte_len t) as [|k] eqn:E; [lia|].
  cbn [drop_bytes]. rewrite <- E.
  rewrite (proj2 (Nat.leb_le _ _)) by lia.
  replace (len_utf8 c + byte_len t - len_utf8 c) with (byte_len t) by lia. exact IH.
Qed.

Lemma slice_full t : slice 0 (byte_len t) t = Some t.
Proof.
  pose proof (TextFacts.take_bytes_prefix t (length t)) as H.
  rewrite firstn_all in H.
  unfold slice. rewrite (proj2 (Nat.ltb_ge _ _)) by lia. rewrite Nat.sub_0_r.
  destruct t; exact H.
Qed.

Lemma slice_end t : slice (byte_len t) (byte_len t) t = Some [].
Proof.
  unfold slice. rewrite Nat.ltb_irrefl, drop_bytes_all, Nat.sub_diag. reflexivity.
Qed.

(** *** Sorted boundaries *)

Lemma dedup_cons x r : dedup (x :: r) =
  match r with [] => [x] | y :: _ => if x =? y then dedup r else x :: dedup r end.
Proof. destruct r; reflexivity. Qed.

Lemma dedup_in l x : In x (dedup l) <-> In x l.
Proof.
  induction l as [|y r IH]; [reflexivity|].
  rewrite dedup_cons. destruct r as [|z r']; [reflexivity|].
  destruct (Nat.eqb_spec y z) as [<-|]; cbn [In] in *; rewrite IH; cbn [In]; tauto.
Qed.

Lemma dedup_head y r : exists r', dedup (y :: r) = y :: r'.
Proof.
  revert y; induction r as [|z r IH]; intros y; [exists []; reflexivity|].
  rewrite dedup_cons. destruct (Nat.eqb_spec y z) as [<-|]; [apply IH|].
  eexists; reflexivity.
Qed.

Lemma dedup_sorted l : sorted_by (fun n => n) l = true -> sorted_by (fun n => n) (dedup l) = true.
Proof.
  induction l as [|x r IH]; intros H; [reflexivity|].
  rewrite dedup_cons. destruct r as [|y r']; [reflexivity|].
  cbn [sorted_by] in H. apply andb_true_iff in H as [Hxy Hr].
  destruct (x =? y); [apply IH, Hr|].
  destruct (dedup_head y r') as [r'' E]. specialize (IH Hr). rewrite E in *.
  change (((x <=? y) && sorted_by (fun n => n) (y :: r'')) = true).
  apply andb_true_iff; split; assumption.
Qed.

Lemma sorted_head_le a l x :
  sorted_by (fun n => n) (a :: l) = true -> In x (a :: l) -> a <= x.
Proof.
  revert a; induction l as [|b l IH]; intros a H Hx.
  - destruct Hx as [->|[]]; lia.
  - cbn [sorted_by] in H. apply andb_true_iff in H as [Hab Hl]. apply Nat.leb_le in Hab.
    destruct Hx as [->|Hx]; [lia|]. specialize (IH b Hl Hx). lia.
Qed.

Lemma sorted_last_ge l x d :
  sorted_by (fun n => n) l = true -> In x l -> x <= last l d.
Proof.
  revert x; induction l as [|a l IH]; intros x H Hx; [destruct Hx|].
  destruct l as [|b l].
  - destruct Hx as [->|[]]. reflexivity.
  - change (last (a :: b :: l) d) with (last (b :: l) d).
    cbn [sorted_by] in H. apply andb_true_iff in H as [Hab Hl]. apply Nat.leb_le in Hab.
    destruct Hx as [->|Hx].
    + specialize (IH b Hl (or_introl eq_refl)). lia.
    + apply IH; assumption.
Qed.

Lemma boundaries_in s e sty x :
  In x (dedup (Style.sort_by_key (fun n => n) ([s; e] ++ style_boundaries s e sty))) <->
  In x ([s; e] ++ style_boundaries s e sty).
Proof.
  rewrite dedup_in. split; apply Permutation_in;
    [|symmetry]; apply sort_by_key_perm.
Qed.

Lemma boundaries_sorted s e sty :
  sorted_by (fun n => n)
    (dedup (Style.sort_by_key (fun n => n) ([s; e] ++ style_boundaries s e sty))) = true.
Proof. apply dedup_sorted, sort_by_key_sorted. Qed.

(** *** The segment loop *)

Lemma segment_of_slice t s sty dc a b o :
  a <= b -> segment_of t s sty dc (a, b) = Some o ->
  s <= a /\
  slice (Nat.min (a - s) (byte_len t)) (Nat.min (b - s) (byte_len t)) t =
    Some (match o with Some sg => text sg | None => [] end).
Proof.
  intros Hab Hseg. unfold segment_of in Hseg.
  destruct (Nat.ltb_spec a s) as [Ha|Ha], (Nat.ltb_spec b s) as [Hb|Hb];
    cbn [orb] in Hseg; try discriminate.
  split; [lia|].
  destruct (Nat.leb_spec (byte_len t) (a - s)) as [HL|HL].
  - injection Hseg as <-.
    rewrite !Nat.min_r by lia. apply slice_end.
  - rewrite (Nat.min_l (a - s)) by lia.
    destruct (slice _ _ t) as [t0|] eqn:Es; [|discriminate].
    destruct t0 as [|c t0]; cbn [is_empty] in Hseg; injection Hseg as <-; reflexivity.
Qed.

Lemma segments_loop_cons t s sty dc bd r :
  segments_loop t s sty dc (bd :: r) =
  match segment_of t s sty dc bd with
  | None => None
  | Some o => match segments_loop t s sty dc r with
              | None => None
              | Some segs => Some (match o with Some sg => sg :: segs | None => segs end)
              end
  end.
Proof. reflexivity. Qed.

Lemma loop_concat t s sty dc r : forall a b segs,
  sorted_by (fun n => n) (a :: b :: r) = true ->
  segments_loop t s sty dc (pairs (a :: b :: r)) = Some segs ->
  s <= a /\
  slice (Nat.min (a - s) (byte_len t)) (Nat.min (last (b :: r) 0 - s) (byte_len t)) t =
    Some (concat (map text segs)).
Proof.
  induction r as [|c r IH]; intros a b segs Hs Hl;
    cbn [sorted_by] in Hs; apply andb_true_iff in Hs as [Hab Hs]; apply Nat.leb_le in Hab.
  - change (pairs [a; b]) with [(a, b)] in Hl. rewrite segments_loop_cons in Hl.
    destruct (segment_of t s sty dc (a, b)) as [o|] eqn:Eo; [|discriminate].
    cbn [segments_loop] in Hl. injection Hl as <-.
    destruct (segment_of_slice _ _ _ _ _ _ _ Hab Eo) as [Hsa Hsl].
    split; [exact Hsa|]. change (last [b] 0) with b. rewrite Hsl.
    destruct o; cbn [map concat]; rewrite ?app_nil_r; reflexivity.
  - change (pairs (a :: b :: c :: r)) with ((a, b) :: pairs (b :: c :: r)) in Hl.
    rewrite segments_loop_cons in Hl.
    destruct (segment_of t s sty dc (a, b)) as [o|] eqn:Eo; [|discriminate].
    destruct (segments_loop t s sty dc (pairs (b :: c :: r))) as [segs'|] eqn:Er;
      [|discriminate].
    injection Hl as <-.
    destruct (segment_of_slice _ _ _ _ _ _ _ Hab Eo) as [Hsa Hsl].
    destruct (IH b c segs' Hs Er) as [_ Hr].
    split; [exact Hsa|].
    change (last (b :: c :: r) 0) with (last (c :: r) 0).
    rewrite (slice_app _ _ _ _ _ _ Hsl Hr).
    destruct o; reflexivity.
Qed.

Lemma segments_loop_nonempty t s sty dc ps : forall segs,
  segments_loop t s sty dc ps = Some segs -> Forall (fun sg => text sg <> []) segs.
Proof.
  induction ps as [|[a b] r IH]; intros segs H; cbn [segments_loop] in H.
  - injection H as <-. constructor.
  - destruct (segment_of t s sty dc (a, b)) as [o|] eqn:Eo; [|discriminate].
    destruct (segments_loop t s sty dc r) as [segs'|]; [|discriminate].
    injection H as <-. specialize (IH _ eq_refl).
    destruct o as [sg|]; [|exact IH]. constructor; [|exact IH].
    unfold segment_of in Eo.
    destruct ((a <? s) || (b <? s)); [discriminate|].
    destruct (byte_len t <=? a - s); [discriminate|].
    destruct (slice _ _ t) as [[|c t0]|]; cbn [is_empty] in Eo; try discriminate.
    injection Eo as <-. cbn [text]. discriminate.
Qed.

Lemma sorted_app_l l1 l2 :
  sorted_by (fun n => n) (l1 ++ l2) = true -> sorted_by (fun n => n) l1 = true.
Proof.
  induction l1 as [|a l1 IH]; intros H; [reflexivity|].
  destruct l1 as [|b l1]; [reflexivity|].
  cbn [app sorted_by] in H |- *. apply andb_true_iff in H as [H1 H2].
  rewrite H1. apply IH, H2.
Qed.

Lemma sorted_app_le l1 l2 a b :
  sorted_by (fun n => n) (l1 ++ l2) = true -> In a l1 -> In b l2 -> a <= b.
Proof.
  induction l1 as [|c l1 IH]; intros H Ha Hb; [destruct Ha|].
  destruct Ha as [<-|Ha].
  - apply (sorted_head_le _ (l1 ++ l2)); [exact H|]. right. apply in_or_app. right; exact Hb.
  - apply IH; [|exact Ha|exact Hb].
    cbn [app] in H. remember (l1 ++ l2) as m eqn:Em. clear Em.
    destruct m as [|d r]; [reflexivity|].
    cbn [sorted_by] in H. apply andb_true_iff in H as [_ H]. exact H.
Qed.

Lemma sorted_gap l1 x y l2 z :
  sorted_by (fun n => n) (l1 ++ x :: y :: l2) = true -> In z (l1 ++ x :: y :: l2) ->
  z <= x \/ y <= z.
Proof.
  intros H Hz. apply in_app_or in Hz as [Hz|[<-|[<-|Hz]]].
  - left. apply (sorted_app_le l1 (x :: y :: l2)); [exact H|exact Hz|left; reflexivity].
  - left; lia.
  - right; lia.
  - right.
    replace (l1 ++ x :: y :: l2) with (((l1 ++ [x]) ++ [y]) ++ l2) in H
      by (rewrite <- !app_assoc; reflexivity).
    apply (sorted_app_le ((l1 ++ [x]) ++ [y]) l2); [exact H| |exact Hz].
    apply in_or_app; right; left; reflexivity.
Qed.

Lemma pairs_split l : forall ps1 x y ps2,
  pairs l = ps1 ++ (x, y) :: ps2 ->
  exists l1 l2, l = l1 ++ x :: y :: l2 /\ pairs (l1 ++ [x]) = ps1.
Proof.
  induction l as [|a l IH]; intros ps1 x y ps2 H.
  - destruct ps1; discriminate.
  - destruct l as [|b r]; [destruct ps1; discriminate|].
    change (pairs (a :: b :: r)) with ((a, b) :: pairs (b :: r)) in H.
    destruct ps1 as [|p ps1].
    + injection H as Hx Hy _. subst x y. exists [], r. split; reflexivity.
    + injection H as Hp H. subst p. destruct (IH _ _ _ _ H) as (l1 & l2 & E & Hp).
      exists (a :: l1), l2. split; [rewrite E; reflexivity|].
      destruct l1 as [|c l1]; cbn [app] in E |- *.
      * injection E as -> _. cbn [app] in Hp. subst ps1. reflexivity.
      * injection E as -> _. rewrite <- Hp. reflexivity.
Qed.

Lemma loop_segment t s sty dc ps : forall segs pre sg post,
  segments_loop t s sty dc ps = Some segs -> segs = pre ++ sg :: post ->
  exists ps1 x y ps2, ps = ps1 ++ (x, y) :: ps2 /\
    segments_loop t s sty dc ps1 = Some pre /\ segment_of t s sty dc (x, y) = Some (Some sg).
Proof.
  induction ps as [|[a b] r IH]; intros segs pre sg post H Hs; cbn [segments_loop] in H.
  - injection H as <-. destruct pre; discriminate.
  - destruct (segment_of t s sty dc (a, b)) as [o|] eqn:Eo; [|discriminate].
    destruct (segments_loop t s sty dc r) as [segs'|] eqn:Er; [|discriminate].
    injection H as <-. destruct o as [sg0|].
    + destruct pre as [|p pre].
      * injection Hs as -> _. exists [], a, b, r. split; [reflexivity|].
        split; [reflexivity|exact Eo].
      * injection Hs as -> Hs.
        destruct (IH _ _ _ _ eq_refl Hs) as (ps1 & x & y & ps2 & E & Hp & Hxy).
        exists ((a, b) :: ps1), x, y, ps2. split; [rewrite E; reflexivity|].
        split; [|exact Hxy]. rewrite segments_loop_cons, Eo, Hp. reflexivity.
    + destruct (IH _ _ _ _ eq_refl Hs) as (ps1 & x & y & ps2 & E & Hp & Hxy).
      exists ((a, b) :: ps1), x, y, ps2. split; [rewrite E; reflexivity|].
      split; [|exact Hxy]. rewrite segments_loop_cons, Eo, Hp. reflexivity.
Qed.

Lemma style_boundaries_in s e sty z :
  In z (style_boundaries s e sty) -> s < z < e.
Proof.
  induction sty as [|st r IH]; intros H; [destruct H|].
  cbn [style_boundaries] in H.
  destruct (Nat.ltb_spec s (start st)), (Nat.ltb_spec (start st) e),
    (Nat.ltb_spec s (end_ st)), (Nat.ltb_spec (end_ st) e); cbn in H;
    repeat match goal with H : _ \/ _ |- _ => destruct H as [<-|H] end;
    try lia; auto.
Qed.

Lemma style_boundaries_start s e sty st :
  In st sty -> s < start st < e -> In (start st) (style_boundaries s e sty).
Proof.
  induction sty as [|st' r IH]; intros Hin Hr; [destruct Hin|].
  cbn [style_boundaries]. destruct Hin as [->|Hin].
  - rewrite (proj2 (Nat.ltb_lt _ _)), (proj2 (Nat.ltb_lt (start st) e)) by lia.
    left; reflexivity.
  - apply in_or_app; right; apply in_or_app; right; apply IH; assumption.
Qed.

Lemma style_boundaries_end s e sty st :
  In st sty -> s < end_ st < e -> In (end_ st) (style_boundaries s e sty).
Proof.
  induction sty as [|st' r IH]; intros Hin Hr; [destruct Hin|].
  cbn [style_boundaries]. destruct Hin as [->|Hin].
  - apply in_or_app; right.
    rewrite (proj2 (Nat.ltb_lt _ _)), (proj2 (Nat.ltb_lt (end_ st) e)) by lia.
    left; reflexivity.
  - apply in_or_app; right; apply in_or_app; right; apply IH; assumption.
Qed.

(** *** The merged formatting *)

Lemma fold_left_ext_in {A B} (f g : A -> B -> A) l : forall acc,
  (forall a b, In b l -> f a b = g a b) -> fold_left f l acc = fold_left g l acc.
Proof.
  induction l as [|b l IH]; intros acc H; [reflexivity|].
  cbn [fold_left]. rewrite H by (left; reflexivity). apply IH.
  intros a b' Hb. apply H. right; exact Hb.
Qed.

Lemma existsb_ext_in {A} (f g : A -> bool) l :
  (forall a, In a l -> f a = g a) -> existsb f l = existsb g l.
Proof.
  induction l as [|a l IH]; intros H; [reflexivity|].
  cbn [existsb]. rewrite H by (left; reflexivity). f_equal. apply IH.
  intros b Hb; apply H; right; exact Hb.
Qed.

Lemma find_ext_in {A} (f g : A -> bool) l :
  (forall a, In a l -> f a = g a) -> find f l = find g l.
Proof.
  induction l as [|a l IH]; intros H; [reflexivity|].
  cbn [find]. rewrite H by (left; reflexivity).
  destruct (g a); [reflexivity|]. apply IH.
  intros b Hb; apply H; right; exact Hb.
Qed.

Lemma merged_fold x y l : forall acc,
  let cov st := (start st <=? x) && (y <=? end_ st) in
  let f := fold_left (merge_step x y) l acc in
  Style.bold f = (Style.bold acc || existsb (fun st => cov st && Style.bold (attrs st)) l) /\
  Style.italic f = (Style.italic acc || existsb (fun st => cov st && Style.italic (attrs st)) l) /\
  Style.underline f =
    (Style.underline acc || existsb (fun st => cov st && Style.underline (attrs st)) l) /\
  Style.strikethrough f =
    (Style.strikethrough acc || existsb (fun st => cov st && Style.strikethrough (attrs st)) l) /\
  Style.color f =
    match Style.color acc with
    | Some c => Some c
    | None => match find (fun st => cov st && is_some (Style.color (attrs st))) l with
              | Some st => Style.color (attrs st)
              | None => None
              end
    end /\
  Style.background f =
    match Style.background acc with
    | Some c => Some c
    | None => match find (fun st => cov st && is_some (Style.background (attrs st))) l with
              | Some st => Style.background (attrs st)
              | None => None
              end
    end.
Proof.
  induction l as [|st l IH]; intros acc; cbv zeta.
  - cbn [fold_left existsb find]. rewrite !orb_false_r.
    destruct (Style.color acc), (Style.background acc); repeat split.
  - cbn [fold_left existsb find].
    destruct (IH (merge_step x y acc st)) as (H1 & H2 & H3 & H4 & H5 & H6).
    cbv zeta in H1, H2, H3, H4, H5, H6.
    rewrite H1, H2, H3, H4, H5, H6. unfold merge_step.
    destruct ((start st <=? x) && (y <=? end_ st)); cbn [andb Style.bold Style.italic
      Style.underline Style.strikethrough Style.color Style.background].
    + rewrite !orb_assoc.
      destruct (Style.color acc), (Style.color (attrs st)) eqn:Ec, (Style.background acc),
        (Style.background (attrs st)) eqn:Eb; cbn [is_some]; repeat split; congruence.
    + destruct (Style.color acc), (Style.background acc); repeat split.
Qed.

End RenderFacts.

Module RenderFacts2.
Import RStr Style Render StyleFacts LayoutFacts RenderFacts.

Lemma segment_of_some t s sty dc x y sg :
  segment_of t s sty dc (x, y) = Some (Some sg) ->
  s <= x /\ x - s < byte_len t /\
  slice (x - s) (Nat.min (y - s) (byte_len t)) t = Some (text sg) /\
  let f := merged_attrs x y sty in
  bold sg = Style.bold f /\ italic sg = Style.italic f /\ underline sg = Style.underline f /\
  strikethrough sg = Style.strikethrough f /\
  color sg = match Style.color f with Some c => c | None => dc end /\
  background sg = Style.background f.
Proof.
  unfold segment_of. intros H.
  destruct (Nat.ltb_spec x s), (Nat.ltb_spec y s); cbn [orb] in H; try discriminate.
  destruct (Nat.leb_spec (byte_len t) (x - s)); [discriminate|].
  destruct (slice (x - s) (Nat.min (y - s) (byte_len t)) t) as [[|c t0]|] eqn:Es;
    cbn [is_empty] in H; try discriminate.
  injection H as <-. split; [lia|split; [lia|split; [reflexivity|]]].
  cbv zeta. repeat split.
Qed.

Lemma boundaries_range s e sty z :
  s <= e -> In z ([s; e] ++ style_boundaries s e sty) -> s <= z <= e.
Proof.
  intros Hse Hz. destruct Hz as [<-|[<-|Hz]]; [lia|lia|].
  apply style_boundaries_in in Hz. lia.
Qed.

Lemma byte_len_nil t : byte_len t = 0 -> t = [].
Proof.
  destruct t as [|c t]; [reflexivity|]. cbn [byte_len].
  pose proof (len_utf8_pos c). lia.
Qed.

(** The offset of a segment in the line is the length of those before it. *)
Lemma segment_offset t s e sty dc ps1 pre x y ps2 :
  byte_len t <= e - s ->
  let bs := dedup (Style.sort_by_key (fun n => n) ([s; e] ++ style_boundaries s e sty)) in
  pairs bs = ps1 ++ (x, y) :: ps2 ->
  segments_loop t s sty dc ps1 = Some pre ->
  s <= x -> x - s < byte_len t ->
  exists l1 l2, bs = l1 ++ x :: y :: l2 /\ x = s + byte_len (concat (map text pre)).
Proof.
  intros HL bs Hp Hl Hsx Hx.
  destruct (pairs_split _ _ _ _ _ Hp) as (l1 & l2 & E & Hp1).
  exists l1, l2. split; [exact E|].
  pose proof (boundaries_sorted s e sty) as Hs. fold bs in Hs.
  pose proof (proj2 (boundaries_in s e sty s) (or_introl eq_refl)) as Hin_s. fold bs in Hin_s.
  destruct l1 as [|a l1].
  - cbn [app pairs] in Hp1. subst ps1. cbn in Hl. injection Hl as <-.
    rewrite E in Hs, Hin_s. pose proof (sorted_head_le _ _ _ Hs Hin_s). cbn. lia.
  - assert (Hs1 : sorted_by (fun n => n) (a :: l1 ++ [x]) = true).
    { apply (sorted_app_l _ (y :: l2)).
      replace ((a :: l1 ++ [x]) ++ y :: l2) with bs
        by (rewrite E; cbn [app]; rewrite <- app_assoc; reflexivity).
      exact Hs. }
    rewrite E in Hs, Hin_s. pose proof (sorted_head_le _ _ _ Hs Hin_s) as Has.
    cbn [app] in Hp1.
    destruct (l1 ++ [x]) as [|b r] eqn:Ex; [destruct l1; discriminate|].
    destruct (loop_concat _ _ _ _ _ _ _ _ Hs1 (eq_ind _ (fun ps => segments_loop t s sty dc ps = Some pre) Hl _ (eq_sym Hp1)))
      as [Hsa Hsl].
    assert (Hlast : last (b :: r) 0 = x) by (rewrite <- Ex; apply last_last).
    rewrite Hlast in Hsl. replace (a - s) with 0 in Hsl by lia.
    rewrite Nat.min_0_l, (Nat.min_l (x - s)) in Hsl by lia.
    apply slice_len in Hsl. lia.
Qed.

End RenderFacts2.

Module RenderExtras.
Import RStr Style Layout Render StyleFacts LayoutFacts RenderFacts RenderFacts2.

(** X27. When [get_styled_segments] does not panic on a line whose text
    fits its byte range ([line_text.len() <= line_end - line_start]), the
    texts of the segments, in order, concatenate to the line text, and no
    segment is empty. *)
Theorem get_styled_segments_partition line_text line_start line_end styles default_color segs :
  byte_len line_text <= line_end - line_start ->
  get_styled_segments line_text line_start line_end styles default_color = Some segs ->
  concat (map text segs) = line_text /\ Forall (fun sg => text sg <> []) segs.
Proof.
  intros HL H. unfold get_styled_segments in H.
  destruct (is_empty line_text) eqn:Et.
  - injection H as <-. destruct line_text; [|discriminate]. split; [reflexivity|constructor].
  - pose proof (boundaries_sorted line_start line_end styles) as Hs.
    pose proof (proj2 (boundaries_in line_start line_end styles line_start) (or_introl eq_refl))
      as Hin_s.
    pose proof (proj2 (boundaries_in line_start line_end styles line_end)
                  (or_intror (or_introl eq_refl))) as Hin_e.
    set (bs := dedup (Style.sort_by_key (fun n => n)
                        ([line_start; line_end] ++ style_boundaries line_start line_end styles)))
      in *.
    destruct (segments_loop line_text line_start styles default_color (pairs bs)) as [segs0|] eqn:El;
      [|discriminate].
    assert (Hc : concat (map text segs0) = line_text \/ segs0 = []).
    { destruct bs as [|a [|b r]]; [destruct Hin_s|right; injection El as <-; reflexivity|left].
      destruct (loop_concat _ _ _ _ _ _ _ _ Hs El) as [Ha Hsl].
      pose proof (sorted_head_le _ _ _ Hs Hin_s) as Ha'.
      pose proof (sorted_last_ge _ _ 0 Hs Hin_e) as Hlast.
      change (last (a :: b :: r) 0) with (last (b :: r) 0) in Hlast.
      replace (a - line_start) with 0 in Hsl by lia.
      rewrite Nat.min_0_l, Nat.min_r in Hsl by lia.
      rewrite slice_full in Hsl. injection Hsl as <-. reflexivity. }
    pose proof (segments_loop_nonempty _ _ _ _ _ _ El) as Hne.
    destruct segs0 as [|sg0 segs0].
    + injection H as <-. cbn [map concat text]. rewrite app_nil_r. split; [reflexivity|].
      constructor; [destruct line_text; [discriminate|cbn [text]; intros Hnil; discriminate]
                   |constructor].
    + injection H as <-. destruct Hc as [Hc|Hc]; [|discriminate]. split; assumption.
Qed.

(** X28. The formatting of a segment is the formatting of each byte it
    spans: for every byte position [q] of the paragraph inside a segment,
    the segment is bold (italic, underlined, struck through) exactly when
    some style covering [q] ([start <= q < end]) is, and its colour and
    background are those of the first style covering [q] that sets one,
    the colour defaulting to [default_color]. *)
Theorem get_styled_segments_formatting line_text line_start line_end styles default_color
    segs pre sg post q :
  byte_len line_text <= line_end - line_start ->
  get_styled_segments line_text line_start line_end styles default_color = Some segs ->
  segs = pre ++ sg :: post ->
  line_start + byte_len (concat (map text pre)) <= q <
    line_start + byte_len (concat (map text pre)) + byte_len (text sg) ->
  let covers st := (start st <=? q) && (q <? end_ st) in
  bold sg = existsb (fun st => covers st && Style.bold (attrs st)) styles /\
  italic sg = existsb (fun st => covers st && Style.italic (attrs st)) styles /\
  underline sg = existsb (fun st => covers st && Style.underline (attrs st)) styles /\
  strikethrough sg = existsb (fun st => covers st && Style.strikethrough (attrs st)) styles /\
  color sg = match find (fun st => covers st && is_some (Style.color (attrs st))) styles with
             | Some st => match Style.color (attrs st) with Some c => c | None => default_color end
             | None => default_color
             end /\
  background sg =
    match find (fun st => covers st && is_some (Style.background (attrs st))) styles with
    | Some st => Style.background (attrs st)
    | None => None
    end.
Proof.
  intros HL H Hsegs Hq covers.
  unfold get_styled_segments in H.
  destruct (is_empty line_text) eqn:Et.
  { injection H as <-. destruct pre; discriminate. }
  assert (HL0 : 0 < byte_len line_text).
  { destruct (byte_len line_text) eqn:E0; [|lia].
    apply byte_len_nil in E0. subst line_text. discriminate. }
  pose proof (boundaries_sorted line_start line_end styles) as Hs0.
  pose proof (proj2 (boundaries_in line_start line_end styles line_start) (or_introl eq_refl))
    as Hin_s.
  pose proof (proj2 (boundaries_in line_start line_end styles line_end)
                (or_intror (or_introl eq_refl))) as Hin_e.
  set (bs := dedup (Style.sort_by_key (fun n => n)
                      ([line_start; line_end] ++ style_boundaries line_start line_end styles)))
    in *.
  destruct (segments_loop line_text line_start styles default_color (pairs bs)) as [segs0|] eqn:El;
    [|discriminate].
  assert (Hne : segs0 <> []).
  { intros ->. pose proof Hs0 as Hs.
    destruct bs as [|a [|b r]]; [destruct Hin_s| |].
    - destruct Hin_s as [<-|[]]; destruct Hin_e as [<-|[]]. lia.
    - destruct (loop_concat _ _ _ _ _ _ _ _ Hs El) as [Ha Hsl].
      pose proof (sorted_head_le _ _ _ Hs Hin_s) as Ha'.
      pose proof (sorted_last_ge _ _ 0 Hs Hin_e) as Hlast.
      change (last (a :: b :: r) 0) with (last (b :: r) 0) in Hlast.
      replace (a - line_start) with 0 in Hsl by lia.
      rewrite Nat.min_0_l, Nat.min_r in Hsl by lia.
      rewrite slice_full in Hsl. injection Hsl as Hsl. cbn in Hsl. subst line_text.
      discriminate. }
  assert (segs0 = segs) as <-.
  { destruct segs0; [congruence|]. injection H as <-. reflexivity. }
  destruct (loop_segment _ _ _ _ _ _ _ _ _ El Hsegs) as (ps1 & x & y & ps2 & Hp & Hl1 & Hxy).
  destruct (segment_of_some _ _ _ _ _ _ _ Hxy) as (Hsx & Hx & Hsl & Hf).
  destruct (segment_offset _ _ _ _ _ _ _ _ _ _ HL Hp Hl1 Hsx Hx) as (l1 & l2 & Ebs0 & Hoff).
  assert (Ebs : bs = l1 ++ x :: y :: l2) by exact Ebs0. clear Ebs0.
  rewrite <- Hoff in Hq.
  pose proof (slice_len _ _ _ _ Hsl) as Hlen.
  assert (Hqy : x <= q < y) by lia.
  assert (Hqe : q < line_end) by lia.
  pose proof Hs0 as Hs. rewrite Ebs in Hs.
  assert (Hgap : forall z, In z ([line_start; line_end] ++ style_boundaries line_start line_end styles) ->
                   z <= x \/ y <= z).
  { intros z Hz. apply (sorted_gap l1 x y l2 z Hs). rewrite <- Ebs.
    apply boundaries_in, Hz. }
  assert (Hy : y <= line_end).
  { assert (Hyin : In y bs) by (rewrite Ebs; apply in_or_app; right; right; left; reflexivity).
    apply boundaries_in, boundaries_range in Hyin; lia. }
  assert (Hcov : forall st, In st styles ->
            (start st <=? x) && (y <=? end_ st) = covers st).
  { intros st Hin. unfold covers.
    destruct (Nat.leb_spec (start st) x), (Nat.leb_spec y (end_ st)),
      (Nat.leb_spec (start st) q), (Nat.ltb_spec q (end_ st)); try reflexivity; try lia.
    - assert (Hb : In (end_ st) (style_boundaries line_start line_end styles))
        by (apply style_boundaries_end; [exact Hin|lia]).
      destruct (Hgap (end_ st) (in_or_app _ _ _ (or_intror Hb))); lia.
    - assert (Hb : In (start st) (style_boundaries line_start line_end styles))
        by (apply style_boundaries_start; [exact Hin|lia]).
      destruct (Hgap (start st) (in_or_app _ _ _ (or_intror Hb))); lia.
    - assert (Hb : In (start st) (style_boundaries line_start line_end styles))
        by (apply style_boundaries_start; [exact Hin|lia]).
      destruct (Hgap (start st) (in_or_app _ _ _ (or_intror Hb))); lia. }
  cbv zeta in Hf. unfold merged_attrs in Hf.
  destruct (merged_fold x y styles default_attrs) as (B1 & B2 & B3 & B4 & B5 & B6).
  cbv zeta in B1, B2, B3, B4, B5, B6. cbn [default_attrs Style.bold Style.italic Style.underline
    Style.strikethrough Style.color Style.background orb] in B1, B2, B3, B4, B5, B6.
  destruct Hf as (F1 & F2 & F3 & F4 & F5 & F6).
  rewrite F1, F2, F3, F4, F5, F6, B1, B2, B3, B4, B5, B6.
  repeat split.
  - apply existsb_ext_in. intros st Hin. rewrite Hcov by exact Hin. reflexivity.
  - apply existsb_ext_in. intros st Hin. rewrite Hcov by exact Hin. reflexivity.
  - apply existsb_ext_in. intros st Hin. rewrite Hcov by exact Hin. reflexivity.
  - apply existsb_ext_in. intros st Hin. rewrite Hcov by exact Hin. reflexivity.
  - rewrite (find_ext_in _ (fun st => covers st && is_some (Style.color (attrs st))))
      by (intros st Hin; rewrite Hcov by exact Hin; reflexivity).
    destruct (find (fun st => covers st && is_some (Style.color (attrs st))) styles) as [st|];
      reflexivity.
  - apply (f_equal (fun o => match o with Some st => Style.background (attrs st) | None => None end)).
    apply find_ext_in. intros st Hin. rewrite Hcov by exact Hin. reflexivity.
Qed.

Lemma get_styled_segments_partition_witness :
  exists segs,
    get_styled_segments [97; 98; 233]%Z 10 14
      [Style.mkStyle 11 12 (Style.mkAttrs true false false false None None)] [48]%Z = Some segs /\
    concat (map text segs) = [97; 98; 233]%Z /\ Forall (fun sg => text sg <> []) segs.
Proof.
  eexists. split; [reflexivity|].
  apply (get_styled_segments_partition [97; 98; 233]%Z 10 14
           [Style.mkStyle 11 12 (Style.mkAttrs true false false false None None)] [48]%Z);
    [cbn; lia|reflexivity].
Defined.

Lemma get_styled_segments_formatting_witness :
  get_styled_segments [97; 98; 99]%Z 10 13
    [Style.mkStyle 11 20 (Style.mkAttrs true false false false None None)] [48]%Z =
  Some [mkSegment [97]%Z false false false false [48]%Z None;
        mkSegment [98; 99]%Z true false false false [48]%Z None] /\
  bold (mkSegment [98; 99]%Z true false false false [48]%Z None) =
    existsb (fun st => (start st <=? 12) && (12 <? end_ st) && Style.bold (attrs st))
      [Style.mkStyle 11 20 (Style.mkAttrs true false false false None None)].
Proof.
  split; [reflexivity|].
  destruct (get_styled_segments_formatting [97; 98; 99]%Z 10 13
              [Style.mkStyle 11 20 (Style.mkAttrs true false false false None None)] [48]%Z
              [mkSegment [97]%Z false false false false [48]%Z None;
               mkSegment [98; 99]%Z true false false false [48]%Z None]
              [mkSegment [97]%Z false false false false [48]%Z None]
              (mkSegment [98; 99]%Z true false false false [48]%Z None) [] 12)
    as [Hb _]; [cbn; lia|reflexivity|reflexivity|cbn; lia|].
  exact Hb.
Defined.

End RenderExtras.

Module PageExtras.
Import Layout Lib Render LayoutFacts5.

Lemma page_index_lt_page_count e dl :
  In dl (display_lines e) -> Layout.page_index dl < page_count e.
Proof.
  intros Hin. unfold page_count. destruct (display_lines e) as [|d ds]; [destruct Hin|].
  cbn [map]. destruct (LibExtras.fold_max_ge (map Layout.page_index ds) (Layout.page_index d))
    as [H1 H2].
  destruct Hin as [<-|Hin]; [lia|]. apply Nat.lt_succ_r, H2, in_map, Hin.
Qed.

Lemma page_count_pos e : 1 <= page_count e.
Proof. unfold page_count. destruct (map Layout.page_index (display_lines e)); lia. Qed.

Lemma nth_error_last_line ls : ls <> [] -> nth_error ls (length ls - 1) = last_line ls.
Proof.
  intros Hne. induction ls as [|d r _] using rev_ind; [congruence|].
  unfold last_line. rewrite rev_unit, length_app. cbn [length]. rewrite Nat.add_sub.
  rewrite nth_error_app2, Nat.sub_diag by lia. reflexivity.
Qed.

(** X30. [Engine::get_page_for_position] always names an existing page
    (below [page_count]). When some display line of paragraph [p] spans
    offset [o] ([start_offset <= o <= end_offset]), the page is that of
    such a line; when none does, it is the page of the last display line
    (0 without lines). *)
Theorem get_page_for_position_spec e p o :
  let pg := engine_get_page_for_position e p o in
  pg < page_count e /\
  ((exists dl, In dl (display_lines e) /\ para_index dl = p /\
               start_offset dl <= o <= end_offset dl) ->
   exists dl, In dl (display_lines e) /\ para_index dl = p /\
              start_offset dl <= o <= end_offset dl /\ Layout.page_index dl = pg) /\
  ((~ exists dl, In dl (display_lines e) /\ para_index dl = p /\
                 start_offset dl <= o <= end_offset dl) ->
   pg = match last_line (display_lines e) with Some dl => Layout.page_index dl | None => 0 end).
Proof.
  cbv zeta. unfold engine_get_page_for_position, get_page_for_position, para_to_display_pos.
  destruct (para_to_display_from 0 (display_lines e) p o) as [d|] eqn:E.
  - destruct (para_to_display_from_spec _ _ _ _ _ E) as (k & dl & Hk & Hl & _ & Hp & Ho).
    rewrite Hl, Nat.add_0_l, Hk.
    assert (Hin : In dl (display_lines e)) by (apply nth_error_In with k; exact Hk).
    split; [apply page_index_lt_page_count, Hin|split].
    + intros _. exists dl. split; [exact Hin|split; [exact Hp|split; [exact Ho|reflexivity]]].
    + intros Hn. exfalso. apply Hn. exists dl. split; [exact Hin|split; [exact Hp|exact Ho]].
  - cbn [line]. split; [|split].
    + destruct (nth_error (display_lines e) (length (display_lines e) - 1)) as [dl|] eqn:En.
      * apply page_index_lt_page_count, nth_error_In with (length (display_lines e) - 1), En.
      * apply page_count_pos.
    + intros (dl & Hin & Hp & Ho). exfalso.
      exact (para_to_display_from_found _ 0 p o dl Hin Hp Ho E).
    + intros _. destruct (display_lines e) as [|d r] eqn:Els; [reflexivity|].
      rewrite nth_error_last_line by congruence.
      destruct (last_line (d :: r)); reflexivity.
Qed.

End PageExtras.
